(** * History upload protocol of the Chromium history extension

    A shallow embedding of [frontend/extension/background/service_worker.js]:
    the paginated enumeration of the browser history ([fetchHistory]), the
    normalisation of raw history items and the preparation of batches
    ([chatWithBackend], before the socket is created), and the event handlers
    that drive one WebSocket session ([chatWithBackend], inside the promise).

    Conventions.
    - A JavaScript number is a [number]: NaN, the two infinities, or a finite
      value.  The code only compares, floors and takes maxima of the numbers
      found in history items, operations that are exact on doubles, so the
      finite values are modelled by the rationals [Qc].
    - Counts, epoch times and result limits are integers far below 2^53 and
      are modelled by [Z] or [nat]; [Math.ceil (a / b)] and
      [Math.floor (a / b)] on such integers are the integer divisions below.
    - An optional property of an object is an [option]; [None] is
      [undefined]. *)

From Stdlib Require Import ZArith QArith Qcanon Qround Lia Ascii.
From stdpp Require Import base numbers option list gmap strings.

Local Open Scope nat_scope.

(** ** JavaScript values used by the worker *)

Module Js.

Inductive number : Type :=
| NaN
| PosInf
| NegInf
| Fin (q : Qc).

Definition zero : number := Fin (Qc_of_Z 0).
Definition of_Z (z : Z) : number := Fin (Qc_of_Z z).

(** [isNaN x] and [isFinite x] on a number. *)
Definition isNaN (x : number) : bool :=
  match x with NaN => true | _ => false end.

Definition isFinite (x : number) : bool :=
  match x with Fin _ => true | _ => false end.

(** [x < y] for two numbers: false as soon as one side is NaN. *)
Definition lt (x y : number) : bool :=
  match x, y with
  | NaN, _ | _, NaN => false
  | PosInf, _ => false
  | _, NegInf => false
  | NegInf, _ => true
  | Fin _, PosInf => true
  | Fin a, Fin b => bool_decide (a < b)%Qc
  end.

(** [x <= y]. *)
Definition le (x y : number) : bool :=
  match x, y with
  | NaN, _ | _, NaN => false
  | NegInf, _ => true
  | _, PosInf => true
  | PosInf, _ => false
  | Fin _, NegInf => false
  | Fin a, Fin b => bool_decide (a ≤ b)%Qc
  end.

(** [Math.max(x, y)]: NaN is contagious. *)
Definition max (x y : number) : number :=
  match x, y with
  | NaN, _ | _, NaN => NaN
  | PosInf, _ | _, PosInf => PosInf
  | NegInf, z | z, NegInf => z
  | Fin a, Fin b => if bool_decide (a ≤ b)%Qc then Fin b else Fin a
  end.

(** [Math.floor(x)]: the infinities and NaN are fixed points. *)
Definition floor (x : number) : number :=
  match x with
  | Fin a => Fin (Qc_of_Z (Qfloor a))
  | other => other
  end.

(** [a < b] when the operands are read from optional properties: a missing
    property is [undefined], which converts to NaN. *)
Definition to_number (x : option number) : number :=
  match x with Some n => n | None => NaN end.

Definition lt_prop (x y : option number) : bool :=
  lt (to_number x) (to_number y).

(** White space removed by [String.prototype.trim], restricted to the
    ASCII range of the model's strings: TAB, LF, VT, FF, CR and SPACE. *)
Definition is_white (c : Ascii.ascii) : bool :=
  let n := Ascii.nat_of_ascii c in
  ((9 <=? n) && (n <=? 13)) || (n =? 32).

Fixpoint trim_start (s : string) : string :=
  match s with
  | EmptyString => EmptyString
  | String c rest => if is_white c then trim_start rest else s
  end.

Definition trim (s : string) : string :=
  String.rev (trim_start (String.rev (trim_start s))).

(** Truthiness of a string-valued optional property: [undefined] and the
    empty string are falsy. *)
Definition truthy (s : option string) : bool :=
  match s with
  | None => false
  | Some s => negb (String.length s =? 0)
  end.

(** [x || d] for an optional string. *)
Definition or_else (s : option string) (d : string) : string :=
  match s with
  | Some v => if String.length v =? 0 then d else v
  | None => d
  end.

(** A number is a non-negative integer. *)
Definition nonneg_integer (x : number) : Prop :=
  ∃ z : Z, (0 ≤ z)%Z ∧ x = of_Z z.

(** A number is finite and strictly positive. *)
Definition positive (x : number) : Prop :=
  ∃ q : Qc, x = Fin q ∧ (0 < q)%Qc.

End Js.

(** ** Raw history items and transmitted records *)

(** The [HistoryItem] objects delivered by [chrome.history.search]: every
    property the worker reads is optional. *)
Record HistoryItem : Type := mkItem {
  url : option string;
  title : option string;
  lastVisitTime : option Js.number;
  visitCount : option Js.number
}.

(** The record built for the backend. *)
Record Entry : Type := mkEntry {
  e_url : string;
  e_title : string;
  visit_count : Js.number;
  last_visit_time : Js.number
}.

(** The callback of [historyItems.map] in [chatWithBackend]; [None] is the
    [null] that the following [filter] removes.  [Number(x)] is the identity
    on the numbers held by the item; the skipped-entry counters only feed the
    console and are left out. *)
Definition convertItem (item : HistoryItem) : option Entry :=
  let visitCount :=
    match visitCount item with
    | Some count =>
        if Js.isNaN count then Js.zero
        else Js.floor (Js.max Js.zero count)
    | None => Js.zero
    end in
  match lastVisitTime item with
  | Some time =>
      if Js.isNaN time || negb (Js.isFinite time) || Js.le time Js.zero
      then None
      else
        match url item with
        | Some u =>
            if (String.length u =? 0) || (String.length (Js.trim u) =? 0)
            then None
            else Some {| e_url := u;
                         e_title := Js.or_else (title item) "";
                         visit_count := visitCount;
                         last_visit_time := time |}
        | None => None
        end
  | None => None
  end.

(** [historyItems.map(...).filter(entry => entry !== null)]. *)
Definition prepareHistory (historyItems : list HistoryItem) : list Entry :=
  omap convertItem historyItems.

(** ** Batches *)

Record Batch : Type := mkBatch {
  history : list Entry;
  batchNumber : nat;
  totalBatches : nat
}.

Definition BATCH_SIZE : nat := 500.

(** [Math.ceil(n / d)] for non-negative integers. *)
Definition ceil_div (n d : nat) : nat := (n + d - 1) / d.

(** [l.slice(i, j)]. *)
Definition slice {A} (i j : nat) (l : list A) : list A :=
  take (j - i) (drop i l).

(** The loop [for (let i = 0; i < history.length; i += BATCH_SIZE)].  Every
    round advances [i] by [BATCH_SIZE], so [history.length] rounds are more
    than the loop can take; [rounds] counts them down. *)
Fixpoint batchLoop (rounds : nat) (hist : list Entry) (total : nat)
    (i : nat) (batchesToSend : list Batch) : list Batch :=
  match rounds with
  | 0 => batchesToSend
  | S rounds' =>
      if i <? length hist then
        let batch := slice i (i + BATCH_SIZE) hist in
        let number := i / BATCH_SIZE + 1 in
        batchLoop rounds' hist total (i + BATCH_SIZE)
          (batchesToSend ++ [mkBatch batch number total])
      else batchesToSend
  end.

Definition prepareBatches (hist : list Entry) : list Batch :=
  if 0 <? length hist then
    let total := ceil_div (length hist) BATCH_SIZE in
    batchLoop (length hist) hist total 0 []
  else [].

(** ** One WebSocket session of [chatWithBackend]

    The body of the promise creates the socket, the mutable flags and
    counters, the five-minute timer and the handlers [onopen], [onmessage],
    [onerror] and [onclose].  A session is the record of those variables
    together with what the browser holds for it: the socket's [readyState],
    the callbacks installed with [setTimeout] that have not run yet, and the
    state of the returned promise.  Each handler is a function from the
    session to the new session and the calls it made, in order. *)

Module Session.

Inductive ReadyState : Type := CONNECTING | OPEN | CLOSING | CLOSED.

Definition is_open (r : ReadyState) : bool :=
  match r with OPEN => true | _ => false end.

(** The payload of a message event.  [Malformed] is a text on which
    [JSON.parse] throws (or yields [null], on which reading [data.type]
    throws): the [catch] of [onmessage] logs it.  Otherwise the handler
    reads the properties [type], [reply] and [error]. *)
Record Data : Type := mkData {
  d_type : option string;
  d_reply : option string;
  d_error : option string
}.

Inductive Payload : Type :=
| Malformed
| Parsed (data : Data).

Inductive Failure : Type :=
| ConnectionTimeout        (* 'WebSocket connection timeout' *)
| NotReadyForBatches       (* 'WebSocket connection not ready for sending batches' *)
| NotReady                 (* 'WebSocket not ready (state: ...)' *)
| BackendError (e : string)
| ConnectionError          (* 'WebSocket connection error' *)
| ClosedBeforeResponse.    (* 'WebSocket closed before receiving response' *)

Inductive Outcome : Type :=
| Resolved (reply : string)
| Rejected (f : Failure).

(** What the client writes on the socket. *)
Inductive ClientMsg : Type :=
| HistoryBatch (b : Batch)
| HistoryUploadComplete
| Chat.

(** Calls made by a handler: [ws.send] that did not throw, [ws.close], and
    the promise's [resolve] and [reject]. *)
Inductive Action : Type :=
| Send (m : ClientMsg)
| Close
| Settle (o : Outcome).

Inductive Event : Type :=
| EvOpen                       (* the socket opened: [onopen] *)
| EvMessage (p : Payload)      (* [onmessage] *)
| EvError                      (* [onerror] *)
| EvClose                      (* the socket closed: [onclose] *)
| EvTimeout                    (* the 300000 ms timer *)
| EvGraceTimer                 (* the 1000 ms timer set by [onopen] *)
| EvNextBatchTimer             (* a 10 ms timer set on a batch acknowledgment *)
| EvRetryTimer.                (* a 100 ms timer set by [sendNextBatch] *)

Record Session : Type := mkSession {
  readyState : ReadyState;
  isResolved : bool;
  isConnected : bool;
  batchesToSend : list Batch;
  currentBatchIndex : nat;
  totalBatchesAcknowledged : nat;
  historyUploadCompleteSent : bool;
  historyUploadCompleteAcknowledged : bool;
  chatMessageSent : bool;
  timeoutArmed : bool;         (* the five-minute timer is pending *)
  graceTimers : nat;           (* pending 1000 ms callbacks *)
  nextBatchTimers : nat;       (* pending 10 ms callbacks *)
  retryTimers : nat;           (* pending 100 ms callbacks *)
  promise : option Outcome     (* [None]: still pending *)
}.

(** The variables as [chatWithBackend] initialises them; the five-minute
    timer is set before any handler is installed. *)
Definition init (batches : list Batch) : Session :=
  {| readyState := CONNECTING; isResolved := false; isConnected := false;
     batchesToSend := batches; currentBatchIndex := 0;
     totalBatchesAcknowledged := 0; historyUploadCompleteSent := false;
     historyUploadCompleteAcknowledged := false; chatMessageSent := false;
     timeoutArmed := true; graceTimers := 0; nextBatchTimers := 0;
     retryTimers := 0; promise := None |}.

(** *** Assignments *)

Definition set_readyState (v : ReadyState) (s : Session) : Session :=
  mkSession v (isResolved s) (isConnected s) (batchesToSend s)
    (currentBatchIndex s) (totalBatchesAcknowledged s)
    (historyUploadCompleteSent s) (historyUploadCompleteAcknowledged s)
    (chatMessageSent s) (timeoutArmed s) (graceTimers s) (nextBatchTimers s)
    (retryTimers s) (promise s).

Definition set_isResolved (v : bool) (s : Session) : Session :=
  mkSession (readyState s) v (isConnected s) (batchesToSend s)
    (currentBatchIndex s) (totalBatchesAcknowledged s)
    (historyUploadCompleteSent s) (historyUploadCompleteAcknowledged s)
    (chatMessageSent s) (timeoutArmed s) (graceTimers s) (nextBatchTimers s)
    (retryTimers s) (promise s).

Definition set_isConnected (v : bool) (s : Session) : Session :=
  mkSession (readyState s) (isResolved s) v (batchesToSend s)
    (currentBatchIndex s) (totalBatchesAcknowledged s)
    (historyUploadCompleteSent s) (historyUploadCompleteAcknowledged s)
    (chatMessageSent s) (timeoutArmed s) (graceTimers s) (nextBatchTimers s)
    (retryTimers s) (promise s).

Definition set_currentBatchIndex (v : nat) (s : Session) : Session :=
  mkSession (readyState s) (isResolved s) (isConnected s) (batchesToSend s)
    v (totalBatchesAcknowledged s)
    (historyUploadCompleteSent s) (historyUploadCompleteAcknowledged s)
    (chatMessageSent s) (timeoutArmed s) (graceTimers s) (nextBatchTimers s)
    (retryTimers s) (promise s).

Definition set_totalBatchesAcknowledged (v : nat) (s : Session) : Session :=
  mkSession (readyState s) (isResolved s) (isConnected s) (batchesToSend s)
    (currentBatchIndex s) v
    (historyUploadCompleteSent s) (historyUploadCompleteAcknowledged s)
    (chatMessageSent s) (timeoutArmed s) (graceTimers s) (nextBatchTimers s)
    (retryTimers s) (promise s).

Definition set_historyUploadCompleteSent (v : bool) (s : Session) : Session :=
  mkSession (readyState s) (isResolved s) (isConnected s) (batchesToSend s)
    (currentBatchIndex s) (totalBatchesAcknowledged s)
    v (historyUploadCompleteAcknowledged s)
    (chatMessageSent s) (timeoutArmed s) (graceTimers s) (nextBatchTimers s)
    (retryTimers s) (promise s).

Definition set_historyUploadCompleteAcknowledged (v : bool) (s : Session)
    : Session :=
  mkSession (readyState s) (isResolved s) (isConnected s) (batchesToSend s)
    (currentBatchIndex s) (totalBatchesAcknowledged s)
    (historyUploadCompleteSent s) v
    (chatMessageSent s) (timeoutArmed s) (graceTimers s) (nextBatchTimers s)
    (retryTimers s) (promise s).

Definition set_chatMessageSent (v : bool) (s : Session) : Session :=
  mkSession (readyState s) (isResolved s) (isConnected s) (batchesToSend s)
    (currentBatchIndex s) (totalBatchesAcknowledged s)
    (historyUploadCompleteSent s) (historyUploadCompleteAcknowledged s)
    v (timeoutArmed s) (graceTimers s) (nextBatchTimers s)
    (retryTimers s) (promise s).

Definition set_timeoutArmed (v : bool) (s : Session) : Session :=
  mkSession (readyState s) (isResolved s) (isConnected s) (batchesToSend s)
    (currentBatchIndex s) (totalBatchesAcknowledged s)
    (historyUploadCompleteSent s) (historyUploadCompleteAcknowledged s)
    (chatMessageSent s) v (graceTimers s) (nextBatchTimers s)
    (retryTimers s) (promise s).

Definition set_graceTimers (v : nat) (s : Session) : Session :=
  mkSession (readyState s) (isResolved s) (isConnected s) (batchesToSend s)
    (currentBatchIndex s) (totalBatchesAcknowledged s)
    (historyUploadCompleteSent s) (historyUploadCompleteAcknowledged s)
    (chatMessageSent s) (timeoutArmed s) v (nextBatchTimers s)
    (retryTimers s) (promise s).

Definition set_nextBatchTimers (v : nat) (s : Session) : Session :=
  mkSession (readyState s) (isResolved s) (isConnected s) (batchesToSend s)
    (currentBatchIndex s) (totalBatchesAcknowledged s)
    (historyUploadCompleteSent s) (historyUploadCompleteAcknowledged s)
    (chatMessageSent s) (timeoutArmed s) (graceTimers s) v
    (retryTimers s) (promise s).

Definition set_retryTimers (v : nat) (s : Session) : Session :=
  mkSession (readyState s) (isResolved s) (isConnected s) (batchesToSend s)
    (currentBatchIndex s) (totalBatchesAcknowledged s)
    (historyUploadCompleteSent s) (historyUploadCompleteAcknowledged s)
    (chatMessageSent s) (timeoutArmed s) (graceTimers s) (nextBatchTimers s)
    v (promise s).

Definition set_promise (v : option Outcome) (s : Session) : Session :=
  mkSession (readyState s) (isResolved s) (isConnected s) (batchesToSend s)
    (currentBatchIndex s) (totalBatchesAcknowledged s)
    (historyUploadCompleteSent s) (historyUploadCompleteAcknowledged s)
    (chatMessageSent s) (timeoutArmed s) (graceTimers s) (nextBatchTimers s)
    (retryTimers s) v.

(** *** Handlers as state transformers that record their calls *)

Definition Handler : Type := Session → Session * list Action.

Definition skip : Handler := λ s, (s, []).

Definition andThen (f g : Handler) : Handler := λ s,
  let '(s1, a1) := f s in
  let '(s2, a2) := g s1 in
  (s2, a1 ++ a2).

Definition assign (f : Session → Session) : Handler := λ s, (f s, []).

Definition branch (c : Session → bool) (f g : Handler) : Handler := λ s,
  if c s then f s else g s.

Declare Scope handler_scope.
Delimit Scope handler_scope with handler.
Notation "f ;; g" := (andThen f g)
  (at level 100, g at level 200, right associativity) : handler_scope.
Notation "'When' c 'Then' f 'Else' g" := (branch c f g)
  (at level 10, c at level 9, f at level 200, g at level 200)
  : handler_scope.
Local Open Scope handler_scope.

(** [ws.send(m)]: throws while the socket is still connecting, and the
    exception is caught by the [try] of [onmessage], which only logs; once
    the socket is closing or closed the browser drops the data silently.
    Every call that does not throw is recorded. *)
Definition ws_send (m : ClientMsg) : Handler := λ s,
  match readyState s with
  | CONNECTING => (s, [])
  | _ => (s, [Send m])
  end.

(** [ws.close()]. *)
Definition ws_close : Handler := λ s,
  match readyState s with
  | CONNECTING | OPEN => (set_readyState CLOSING s, [Close])
  | _ => (s, [Close])
  end.

(** [resolve] and [reject] of the promise: a promise keeps its first
    settlement, later calls change nothing. *)
Definition settle (o : Outcome) : Handler := λ s,
  (set_promise (match promise s with None => Some o | Some v => Some v end) s,
   [Settle o]).

Definition clearTimeout : Handler := assign (set_timeoutArmed false).

(** *** The handlers *)

Definition sendNextBatch : Handler := λ s,
  if length (batchesToSend s) <=? currentBatchIndex s then (s, [])
  else if negb (is_open (readyState s)) then
    (set_retryTimers (S (retryTimers s)) s, [])
  else
    match batchesToSend s !! currentBatchIndex s with
    | Some batch =>
        (ws_send (HistoryBatch batch) ;;
         assign (λ s, set_currentBatchIndex (S (currentBatchIndex s)) s)) s
    | None => (s, [])
    end.

(** The callback of the 100 ms retry timer. *)
Definition retryCallback : Handler :=
  When (λ s, is_open (readyState s)) Then sendNextBatch
  Else settle (Rejected NotReadyForBatches).

(** The callback of the five-minute timer. *)
Definition timeoutCallback : Handler :=
  When (λ s, negb (isResolved s))
  Then (ws_close ;; settle (Rejected ConnectionTimeout))
  Else skip.

(** [ws.onopen]. *)
Definition onopen : Handler :=
  assign (λ s, set_graceTimers (S (graceTimers s)) s).

(** The callback of the 1000 ms timer set by [onopen]. *)
Definition graceCallback : Handler :=
  When (λ s, negb (isConnected s)
             && (0 <? length (batchesToSend s))
             && (currentBatchIndex s =? 0))
  Then (assign (set_isConnected true) ;; sendNextBatch)
  Else skip.

Definition onConnected : Handler :=
  assign (set_isConnected true) ;;
  When (λ s, 0 <? length (batchesToSend s))
  Then (When (λ s, is_open (readyState s)) Then sendNextBatch
        Else settle (Rejected NotReady))
  Else (When (λ s, negb (historyUploadCompleteSent s))
        Then (assign (set_historyUploadCompleteSent true) ;;
              When (λ s, is_open (readyState s))
              Then ws_send HistoryUploadComplete
              Else settle (Rejected NotReady))
        Else skip).

Definition onBatchAck : Handler := λ s0,
  let s := set_totalBatchesAcknowledged (S (totalBatchesAcknowledged s0)) s0 in
  let allBatchesSent :=
    length (batchesToSend s) <=? currentBatchIndex s in
  let allBatchesAcknowledged :=
    length (batchesToSend s) <=? totalBatchesAcknowledged s in
  ((if negb allBatchesSent
    then assign (λ s, set_nextBatchTimers (S (nextBatchTimers s)) s)
    else skip) ;;
   When (λ s, allBatchesSent && allBatchesAcknowledged
              && negb (historyUploadCompleteSent s))
   Then (assign (set_historyUploadCompleteSent true) ;;
         ws_send HistoryUploadComplete)
   Else skip) s.

Definition onUploadCompleteAck : Handler :=
  assign (set_historyUploadCompleteAcknowledged true) ;;
  When (λ s, negb (chatMessageSent s))
  Then (assign (set_chatMessageSent true) ;; ws_send Chat)
  Else skip.

Definition onReply (reply : string) : Handler :=
  clearTimeout ;; ws_close ;;
  When (λ s, negb (isResolved s))
  Then (assign (set_isResolved true) ;; settle (Resolved reply))
  Else skip.

Definition onErrorMessage (e : string) : Handler :=
  clearTimeout ;; ws_close ;;
  When (λ s, negb (isResolved s))
  Then (assign (set_isResolved true) ;; settle (Rejected (BackendError e)))
  Else skip.

Definition type_is (data : Data) (t : string) : bool :=
  bool_decide (d_type data = Some t).

(** [ws.onmessage]: the chain of tests on [data.type], then on the
    truthiness of [data.reply] and [data.error]. *)
Definition onmessage (p : Payload) : Handler :=
  match p with
  | Malformed => skip
  | Parsed data =>
      if type_is data "connected" then onConnected
      else if type_is data "history_batch_ack" then onBatchAck
      else if type_is data "history_upload_complete_ack"
      then onUploadCompleteAck
      else if type_is data "chat_queued" then skip
      else if Js.truthy (d_reply data)
      then onReply (default "" (d_reply data))
      else if Js.truthy (d_error data)
      then onErrorMessage (default "" (d_error data))
      else skip
  end.

(** [ws.onerror]. *)
Definition onerror : Handler :=
  clearTimeout ;;
  When (λ s, negb (isResolved s))
  Then (assign (set_isResolved true) ;; settle (Rejected ConnectionError))
  Else skip.

(** [ws.onclose]. *)
Definition onclose : Handler :=
  clearTimeout ;;
  When (λ s, negb (isResolved s))
  Then (assign (set_isResolved true) ;;
        settle (Rejected ClosedBeforeResponse))
  Else skip.

(** *** The event loop

    The browser fires [open] once, while the socket is connecting, and
    [close] once; a timer callback runs only if it was set and, for the
    five-minute timer, not cleared.  An event that cannot occur in the
    current state leaves it unchanged.  Message and error events are
    handled in every state. *)
Definition step (e : Event) : Handler := λ s,
  match e with
  | EvOpen =>
      match readyState s with
      | CONNECTING => (assign (set_readyState OPEN) ;; onopen) s
      | _ => (s, [])
      end
  | EvMessage p => onmessage p s
  | EvError => onerror s
  | EvClose =>
      match readyState s with
      | CLOSED => (s, [])
      | _ => (assign (set_readyState CLOSED) ;; onclose) s
      end
  | EvTimeout =>
      if timeoutArmed s
      then (assign (set_timeoutArmed false) ;; timeoutCallback) s
      else (s, [])
  | EvGraceTimer =>
      match graceTimers s with
      | S n => (assign (set_graceTimers n) ;; graceCallback) s
      | 0 => (s, [])
      end
  | EvNextBatchTimer =>
      match nextBatchTimers s with
      | S n => (assign (set_nextBatchTimers n) ;; sendNextBatch) s
      | 0 => (s, [])
      end
  | EvRetryTimer =>
      match retryTimers s with
      | S n => (assign (set_retryTimers n) ;; retryCallback) s
      | 0 => (s, [])
      end
  end.

(** The history of a session: every event, followed by the calls its
    handler made. *)
Inductive LogItem : Type :=
| Occurred (e : Event)
| Performed (a : Action).

Fixpoint run (s : Session) (events : list Event) : Session * list LogItem :=
  match events with
  | [] => (s, [])
  | e :: rest =>
      let '(s1, acts) := step e s in
      let '(s2, log) := run s1 rest in
      (s2, Occurred e :: (Performed <$> acts) ++ log)
  end.

(** The messages the server sends, as payloads. *)
Definition typed (t : string) : Payload :=
  Parsed (mkData (Some t) None None).
Definition connected : Payload := typed "connected".
Definition history_batch_ack : Payload := typed "history_batch_ack".
Definition history_upload_complete_ack : Payload :=
  typed "history_upload_complete_ack".
Definition chat_queued : Payload := typed "chat_queued".
Definition reply_message (r : string) : Payload :=
  Parsed (mkData (Some "reply") (Some r) None).
Definition error_message (e : string) : Payload :=
  Parsed (mkData (Some "error") None (Some e)).

(** Observations on a log. *)
Definition is_batch_send (i : LogItem) : option Batch :=
  match i with
  | Performed (Send (HistoryBatch b)) => Some b
  | _ => None
  end.

Definition batches_sent (log : list LogItem) : list Batch :=
  omap is_batch_send log.

Definition is_batch_ack (i : LogItem) : bool :=
  match i with
  | Occurred (EvMessage (Parsed data)) =>
      type_is data "history_batch_ack"
  | _ => false
  end.

Definition acks_received (log : list LogItem) : nat :=
  length (filter (λ i, is_batch_ack i = true) log).

Definition is_upload_complete_ack (i : LogItem) : bool :=
  match i with
  | Occurred (EvMessage (Parsed data)) =>
      type_is data "history_upload_complete_ack"
  | _ => false
  end.

End Session.

(** ** The paginated enumeration [fetchHistory] *)

Module Enumerator.

(** The object passed to [chrome.history.search]. *)
Record Query : Type := mkQuery {
  q_text : string;
  q_startTime : option Z;
  q_endTime : option Z;
  q_maxResults : Z
}.

(** The argument of [fetchHistory]. *)
Record Params : Type := mkParams {
  p_text : option string;
  p_startTime : option Z;
  p_endTime : option Z;
  p_maxResults : option Z
}.

(** The time values of a [Date] are the integers from -8.64e15 to 8.64e15
    (milliseconds from the epoch); on any other number
    [new Date(t).toISOString()] throws a [RangeError]. *)
Definition MAX_TIME_VALUE : Z := 8640000000000000.

Definition invalidDate (t : Z) : bool := (MAX_TIME_VALUE <? Z.abs t)%Z.

(** [Date.now()] returns a time value.  The clock of the model holds any
    integer and is read through [timeValue], which leaves a time value as
    it is. *)
Definition timeValue (t : Z) : Z :=
  Z.max (- MAX_TIME_VALUE) (Z.min MAX_TIME_VALUE t).

(** What [fetchHistory] reads from its surroundings: whether
    [chrome.history] exists, the clock at the two calls of [Date.now()]
    (the default of [endTime], then [now]) and the stored preference. *)
Record Env : Type := mkEnv {
  historyAvailable : bool;
  clockAtCall : Z;
  clock : Z;
  historyRangeDays : Z
}.

Definition nowAtCall (env : Env) : Z := timeValue (clockAtCall env).
Definition now (env : Env) : Z := timeValue (clock env).

Inductive FetchResult : Type :=
| Raised                                   (* the promise is rejected *)
| Returned (historyItems : list HistoryItem).

Definition CHROME_API_LIMIT : Z := 10000.

(** [!searchText || searchText.trim().length === 0]. *)
Definition blank (searchText : string) : bool :=
  (String.length searchText =? 0) || (String.length (Js.trim searchText) =? 0).

(** [items.findIndex(h => h.url === u)]. *)
Fixpoint findIndex (u : option string) (items : list HistoryItem)
    : option nat :=
  match items with
  | [] => None
  | h :: rest =>
      if bool_decide (url h = u) then Some 0
      else S <$> findIndex u rest
  end.

(** One round of [for (const item of batchItems)]: the array
    [allHistoryItems] and the map [urlMap], keyed by [item.url]. *)
Definition mergeItem
    (acc : list HistoryItem * gmap (option string) HistoryItem)
    (item : HistoryItem)
    : list HistoryItem * gmap (option string) HistoryItem :=
  let '(allHistoryItems, urlMap) := acc in
  match urlMap !! url item with
  | None => (allHistoryItems ++ [item], <[url item := item]> urlMap)
  | Some existing =>
      if Js.lt_prop (lastVisitTime existing) (lastVisitTime item) then
        (match findIndex (url item) allHistoryItems with
         | Some existingIndex => <[existingIndex := item]> allHistoryItems
         | None => allHistoryItems
         end,
         <[url item := item]> urlMap)
      else acc
  end.

Definition mergeItems
    (acc : list HistoryItem * gmap (option string) HistoryItem)
    (batchItems : list HistoryItem) :=
  foldl mergeItem acc batchItems.

Section WithSource.

(** The history source: a call answers with the items, or with
    [chrome.runtime.lastError] set ([None]), and may depend on and change
    the state [St] of the browser. *)
Context {St : Type}.
Variable search : Query → St → option (list HistoryItem) * St.

(** Computations that call the source and keep the list of the queries
    issued so far. *)
Definition M (A : Type) : Type := St * list Query → A * (St * list Query).

Definition ret {A} (a : A) : M A := λ w, (a, w).

Definition bind {A B} (m : M A) (k : A → M B) : M B := λ w,
  let '(a, w') := m w in k a w'.

Definition call (q : Query) : M (option (list HistoryItem)) := λ w,
  let '(r, σ) := search q w.1 in (r, (σ, w.2 ++ [q])).

(** The promise around one [chrome.history.search]: [None] is a
    rejection.  An empty answer to a blank text is retried once with the
    fallback query, whose failure yields the empty list. *)
Definition searchWithFallback (searchText : string)
    (searchQuery fallbackQuery : Query) : M (option (list HistoryItem)) :=
  bind (call searchQuery) (λ r,
    match r with
    | None => ret None
    | Some historyItems =>
        if (length historyItems =? 0) && blank searchText then
          bind (call fallbackQuery) (λ r',
            match r' with
            | None => ret (Some [])
            | Some fallbackItems => ret (Some fallbackItems)
            end)
        else ret (Some historyItems)
    end).

Section Loop.

Variables (searchText : string) (shouldUseDateRange : bool)
  (calculatedStartTime calculatedEndTime : Z)
  (targetMaxResults numBatches timeChunkSize : Z).

Definition batchStartTime (i : Z) : Z :=
  (calculatedStartTime + i * timeChunkSize)%Z.

Definition batchEndTime (i : Z) : Z :=
  if (i =? numBatches - 1)%Z then calculatedEndTime
  else (calculatedStartTime + (i + 1) * timeChunkSize)%Z.

Definition batchMaxResults (allHistoryItems : list HistoryItem) : Z :=
  Z.min CHROME_API_LIMIT
    (targetMaxResults - Z.of_nat (length allHistoryItems)).

Definition batchQuery (i : Z) (all : list HistoryItem) : Query :=
  if shouldUseDateRange
  then mkQuery searchText (Some (batchStartTime i))
         (Some (batchEndTime i)) (batchMaxResults all)
  else mkQuery searchText None None (batchMaxResults all).

Definition batchFallbackQuery (i : Z) (all : list HistoryItem) : Query :=
  if shouldUseDateRange
  then mkQuery " " (Some (batchStartTime i))
         (Some (batchEndTime i)) (batchMaxResults all)
  else mkQuery " " None None (batchMaxResults all).

(** The loop
    [for (i = 0; i < numBatches && allHistoryItems.length < targetMaxResults; i++)];
    [remaining] is [numBatches - i].  Each [ret] is an exit: the
    loop condition, the [break] on an empty sub-window, the [break] of
    the [catch], and the [break] on a short answer. *)
Fixpoint fetchLoop (remaining : nat) (i : Z)
    (allHistoryItems : list HistoryItem)
    (urlMap : gmap (option string) HistoryItem)
    : M (list HistoryItem) :=
  match remaining with
  | 0 => ret allHistoryItems
  | S remaining' =>
      if negb (Z.of_nat (length allHistoryItems) <? targetMaxResults)%Z
      then ret allHistoryItems
      else if shouldUseDateRange
              && (batchEndTime i <=? batchStartTime i)%Z
      then ret allHistoryItems
      else
        bind (searchWithFallback searchText
                (batchQuery i allHistoryItems)
                (batchFallbackQuery i allHistoryItems)) (λ r,
          match r with
          | None => ret allHistoryItems
          | Some batchItems =>
              let merged :=
                mergeItems (allHistoryItems, urlMap) batchItems in
              if (Z.of_nat (length batchItems)
                    <? batchMaxResults allHistoryItems)%Z
                 && (Z.of_nat (length batchItems) <? 5000)%Z
              then ret merged.1
              else fetchLoop remaining' (i + 1)%Z merged.1 merged.2
          end)
  end.

End Loop.

(** [Math.ceil(targetMaxResults / CHROME_API_LIMIT)]. *)
Definition numBatchesFor (targetMaxResults : Z) : Z :=
  ((targetMaxResults + CHROME_API_LIMIT - 1) / CHROME_API_LIMIT)%Z.

(** [maxResults || 100000]. *)
Definition targetFor (maxResults : option Z) : Z :=
  match maxResults with
  | Some m => if (m =? 0)%Z then 100000%Z else m
  | None => 100000%Z
  end.

(** The time range and whether it restricts the queries.  [endTime] has
    a default, so the test [startTime !== undefined && endTime !==
    undefined] succeeds exactly when [startTime] is given and the branch
    for a start time alone is never taken. *)
Definition timeRange (env : Env) (params : Params) (searchText : string)
    : Z * Z * bool :=
  let endTime := default (nowAtCall env) (p_endTime params) in
  match p_startTime params with
  | Some startTime => (startTime, endTime, true)
  | None =>
      if negb (String.length searchText =? 0)
         && (0 <? String.length (Js.trim searchText))
      then ((now env - historyRangeDays env * 24 * 60 * 60 * 1000)%Z,
            endTime, true)
      else (0%Z, now env, false)
  end.

(** The log lines that format [dates] with [new Date(t).toISOString()]:
    on a date that is not a time value the [RangeError] rejects the promise
    of [fetchHistory]. *)
Definition logDates (dates : list Z) (k : M FetchResult) : M FetchResult :=
  if existsb invalidDate dates then ret Raised else k.

(** [fetchHistory].  The dates are logged when the range is refused and
    before the first call.  The later log lines format the same two dates
    (in the promise of the single call) or the bounds of a sub-window, which
    lie between them (lemma [batch_dates_valid]): they cannot throw and are
    left out. *)
Definition fetchHistory (env : Env) (params : Params) : M FetchResult :=
  if negb (historyAvailable env) then ret (Returned [])
  else
    let searchText := default "" (p_text params) in
    let '(calculatedStartTime, calculatedEndTime, shouldUseDateRange) :=
      timeRange env params searchText in
    if shouldUseDateRange && (calculatedEndTime <=? calculatedStartTime)%Z
    then logDates [calculatedStartTime; calculatedEndTime]
           (ret (Returned []))
    else if shouldUseDateRange && (now env <? calculatedStartTime)%Z
    then logDates [calculatedStartTime; now env] (ret (Returned []))
    else
      logDates [calculatedStartTime; calculatedEndTime]
      (let targetMaxResults := targetFor (p_maxResults params) in
       if (targetMaxResults <=? CHROME_API_LIMIT)%Z then
         let searchQuery :=
           mkQuery searchText (Some calculatedStartTime)
             (Some calculatedEndTime) targetMaxResults in
         let fallbackQuery :=
           if shouldUseDateRange
           then mkQuery " " (Some calculatedStartTime)
                  (Some calculatedEndTime) targetMaxResults
           else mkQuery " " None None targetMaxResults in
         bind (searchWithFallback searchText searchQuery fallbackQuery)
           (λ r, match r with
                 | None => ret Raised
                 | Some historyItems => ret (Returned historyItems)
                 end)
       else
         let numBatches := numBatchesFor targetMaxResults in
         let timeChunkSize :=
           ((calculatedEndTime - calculatedStartTime) / numBatches)%Z in
         bind (fetchLoop searchText shouldUseDateRange calculatedStartTime
                 calculatedEndTime targetMaxResults numBatches
                 timeChunkSize (Z.to_nat numBatches) 0%Z [] ∅)
           (λ allHistoryItems,
              ret (Returned
                     (take (Z.to_nat targetMaxResults) allHistoryItems)))).

(** Running an enumeration from a source state with an empty query log:
    the result and the queries issued, in order. *)
Definition enumerate (env : Env) (params : Params) (σ : St)
    : FetchResult * list Query :=
  let '(r, (_, queries)) := fetchHistory env params (σ, []) in
  (r, queries).

End WithSource.

End Enumerator.

Import Session.
Import Enumerator.

(** ** The raw items handed to the normalisation

    [chatWithBackend] calls [fetchHistory] inside a [try]: when it raises,
    the list of raw items is empty. *)
Definition rawItems (r : FetchResult) : list HistoryItem :=
  match r with
  | Returned historyItems => historyItems
  | Raised => []
  end.

(** ** Stored settings and the functions of the worker that read them

    [chrome.storage.local] as the pages of the extension write it: the key
    [openai_api_key] holds a string, [user_preferences] an object with two
    integer properties, and [chat_history] the list of the messages of the
    conversation.  A key that was never set, or was removed, is [None]. *)

Record ChatMessage : Type := mkChatMessage {
  role : string;
  content : string
}.

Record StoredPreferences : Type := mkStoredPreferences {
  stored_historyRangeDays : option Z;
  stored_maxResults : option Z
}.

Record Storage : Type := mkStorage {
  openai_api_key : option string;
  user_preferences : option StoredPreferences;
  chat_history : option (list ChatMessage)
}.

Definition set_openai_api_key (v : option string) (st : Storage) : Storage :=
  mkStorage v (user_preferences st) (chat_history st).

Definition set_user_preferences (v : option StoredPreferences) (st : Storage)
    : Storage :=
  mkStorage (openai_api_key st) v (chat_history st).

Definition set_chat_history (v : option (list ChatMessage)) (st : Storage)
    : Storage :=
  mkStorage (openai_api_key st) (user_preferences st) v.

Module Worker.

(** [x || d] for an optional integer: [undefined] and [0] are falsy. *)
Definition or_default (x : option Z) (d : Z) : Z :=
  match x with
  | Some v => if (v =? 0)%Z then d else v
  | None => d
  end.

Record Preferences : Type := mkPreferences {
  pref_historyRangeDays : Z;
  pref_maxResults : Z
}.

(** [getUserPreferences]; [result.user_preferences || {}] is the object
    without properties when nothing is stored. *)
Definition getUserPreferences (st : Storage) : Preferences :=
  let prefs :=
    default (mkStoredPreferences None None) (user_preferences st) in
  mkPreferences (or_default (stored_historyRangeDays prefs) 365)
    (or_default (stored_maxResults prefs) 100000).

(** [checkApiKey]: [!!(key && key.length > 0)]. *)
Definition checkApiKey (st : Storage) : bool :=
  match openai_api_key st with
  | Some key => 0 <? String.length key
  | None => false
  end.

(** What [fetchHistory] finds around it when the worker runs it: whether
    [chrome.history] exists, the clock, and the preference it loads with
    [getUserPreferences]. *)
Definition envOf (available : bool) (clock : Z * Z) (st : Storage) : Env :=
  mkEnv available clock.1 clock.2
    (pref_historyRangeDays (getUserPreferences st)).

(** [!message || typeof message !== 'string' || message.trim().length === 0]
    for a message that is a string, or is missing or not a string
    ([None]). *)
Definition noMessage (message : option string) : bool :=
  match message with
  | Some m => (String.length m =? 0) || (String.length (Js.trim m) =? 0)
  | None => true
  end.

(** The argument of [chatWithHistory]. *)
Record ChatParams : Type := mkChatParams {
  c_message : option string;
  c_conversationMessages : option (list ChatMessage);
  c_maxResults : option Z
}.

(** [chatWithHistory] up to the call it ends with: it throws, or hands
    its arguments to [chatWithOpenAI] (with the stored key) or to
    [chatWithBackend]. *)
Inductive Routed : Type :=
| MessageRequired                     (* throws 'Message is required' *)
| ToOpenAI (message : string) (conversationMessages : list ChatMessage)
    (apiKey : string) (maxResults : option Z)
| ToBackend (message : string) (conversationMessages : list ChatMessage)
    (maxResults : option Z).

Definition chatWithHistory (st : Storage) (params : ChatParams) : Routed :=
  let conversationMessages := default [] (c_conversationMessages params) in
  if noMessage (c_message params) then MessageRequired
  else
    let message := default "" (c_message params) in
    match openai_api_key st with
    | Some key =>
        if 0 <? String.length key
        then ToOpenAI message conversationMessages key (c_maxResults params)
        else ToBackend message conversationMessages (c_maxResults params)
    | None => ToBackend message conversationMessages (c_maxResults params)
    end.

(** The argument of [queryHistory]. *)
Record QueryParams : Type := mkQueryParams {
  qp_startTime : option Z;
  qp_endTime : option Z;
  qp_maxResults : option Z
}.

(** [Math.min(maxResultsOverride || preferredMaxResults, 100000)] in
    [chatWithBackend] and [chatWithOpenAI]. *)
Definition cappedMaxResults (st : Storage) (maxResultsOverride : option Z) : Z :=
  let preferences := getUserPreferences st in
  let preferredMaxResults :=
    or_default (Some (pref_maxResults preferences)) 100000 in
  Z.min (or_default maxResultsOverride preferredMaxResults) 100000.

Section WithSource.

Context {St : Type}.
Variable search : Query → St → option (list HistoryItem) * St.
Variables (available : bool) (clock : Z * Z).

(** The history that [chatWithBackend] prepares: [fetchHistory] is called
    with [maxResults] alone, inside a [try] whose [catch] takes the empty
    list. *)
Definition backendHistory (st : Storage) (maxResultsOverride : option Z)
    (σ : St) : list Entry :=
  let maxResults := cappedMaxResults st maxResultsOverride in
  let result :=
    (fetchHistory search (envOf available clock st)
       (mkParams None None None (Some maxResults)) (σ, [])).1 in
  prepareHistory (rawItems result).

(** [chatWithBackend] up to the creation of the socket: it throws ([None])
    when there is neither a message nor a conversation, and otherwise
    starts a session with the prepared batches. *)
Definition chatWithBackend (st : Storage) (message : option string)
    (conversationMessages : list ChatMessage)
    (maxResultsOverride : option Z) (σ : St) : option Session :=
  if noMessage message && (length conversationMessages =? 0) then None
  else Some (init (prepareBatches (backendHistory st maxResultsOverride σ))).

(** [x || 0] for an optional number: [undefined], [0] and [NaN] are
    falsy. *)
Definition number_or_zero (x : option Js.number) : Js.number :=
  match x with
  | Some Js.NaN | None => Js.zero
  | Some (Js.Fin q) => if bool_decide (q = Qc_of_Z 0) then Js.zero else Js.Fin q
  | Some v => v
  end.

(** Truthiness of a number. *)
Definition truthy_number (x : Js.number) : bool :=
  match x with
  | Js.NaN => false
  | Js.Fin q => negb (bool_decide (q = Qc_of_Z 0))
  | _ => true
  end.

(** The callback of [historyItems.map] in [queryHistory]; [None] is
    [null]. *)
Definition queryEntry (item : HistoryItem) : option Entry :=
  let lastVisitTime :=
    match lastVisitTime item with
    | Some t => if truthy_number t && Js.lt Js.zero t then Some t else None
    | None => None
    end in
  match lastVisitTime with
  | Some t =>
      if negb (truthy_number t) || negb (Js.truthy (url item)) then None
      else Some {| e_url := default "" (url item);
                   e_title := Js.or_else (title item) "";
                   visit_count := number_or_zero (visitCount item);
                   last_visit_time := t |}
  | None => None
  end.

(** [a - b] on numbers.  The model subtracts finite values exactly, where
    a double is rounded: only the sign of the difference is used below, and
    rounding keeps it. *)
Definition sub (a b : Js.number) : Js.number :=
  match a, b with
  | Js.NaN, _ | _, Js.NaN => Js.NaN
  | Js.PosInf, Js.PosInf | Js.NegInf, Js.NegInf => Js.NaN
  | Js.PosInf, _ | _, Js.NegInf => Js.PosInf
  | Js.NegInf, _ | _, Js.PosInf => Js.NegInf
  | Js.Fin x, Js.Fin y => Js.Fin (x - y)%Qc
  end.

(** The comparator [(a, b) => b.last_visit_time - a.last_visit_time]. *)
Definition byLastVisit (a b : Entry) : Js.number :=
  sub (last_visit_time b) (last_visit_time a).

(** [Array.prototype.sort(compareFn)].  The sort is stable, and its result
    is determined by a consistent comparator: an element moves behind those
    that followed it only where the comparator is positive.  Insertion from
    the right computes that result. *)
Fixpoint insert {A} (compareFn : A → A → Js.number) (x : A) (l : list A)
    : list A :=
  match l with
  | [] => [x]
  | y :: rest =>
      if Js.lt Js.zero (compareFn x y) then y :: insert compareFn x rest
      else x :: l
  end.

Definition sort {A} (compareFn : A → A → Js.number) (l : list A) : list A :=
  foldr (insert compareFn) [] l.

(** [queryHistory]: [None] when [fetchHistory] rejects. *)
Definition queryHistory (st : Storage) (params : QueryParams) (σ : St)
    : option (list Entry) :=
  let userMaxResults := pref_maxResults (getUserPreferences st) in
  let finalMaxResults := or_default (qp_maxResults params) userMaxResults in
  match (fetchHistory search (envOf available clock st)
           (mkParams None (qp_startTime params) (qp_endTime params)
              (Some finalMaxResults)) (σ, [])).1 with
  | Raised => None
  | Returned historyItems =>
      Some (sort byLastVisit (omap queryEntry historyItems))
  end.

End WithSource.

End Worker.

(** ** The settings page ([lib/options.js])

    [lib/popup.js] repeats [maskApiKey], [handleSavePreferences],
    [handleToggleVisibility] and the part of [loadSettings] modelled
    here. *)

Module Options.

(** [validateApiKey]. *)
Definition validateApiKey (apiKey : string) : bool :=
  if (String.length apiKey =? 0) || (String.length apiKey <? 20) then false
  else String.prefix "sk-" apiKey.

(** ['*'.repeat(n)]. *)
Fixpoint stars (n : nat) : string :=
  match n with
  | 0 => ""
  | S n' => String "*" (stars n')
  end.

(** [maskApiKey]; [Math.max(apiKey.length - 11, 3)] is at least 3, so the
    truncated subtraction of [nat] gives the same count. *)
Definition maskApiKey (apiKey : string) : string :=
  if (String.length apiKey =? 0) || (String.length apiKey <? 8) then "***"
  else
    let firstPart := String.substring 0 7 apiKey in
    let lastPart := String.substring (String.length apiKey - 4) 4 apiKey in
    firstPart +:+ stars (Nat.max (String.length apiKey - 11) 3) +:+ lastPart.

(** The input field of the key: its text and [dataset.actualValue]. *)
Record KeyField : Type := mkKeyField {
  value : string;
  actualValue : option string
}.

Inductive Status : Type :=
| PleaseEnterKey            (* 'Please enter an API key' *)
| AlreadySaved              (* 'API key already saved (no changes)' *)
| InvalidKeyFormat          (* 'Invalid API key format. ...' *)
| KeySaved                  (* 'API key saved successfully!' *)
| ErrorSavingKey            (* 'Error saving API key' *)
| KeyCleared                (* 'API key cleared' *)
| ErrorClearingKey          (* 'Error clearing API key' *)
| RangeOutOfBounds          (* 'History range must be between 1 and 10000 days' *)
| MaxResultsOutOfBounds     (* 'Max results must be between 10 and 100000' *)
| FewResultsWarning         (* 'Warning: ... results may be too few ...' *)
| PreferencesSaved          (* 'Preferences saved successfully!' *)
| ErrorSavingPreferences.   (* 'Error saving preferences' *)

(** [handleSaveApiKey].  [writable] tells whether
    [chrome.storage.local.set] succeeds; when it throws, the [catch] shows
    an error and nothing is changed. *)
Definition handleSaveApiKey (writable : bool) (field : KeyField)
    (st : Storage) : KeyField * Storage * Status :=
  let apiKey := Js.trim (value field) in
  if String.length apiKey =? 0 then (field, st, PleaseEnterKey)
  else if Js.truthy (actualValue field)
          && bool_decide (apiKey = maskApiKey (default "" (actualValue field)))
  then (field, st, AlreadySaved)
  else if negb (validateApiKey apiKey) then (field, st, InvalidKeyFormat)
  else if writable
  then (mkKeyField (maskApiKey apiKey) (Some apiKey),
        set_openai_api_key (Some apiKey) st, KeySaved)
  else (field, st, ErrorSavingKey).

(** [handleClearApiKey]; [confirmed] is the answer to the dialog. *)
Definition handleClearApiKey (confirmed writable : bool) (field : KeyField)
    (st : Storage) : KeyField * Storage * option Status :=
  if negb confirmed then (field, st, None)
  else if writable
  then (mkKeyField "" None, set_openai_api_key None st, Some KeyCleared)
  else (field, st, Some ErrorClearingKey).

(** The value of a decimal digit. *)
Definition digit (c : Ascii.ascii) : option Z :=
  let n := Ascii.nat_of_ascii c in
  if (48 <=? n) && (n <=? 57) then Some (Z.of_nat (n - 48)) else None.

(** The number written by the longest prefix of digits, after [acc]. *)
Fixpoint digits (acc : Z) (s : string) : Z :=
  match s with
  | EmptyString => acc
  | String c rest =>
      match digit c with
      | Some d => digits (10 * acc + d) rest
      | None => acc
      end
  end.

(** [parseInt(s, 10)]: leading white space is skipped, a sign is read,
    then the longest prefix of digits; [None] is [NaN], the result when
    there is no digit.  Beyond 2^53 a double is the nearest representable
    value, which compares with the bounds below as the exact integer
    does. *)
Definition parseInt (s : string) : option Z :=
  let s := Js.trim_start s in
  let '(sign, rest) :=
    match s with
    | String "-" rest => ((-1)%Z, rest)
    | String "+" rest => (1%Z, rest)
    | _ => (1%Z, s)
    end in
  match rest with
  | String c _ =>
      match digit c with
      | Some _ => Some (sign * digits 0 rest)%Z
      | None => None
      end
  | EmptyString => None
  end.

(** [handleSavePreferences], with the texts of the two inputs; the status
    lines are listed in the order they are shown. *)
Definition handleSavePreferences (writable : bool)
    (historyRange maxResults : string) (st : Storage)
    : Storage * list Status :=
  match parseInt historyRange, parseInt maxResults with
  | None, _ => (st, [RangeOutOfBounds])
  | Some historyRangeDays, parsedMax =>
      if (historyRangeDays <? 1)%Z || (10000 <? historyRangeDays)%Z
      then (st, [RangeOutOfBounds])
      else
        match parsedMax with
        | None => (st, [MaxResultsOutOfBounds])
        | Some maxResults =>
            if (maxResults <? 10)%Z || (100000 <? maxResults)%Z
            then (st, [MaxResultsOutOfBounds])
            else
              let warning :=
                if (maxResults <? 100)%Z then [FewResultsWarning] else [] in
              if writable
              then (set_user_preferences
                      (Some (mkStoredPreferences (Some historyRangeDays)
                               (Some maxResults))) st,
                    warning ++ [PreferencesSaved])
              else (st, warning ++ [ErrorSavingPreferences])
        end
  end.

(** The decimal digits of a positive number, most significant first, in
    front of [s]. *)
Fixpoint decimal (fuel : nat) (n : Z) (s : string) : string :=
  match fuel with
  | 0 => s
  | S fuel' =>
      let s' :=
        String (Ascii.ascii_of_nat (48 + Z.to_nat (n mod 10))) s in
      if (n <? 10)%Z then s' else decimal fuel' (n / 10) s'
  end.

(** The text of an integer, as an assignment to [input.value] writes
    it. *)
Definition toString (n : Z) : string :=
  if (n <? 0)%Z then String "-" (decimal (Z.to_nat (- n)) (- n) "")
  else if (n =? 0)%Z then "0"
  else decimal (Z.to_nat n) n "".

(** What [loadSettings] writes in the two inputs when preferences are
    stored; the inputs are left as they are otherwise. *)
Definition loadSettings (st : Storage) (historyRange maxResults : string)
    : string * string :=
  match user_preferences st with
  | Some prefs =>
      (toString (Worker.or_default (stored_historyRangeDays prefs) 5000),
       toString (Worker.or_default (stored_maxResults prefs) 100000))
  | None => (historyRange, maxResults)
  end.

(** [handleToggleVisibility]; [hidden] tells whether the type of the input
    is ['password'].  The icon of the button is left out. *)
Definition handleToggleVisibility (hidden : bool) (field : KeyField)
    : bool * KeyField :=
  if hidden
  then (false,
        if Js.truthy (actualValue field)
        then mkKeyField (default "" (actualValue field)) (actualValue field)
        else field)
  else (true,
        if Js.truthy (actualValue field)
        then mkKeyField (maskApiKey (default "" (actualValue field)))
               (actualValue field)
        else field).

End Options.

(** ** The chat window ([lib/popup.js]) *)

Module Popup.

Record State : Type := mkState {
  chatHistory : list ChatMessage;
  isProcessing : bool;
  userInput : string
}.

(** The message passed to [chrome.runtime.sendMessage]. *)
Record Request : Type := mkRequest {
  r_type : string;
  r_params : Worker.ChatParams
}.

(** [handleSendMessage] up to the request: nothing happens while a
    request is pending or when the trimmed input is empty; otherwise the
    input is cleared, the message joins [chatHistory], which is saved
    ([writable] tells whether that succeeds; a failure is only logged), and
    the request carries a copy of [chatHistory]. *)
Definition handleSendMessage (writable : bool) (p : State) (st : Storage)
    : State * Storage * option Request :=
  if isProcessing p then (p, st, None)
  else
    let message := Js.trim (userInput p) in
    if String.length message =? 0 then (p, st, None)
    else
      let chatHistory' := chatHistory p ++ [mkChatMessage "user" message] in
      let st' :=
        if writable then set_chat_history (Some chatHistory') st else st in
      let userMaxResults :=
        Worker.or_default
          (match user_preferences st' with
           | Some prefs => stored_maxResults prefs
           | None => None
           end) 100000 in
      (mkState chatHistory' true "", st',
       Some (mkRequest "CHAT_WITH_HISTORY"
               (Worker.mkChatParams (Some message) (Some chatHistory')
                  (Some userMaxResults)))).

(** [s.replace(/c/g, by)] for a pattern of one character. *)
Fixpoint replaceAll (c : Ascii.ascii) (by_ : string) (s : string) : string :=
  match s with
  | EmptyString => EmptyString
  | String x rest =>
      if Ascii.eqb x c then by_ +:+ replaceAll c by_ rest
      else String x (replaceAll c by_ rest)
  end.

(** The chain of replacements that [appendMessage] applies to the text of
    a user or error message, and [renderMarkdown] to a reply when the
    markdown libraries are not loaded. *)
Definition escapeHtml (text : string) : string :=
  replaceAll "010" "<br>"
    (replaceAll "'" "&#039;"
       (replaceAll "034" "&quot;"
          (replaceAll ">" "&gt;"
             (replaceAll "<" "&lt;"
                (replaceAll "&" "&amp;" text))))).

(** [loadChatHistory]: [result.chat_history || []]. *)
Definition loadChatHistory (st : Storage) : list ChatMessage :=
  default [] (chat_history st).

(** The answer to a request: the reply of the worker, or a failure (the
    response holds an error, or the message could not be delivered). *)
Inductive ChatResult : Type :=
| Replied (reply : string)
| Failed.

(** [handleSendMessage] from the answer on: a reply joins [chatHistory],
    which is saved; an error is shown and not recorded; in both cases the
    input is enabled again. *)
Definition handleResponse (writable : bool) (result : ChatResult) (p : State)
    (st : Storage) : State * Storage :=
  match result with
  | Replied reply =>
      let chatHistory' := chatHistory p ++ [mkChatMessage "assistant" reply] in
      (mkState chatHistory' false (userInput p),
       if writable then set_chat_history (Some chatHistory') st else st)
  | Failed => (mkState (chatHistory p) false (userInput p), st)
  end.

(** [clearChatHistory], as [handleNewChat] and
    [handleClearChatFromSettings] call it: the list is emptied before the
    key is removed from the storage. *)
Definition clearChatHistory (writable : bool) (p : State) (st : Storage)
    : State * Storage :=
  (mkState [] (isProcessing p) (userInput p),
   if writable then set_chat_history None st else st).

End Popup.

(** ** Direct mode ([chatWithOpenAI], up to the request to the API) *)

Module Direct.

(** The object that [historyItems.map] builds for an item: [url] and
    [last_visit_time] are copied as they are, [undefined] included. *)
Record SimpleEntry : Type := mkSimpleEntry {
  s_url : option string;
  s_title : string;
  s_visit_count : Js.number;
  s_last_visit_time : option Js.number
}.

Definition simplify (item : HistoryItem) : SimpleEntry :=
  mkSimpleEntry (url item) (Js.or_else (title item) "")
    (Worker.number_or_zero (visitCount item)) (lastVisitTime item).

(** The test of [filter]: [entry.url && entry.last_visit_time]. *)
Definition valid (entry : SimpleEntry) : bool :=
  Js.truthy (s_url entry)
  && match s_last_visit_time entry with
     | Some t => Worker.truthy_number t
     | None => false
     end.

Section WithSource.

Context {St : Type}.
Variable search : Query → St → option (list HistoryItem) * St.
Variables (available : bool) (clock : Z * Z).

(** The history that [chatWithOpenAI] works with: [fetchHistory] is called
    as in [chatWithBackend], inside a [try] whose [catch] takes the empty
    list. *)
Definition directHistory (st : Storage) (maxResultsOverride : option Z)
    (σ : St) : list SimpleEntry :=
  let maxResults := Worker.cappedMaxResults st maxResultsOverride in
  let result :=
    (fetchHistory search (Worker.envOf available clock st)
       (mkParams None None None (Some maxResults)) (σ, [])).1 in
  filter (λ entry, valid entry = true) (simplify <$> rawItems result).

End WithSource.








End Direct.

(** ** Auxiliary notions and concrete inputs for the statements *)

(** The events after which [chatWithBackend] is over: a reply or an error
    message (as dispatched by [onmessage]), a socket error, the closing of
    the socket, and the five-minute timer. *)
Definition terminal (e : Session.Event) : bool :=
  match e with
  | Session.EvMessage (Session.Parsed data) =>
      negb (Session.type_is data "connected")
      && negb (Session.type_is data "history_batch_ack")
      && negb (Session.type_is data "history_upload_complete_ack")
      && negb (Session.type_is data "chat_queued")
      && (Js.truthy (Session.d_reply data) || Js.truthy (Session.d_error data))
  | Session.EvError | Session.EvClose | Session.EvTimeout => true
  | _ => false
  end.

(** A parsed message that no branch of [onmessage] recognises. *)
Definition unrecognised (data : Session.Data) : Prop :=
  Session.d_type data ≠ Some "connected"
  ∧ Session.d_type data ≠ Some "history_batch_ack"
  ∧ Session.d_type data ≠ Some "history_upload_complete_ack"
  ∧ Session.d_type data ≠ Some "chat_queued"
  ∧ Js.truthy (Session.d_reply data) = false
  ∧ Js.truthy (Session.d_error data) = false.

(** A record as it is sent, for the examples. *)
Definition demoEntry : Entry :=
  mkEntry "https://example.org/" "Example" (Js.of_Z 3) (Js.of_Z 1700000000000).

(** A history of 501 records, hence two batches. *)
Definition demoHistory : list Entry := replicate 501 demoEntry.
Definition demoBatches : list Batch := prepareBatches demoHistory.

(** A raw item whose visit count is [Infinity]. *)
Definition infiniteCountItem : HistoryItem :=
  mkItem (Some "https://example.org/") (Some "Example")
    (Some (Js.of_Z 1700000000000)) (Some Js.PosInf).

(** The batch that the loop builds in its round [j]. *)
Definition nthBatch (hist : list Entry) (total j : nat) : Batch :=
  mkBatch (slice (j * BATCH_SIZE) (j * BATCH_SIZE + BATCH_SIZE) hist)
    (j + 1) total.

(** How the flag [isResolved], the timer, the socket and the promise of a
    session are related. *)
Definition settled_inv (s : Session) : Prop :=
  (timeoutArmed s = false → promise s ≠ None)
  ∧ (isResolved s = true → timeoutArmed s = false)
  ∧ (readyState s = CLOSED → timeoutArmed s = false).

(** The state of the merge after the items [seen]: the array holds one item
    per url, the map sends each url to that item, the items kept are items
    seen, and no item seen is later than the item kept for its url. *)
Definition merged (seen : list HistoryItem)
    (acc : list HistoryItem * gmap (option string) HistoryItem) : Prop :=
  NoDup (url <$> acc.1)
  ∧ (∀ x, x ∈ acc.1 → acc.2 !! url x = Some x)
  ∧ (∀ u x, acc.2 !! u = Some x → url x = u ∧ x ∈ acc.1)
  ∧ (∀ x, x ∈ acc.1 → x ∈ seen)
  ∧ (∀ x, x ∈ seen →
       ∃ r, acc.2 !! url x = Some r
            ∧ Js.lt_prop (lastVisitTime r) (lastVisitTime x) = false).

(** The binary digits of a page number, lowest first, for the urls of the
    example site. *)
Fixpoint bits (p : positive) : string :=
  match p with
  | xH => "1"
  | xO p => String "0"%char (bits p)
  | xI p => String "1"%char (bits p)
  end.

(** A page of the example site, numbered [k] and last visited at [time]. *)
Definition pageItem (k : positive) (time : Z) : HistoryItem :=
  mkItem (Some ("https://site.example/" +:+ bits k)) (Some "page")
    (Some (Js.of_Z time)) (Some (Js.of_Z 1)).

(** The pages visited in the window that starts at [start]: [count] pages,
    all visited one millisecond after the start. *)
Definition windowPages (start : Z) (count : nat) : list HistoryItem :=
  (λ j, pageItem (Z.to_pos (start * 10000 + Z.of_nat j + 1)) (start + 1))
    <$> seq 0 count.

(** A source with 5000 pages in the window starting at 0 and one page in
    every other window; it answers a query without time bounds with the empty
    list. *)
Definition windowSource (q : Query) (σ : unit)
    : option (list HistoryItem) * unit :=
  match q_startTime q with
  | Some start =>
      (Some (windowPages start
               (if (start =? 0)%Z then Z.to_nat 5000 else 1)), σ)
  | None => (Some [], σ)
  end.

(** An enumeration of up to 20,000 records over the time range [0, 1000),
    at time 1000: two partitions of 500 ms. *)
Definition demoEnv : Env := mkEnv true 1000 1000 365.
Definition demoParams : Params :=
  mkParams None (Some 0%Z) (Some 1000%Z) (Some 20000%Z).

(** A list of items is sorted by last visit time, latest first. *)
Definition sorted_by_time_desc (items : list HistoryItem) : Prop :=
  ∀ i j x y, i < j → items !! i = Some x → items !! j = Some y →
    Js.le (Js.to_number (lastVisitTime y)) (Js.to_number (lastVisitTime x))
      = true.

(** Sources for the other examples: one that has nothing, one that has a
    single page in every window, and one whose first window fails. *)
Definition emptySource (q : Query) (σ : unit)
    : option (list HistoryItem) * unit := (Some [], σ).

Definition sparseSource (q : Query) (σ : unit)
    : option (list HistoryItem) * unit :=
  (Some (windowPages (default 0%Z (q_startTime q)) 1), σ).

Definition flakySource (q : Query) (σ : unit)
    : option (list HistoryItem) * unit :=
  if bool_decide (q_startTime q = Some 0%Z) then (None, σ)
  else sparseSource q σ.

(** An enumeration of up to 100 records, with no text and no time range. *)
Definition smallParams : Params := mkParams None None None (Some 100%Z).

(** Two visits of one page and a visit of another. *)
Definition visitA : HistoryItem :=
  mkItem (Some "https://a.example/") (Some "A") (Some (Js.of_Z 5)) None.
Definition visitA' : HistoryItem :=
  mkItem (Some "https://a.example/") (Some "A") (Some (Js.of_Z 9)) None.
Definition visitB : HistoryItem :=
  mkItem (Some "https://b.example/") (Some "B") (Some (Js.of_Z 7)) None.

(** An item was delivered by the source in answer to one of [queries]. *)
Definition delivered {St : Type}
    (search : Query → St → option (list HistoryItem) * St)
    (queries : list Query) (x : HistoryItem) : Prop :=
  ∃ q σ items, q ∈ queries ∧ (search q σ).1 = Some items ∧ x ∈ items.

(** A source that answers every query with the first [maxResults] items of
    one list, whatever the text and the time bounds. *)
Definition prefixSource (items : list HistoryItem) (q : Query) (σ : unit)
    : option (list HistoryItem) * unit :=
  (Some (take (Z.to_nat (q_maxResults q)) items), σ).

(** An enumeration of up to 100,000 records that started 5 ms before the
    clock of [demoEnv], and one with no restriction at all. *)
Definition shortParams : Params :=
  mkParams None (Some 995%Z) None (Some 100000%Z).
Definition fullParams : Params := mkParams None None None (Some 100000%Z).

(** Observations on a log: the [history_upload_complete] and [chat]
    messages written, and all the messages written, in order. *)
Definition is_complete_send (i : LogItem) : bool :=
  match i with
  | Performed (Send HistoryUploadComplete) => true
  | _ => false
  end.

Definition is_chat_send (i : LogItem) : bool :=
  match i with
  | Performed (Send Chat) => true
  | _ => false
  end.

Definition completes_sent (log : list LogItem) : nat :=
  length (filter (λ i, is_complete_send i = true) log).

Definition chats_sent (log : list LogItem) : nat :=
  length (filter (λ i, is_chat_send i = true) log).

Definition sends (log : list LogItem) : list ClientMsg :=
  omap (λ i, match i with Performed (Send m) => Some m | _ => None end) log.

(** The socket is closing or closed. *)
Definition closing (r : ReadyState) : bool :=
  match r with CLOSING | CLOSED => true | _ => false end.

(** The events of a session with a server that follows the protocol, for
    [n] batches: the socket opens, the welcome message arrives, every batch
    is acknowledged (and the 10 ms timer runs before the next one), the
    completion is acknowledged and the reply arrives. *)
Definition ackRound : list Event :=
  [EvMessage history_batch_ack; EvNextBatchTimer].

Definition cooperative (n : nat) (reply : string) : list Event :=
  [EvOpen; EvMessage connected]
  ++ concat (replicate (n - 1) ackRound)
  ++ (if n =? 0 then [] else [EvMessage history_batch_ack])
  ++ [EvMessage history_upload_complete_ack; EvMessage (reply_message reply)].

(** The session while it uploads, after [sent] batches were written and all
    but the last acknowledged; and once the completion signal is written. *)
Definition uploading (batches : list Batch) (sent : nat) : Session :=
  mkSession OPEN false true batches sent (sent - 1) false false false true
    1 0 0 None.

Definition completing (batches : list Batch) (acknowledged chat : bool)
    : Session :=
  mkSession OPEN false true batches (length batches) (length batches) true
    acknowledged chat true 1 0 0 None.

(** The stored settings with another history range. *)
Definition withRange (days : option Z) (st : Storage) : Storage :=
  set_user_preferences
    (Some (mkStoredPreferences days
             (stored_maxResults
                (default (mkStoredPreferences None None)
                   (user_preferences st))))) st.

(** A list of records is ordered by last visit, latest first. *)
Definition newest_first (entries : list Entry) : Prop :=
  ∀ i j x y, i < j → entries !! i = Some x → entries !! j = Some y →
    Js.le (last_visit_time y) (last_visit_time x) = true.

(** A string does not begin with white space. *)
Definition starts_clean (s : string) : Prop :=
  match s with
  | EmptyString => True
  | String c _ => Js.is_white c = false
  end.

(** The text that stands for one character in escaped HTML, the escaping
    of a text character by character, and its inverse. *)
Definition escapeChar (c : Ascii.ascii) : string :=
  if Ascii.eqb c "&" then "&amp;"
  else if Ascii.eqb c "<" then "&lt;"
  else if Ascii.eqb c ">" then "&gt;"
  else if Ascii.eqb c "034" then "&quot;"
  else if Ascii.eqb c "'" then "&#039;"
  else if Ascii.eqb c "010" then "<br>"
  else String c "".

Fixpoint escapeEach (s : string) : string :=
  match s with
  | EmptyString => EmptyString
  | String c rest => escapeChar c +:+ escapeEach rest
  end.

Fixpoint unescape (s : string) : string :=
  match s with
  | String "&" (String "a" (String "m" (String "p" (String ";" rest)))) =>
      String "&" (unescape rest)
  | String "&" (String "l" (String "t" (String ";" rest))) =>
      String "<" (unescape rest)
  | String "&" (String "g" (String "t" (String ";" rest))) =>
      String ">" (unescape rest)
  | String "&" (String "q" (String "u" (String "o" (String "t"
      (String ";" rest))))) =>
      String "034" (unescape rest)
  | String "&" (String "#" (String "0" (String "3" (String "9"
      (String ";" rest))))) =>
      String "'" (unescape rest)
  | String "<" (String "b" (String "r" (String ">" rest))) =>
      String "010" (unescape rest)
  | String c rest => String c (unescape rest)
  | EmptyString => EmptyString
  end.

(** Inputs for the examples: a key of 23 characters, stored settings with
    nothing in them and with valid preferences, and three visits as a
    history. *)
Definition demoKey : string := "sk-0123456789abcdefghij".
Definition emptyStorage : Storage := mkStorage None None None.
Definition demoStorage : Storage :=
  mkStorage None (Some (mkStoredPreferences (Some 365%Z) (Some 1000%Z))) None.
Definition demoVisits : list HistoryItem := [visitA; visitB; visitA'].


(** What the user does with the key field without typing in it. *)
Inductive KeyAction : Type :=
| SaveKey (writable : bool)
| ToggleVisibility.

(** The page after an action: whether the key is hidden, the field and the
    stored settings. *)
Definition keyStep (ui : bool * Options.KeyField * Storage) (a : KeyAction)
    : bool * Options.KeyField * Storage :=
  match a with
  | SaveKey writable =>
      let out := Options.handleSaveApiKey writable ui.1.2 ui.2 in
      (ui.1.1, out.1.1, out.1.2)
  | ToggleVisibility =>
      let out := Options.handleToggleVisibility ui.1.1 ui.1.2 in
      (out.1, out.2, ui.2)
  end.

(** What happens in the chat window. *)
Inductive ChatAction : Type :=
| TypeText (text : string)
| SendMessage (writable : bool)
| Answer (writable : bool) (result : Popup.ChatResult)
| NewChat (writable : bool).

(** The window after an action: its state and the stored settings.  An
    answer closes the request that is pending. *)
Definition chatStep (w : Popup.State * Storage) (a : ChatAction)
    : Popup.State * Storage :=
  match a with
  | TypeText text =>
      (Popup.mkState (Popup.chatHistory w.1) (Popup.isProcessing w.1) text, w.2)
  | SendMessage writable => (Popup.handleSendMessage writable w.1 w.2).1
  | Answer writable result => Popup.handleResponse writable result w.1 w.2
  | NewChat writable => Popup.clearChatHistory writable w.1 w.2
  end.

(** The writes of an action to the storage succeed. *)
Definition writes_succeed (a : ChatAction) : bool :=
  match a with
  | TypeText _ => true
  | SendMessage writable | Answer writable _ | NewChat writable => writable
  end.

(** ** The enumeration as a sequence of calls

    The notions in which the statements describe a run of [fetchHistory]:
    what the source answered to the calls, the calls of one search, and the
    rounds of the loop over the partitions. *)

(** The time range is in use and is empty or starts in the future. *)
Definition rangeRefused (env : Env) (range : Z * Z * bool) : bool :=
  range.2 && ((range.1.2 <=? range.1.1)%Z || (now env <? range.1.1)%Z).

(** One of the dates that [fetchHistory] formats before its first call is
    not a time value: the two ends of the range, or the start and the clock
    when the range starts in the future. *)
Definition logThrows (env : Env) (range : Z * Z * bool) : bool :=
  if range.2 && (range.1.2 <=? range.1.1)%Z
  then invalidDate range.1.1 || invalidDate range.1.2
  else if range.2 && (now env <? range.1.1)%Z
  then invalidDate range.1.1 || invalidDate (now env)
  else invalidDate range.1.1 || invalidDate range.1.2.

Section Described.

Context {St : Type}.
Variable search : Query → St → option (list HistoryItem) * St.

(** The answers of the source to [queries], issued one after another from
    the state [σ] ([None] for a call that fails), and the state they leave. *)
Fixpoint answers (σ : St) (queries : list Query)
    : list (option (list HistoryItem)) :=
  match queries with
  | [] => []
  | q :: rest => (search q σ).1 :: answers (search q σ).2 rest
  end.

Fixpoint stateAfter (σ : St) (queries : list Query) : St :=
  match queries with
  | [] => σ
  | q :: rest => stateAfter (search q σ).2 rest
  end.

(** The calls of one search for the query [q]: the query is issued, and the
    fallback query [fb] after it exactly when the query is answered with no
    item and the text is blank.  The search has no answer when the query
    fails; a failing fallback query counts as an empty answer. *)
Inductive Calls (text : string) (q fb : Query) (σ : St)
    : list Query → option (list HistoryItem) → St → Prop :=
| query_failed σ' :
    search q σ = (None, σ') →
    Calls text q fb σ [q] None σ'
| query_answered items σ' :
    search q σ = (Some items, σ') →
    (items = [] → blank text = false) →
    Calls text q fb σ [q] (Some items) σ'
| fallback_called σ1 answer σ2 :
    search q σ = (Some [], σ1) →
    blank text = true →
    search fb σ1 = (answer, σ2) →
    Calls text q fb σ [q; fb] (Some (default [] answer)) σ2.

Section Partitions.

Variables (text : string) (useRange : bool) (start end_ target n chunk : Z).

(** Round [i] runs: it is one of the [n] rounds, fewer records are held
    than asked for, and its sub-window, when a time range is in use, is not
    empty. *)
Definition roundRuns (i : Z) (held : list HistoryItem) : Prop :=
  (i < n)%Z
  ∧ (Z.of_nat (length held) < target)%Z
  ∧ (useRange = true →
     (batchStartTime start chunk i < batchEndTime start end_ n chunk i)%Z).

(** An answer is short: it has fewer items than the round asked for and
    fewer than 5,000. *)
Definition shortAnswer (held items : list HistoryItem) : Prop :=
  (Z.of_nat (length items) < batchMaxResults target held)%Z
  ∧ (Z.of_nat (length items) < 5000)%Z.

(** The rounds from round [i] on, with the records [held] (and their map):
    the calls issued, the records held at the end and the state of the
    source.  The loop ends when the round does not run, when its query
    fails, and after a short answer; otherwise the answer is merged and the
    next round follows. *)
Inductive Rounds
    : Z → list HistoryItem → gmap (option string) HistoryItem → St →
      list Query → list HistoryItem → St → Prop :=
| rounds_end i held urlMap σ :
    ¬ roundRuns i held →
    Rounds i held urlMap σ [] held σ
| rounds_failed i held urlMap σ calls σ' :
    roundRuns i held →
    Calls text (batchQuery text useRange start end_ target n chunk i held)
      (batchFallbackQuery useRange start end_ target n chunk i held)
      σ calls None σ' →
    Rounds i held urlMap σ calls held σ'
| rounds_short i held urlMap σ calls items σ' :
    roundRuns i held →
    Calls text (batchQuery text useRange start end_ target n chunk i held)
      (batchFallbackQuery useRange start end_ target n chunk i held)
      σ calls (Some items) σ' →
    shortAnswer held items →
    Rounds i held urlMap σ calls (mergeItems (held, urlMap) items).1 σ'
| rounds_next i held urlMap σ calls items σ' calls' held' σ'' :
    roundRuns i held →
    Calls text (batchQuery text useRange start end_ target n chunk i held)
      (batchFallbackQuery useRange start end_ target n chunk i held)
      σ calls (Some items) σ' →
    ¬ shortAnswer held items →
    Rounds (i + 1)%Z (mergeItems (held, urlMap) items).1
      (mergeItems (held, urlMap) items).2 σ' calls' held' σ'' →
    Rounds i held urlMap σ (calls ++ calls') held' σ''.

End Partitions.

End Described.

(** * Properties *)

(** ** Batches *)

Section BatchingFacts.

Lemma BATCH_SIZE_pos : 0 < BATCH_SIZE.
Proof. unfold BATCH_SIZE. lia. Qed.

Lemma ceil_div_spec (n d k : nat) :
  0 < d → ceil_div n d = k ↔ k * d < n + d ∧ n ≤ k * d.
Proof.
  intros Hd. unfold ceil_div.
  pose proof (Nat.div_mod_eq (n + d - 1) d) as Hdiv.
  pose proof (Nat.mod_upper_bound (n + d - 1) d ltac:(lia)) as Hmod.
  split.
  - intros <-. nia.
  - intros [H1 H2]. symmetry. apply (Nat.div_unique _ _ _ (n + d - 1 - k * d)); nia.
Qed.

Lemma ceil_div_le (n d m : nat) : 0 < d → ceil_div n d ≤ m ↔ n ≤ m * d.
Proof.
  intros Hd.
  destruct (ceil_div_spec n d (ceil_div n d) Hd) as [H _].
  specialize (H eq_refl). split; intros; nia.
Qed.

Lemma batchLoop_spec rounds : ∀ hist total m acc,
  length acc = m →
  length hist ≤ m * BATCH_SIZE + rounds →
  let res := batchLoop rounds hist total (m * BATCH_SIZE) acc in
  length res = m `max` ceil_div (length hist) BATCH_SIZE
  ∧ (∀ j, j < m → res !! j = acc !! j)
  ∧ (∀ j b, m ≤ j → res !! j = Some b → b = nthBatch hist total j).
Proof.
  pose proof BATCH_SIZE_pos as HB.
  induction rounds as [|rounds IH]; intros hist total m acc Hacc Hfuel; cbn [batchLoop].
  - pose proof (ceil_div_le (length hist) BATCH_SIZE m HB) as Hc.
    split_and!; [lia|done|].
    intros j b Hj Hlk. apply lookup_lt_Some in Hlk. lia.
  - destruct (m * BATCH_SIZE <? length hist) eqn:Hlt.
    + apply Nat.ltb_lt in Hlt.
      replace (m * BATCH_SIZE + BATCH_SIZE) with (S m * BATCH_SIZE) by lia.
      destruct (IH hist total (S m)
                  (acc ++ [mkBatch (slice (m * BATCH_SIZE) (S m * BATCH_SIZE) hist)
                             (m * BATCH_SIZE / BATCH_SIZE + 1) total]))
        as (Hlen & Hpre & Hnew); [rewrite length_app; simpl; lia | lia |].
      pose proof (ceil_div_le (length hist) BATCH_SIZE m HB) as Hc.
      split_and!.
      * rewrite Hlen. lia.
      * intros j Hj. rewrite Hpre by lia. apply lookup_app_l. lia.
      * intros j b Hj Hlk.
        destruct (decide (j = m)) as [->|Hne]; [|apply Hnew; [lia|done]].
        rewrite Hpre in Hlk by lia.
        rewrite lookup_app_r in Hlk by lia.
        rewrite Hacc, Nat.sub_diag in Hlk.
        change (Some (mkBatch (slice (m * BATCH_SIZE) (S m * BATCH_SIZE) hist) (m * BATCH_SIZE / BATCH_SIZE + 1) total) = Some b) in Hlk.
        apply (inj Some) in Hlk. rewrite <- Hlk. unfold nthBatch.
        rewrite Nat.div_mul by lia. f_equal. f_equal. lia.
    + apply Nat.ltb_ge in Hlt.
      pose proof (ceil_div_le (length hist) BATCH_SIZE m HB) as Hc.
      split_and!; [lia|done|].
      intros j b Hj Hlk. apply lookup_lt_Some in Hlk. lia.
Qed.

Lemma prepareBatches_eq (hist : list Entry) :
  hist ≠ [] →
  prepareBatches hist =
    nthBatch hist (ceil_div (length hist) BATCH_SIZE)
      <$> seq 0 (ceil_div (length hist) BATCH_SIZE).
Proof.
  intros Hne. unfold prepareBatches.
  destruct (0 <? length hist) eqn:Hpos.
  2:{ apply Nat.ltb_ge in Hpos. destruct hist; [done|simpl in Hpos; lia]. }
  cbv zeta.
  destruct (batchLoop_spec (length hist) hist
              (ceil_div (length hist) BATCH_SIZE) 0 []) as (Hlen & _ & Hnew);
    [done | lia |].
  change (0 * BATCH_SIZE) with 0 in *.
  apply list_eq_same_length with (ceil_div (length hist) BATCH_SIZE).
  - rewrite length_fmap, length_seq. done.
  - rewrite Hlen. lia.
  - intros j x y Hj Hx Hy.
    apply Hnew in Hx; [|lia]. subst x.
    rewrite list_lookup_fmap, lookup_seq_lt in Hy by done.
    change (Some (nthBatch hist (ceil_div (length hist) BATCH_SIZE) j) = Some y) in Hy.
    by apply (inj Some) in Hy.
Qed.

Lemma concat_slices {A} (l : list A) (d k : nat) :
  concat ((λ j, slice (j * d) (j * d + d) l) <$> seq 0 k) = take (k * d) l.
Proof.
  induction k as [|k IH].
  - by rewrite take_0.
  - rewrite seq_S, fmap_app, concat_app, IH. simpl.
    rewrite app_nil_r. unfold slice.
    replace (k * d + d - k * d) with d by lia.
    rewrite take_take_drop. f_equal. lia.
Qed.

End BatchingFacts.

(** C3.  For a non-empty history of N records and B = 500 the prepared
    batches number k = ceil(N/B) (the k with B(k-1) < N <= Bk); the batch at
    position j carries batchNumber j+1, which lies in 1..k, and totalBatches
    k; the concatenation of the batches' slices is the history; and the last
    batch holds N - B(k-1) records. *)
Theorem C3_prepareBatches_shape (hist : list Entry) :
  hist ≠ [] →
  let n := length hist in
  let k := length (prepareBatches hist) in
  k = ceil_div n BATCH_SIZE
  ∧ BATCH_SIZE * (k - 1) < n ≤ BATCH_SIZE * k
  ∧ (∀ j b, prepareBatches hist !! j = Some b →
       batchNumber b = j + 1 ∧ 1 ≤ batchNumber b ≤ k ∧ totalBatches b = k)
  ∧ concat (history <$> prepareBatches hist) = hist
  ∧ (∃ b, last (prepareBatches hist) = Some b
          ∧ length (history b) = n - BATCH_SIZE * (k - 1)).
Proof.
  intros Hne n k.
  pose proof BATCH_SIZE_pos as HB.
  assert (Hk : k = ceil_div n BATCH_SIZE).
  { subst k. rewrite prepareBatches_eq by done.
    by rewrite length_fmap, length_seq. }
  destruct (ceil_div_spec n BATCH_SIZE k HB) as [Hspec _].
  specialize (Hspec (eq_sym Hk)).
  assert (Hn : 0 < n) by (subst n; destruct hist; [done|simpl; lia]).
  assert (Hkpos : 0 < k) by nia.
  split; [done|]. split; [nia|]. split; [|split].
  - intros j b Hlk. rewrite prepareBatches_eq in Hlk by done.
    rewrite list_lookup_fmap in Hlk.
    destruct (seq 0 (ceil_div (length hist) BATCH_SIZE) !! j) as [j'|] eqn:Hseq;
      [|done].
    apply lookup_seq in Hseq as [-> Hlt].
    change (Some (nthBatch hist (ceil_div (length hist) BATCH_SIZE) j) = Some b) in Hlk.
    apply (inj Some) in Hlk. subst b. cbn [nthBatch batchNumber totalBatches].
    unfold n in Hk. rewrite <- Hk in Hlt. rewrite <- Hk. lia.
  - rewrite prepareBatches_eq by done.
    rewrite <- list_fmap_compose.
    fold n. rewrite <- Hk.
    etrans; [apply (concat_slices hist BATCH_SIZE k)|].
    apply take_ge. fold n. lia.
  - rewrite prepareBatches_eq by done. fold n. rewrite <- Hk.
    exists (nthBatch hist k (k - 1)). split.
    + destruct k as [|k']; [lia|].
      rewrite seq_S, fmap_app. simpl. rewrite last_snoc.
      by rewrite Nat.sub_0_r.
    + unfold nthBatch, slice. cbn [history].
      rewrite length_take, length_drop. fold n.
      replace (BATCH_SIZE * (k - 1)) with ((k - 1) * BATCH_SIZE) by lia.
      assert ((k - 1) * BATCH_SIZE + BATCH_SIZE = k * BATCH_SIZE) by nia.
      lia.
Qed.

(** The batches of the history of 501 records. *)
Lemma C3_prepareBatches_shape_witness :
  demoHistory ≠ []
  ∧ length (prepareBatches demoHistory)
    = ceil_div (length demoHistory) BATCH_SIZE
  ∧ concat (history <$> prepareBatches demoHistory) = demoHistory.
Proof.
  assert (H : demoHistory ≠ []) by done.
  split; [exact H|].
  destruct (C3_prepareBatches_shape demoHistory H) as (Hk & _ & _ & Hc & _).
  split; assumption.
Defined.

(** The scenario of 12,345 records: 25 batches, the last one of 345. *)
Lemma prepareBatches_12345 (hist : list Entry) :
  length hist = Z.to_nat 12345 →
  length (prepareBatches hist) = 25
  ∧ ∃ b, last (prepareBatches hist) = Some b ∧ length (history b) = 345.
Proof.
  intros Hlen.
  assert (Hne : hist ≠ []) by (intros ->; done).
  rewrite prepareBatches_eq, Hlen by done.
  change (ceil_div (Z.to_nat 12345) BATCH_SIZE) with 25.
  split; [by rewrite length_fmap, length_seq|].
  exists (nthBatch hist 25 24). split.
  - change 25 with (S 24) at 2. by rewrite seq_S, fmap_app, last_app.
  - unfold nthBatch, slice, BATCH_SIZE. cbn [history].
    rewrite length_take, length_drop, Hlen. lia.
Qed.

(** ** Normalised records *)

Section NormaliseFacts.

Lemma floor_max_zero_nonneg (q : Qc) :
  Js.nonneg_integer (Js.floor (Js.max Js.zero (Js.Fin q))).
Proof.
  unfold Js.max, Js.zero, Js.floor.
  case_bool_decide as Hle.
  - exists (Qfloor q). split; [|done].
    change 0%Z with (Qfloor (inject_Z 0)) at 1.
    apply Qfloor_resp_le. exact Hle.
  - exists 0%Z. split; [lia|]. done.
Qed.

Lemma visit_count_cases (count : Js.number) :
  let v := if Js.isNaN count then Js.zero
           else Js.floor (Js.max Js.zero count) in
  (count = Js.PosInf ∧ v = Js.PosInf)
  ∨ (count ≠ Js.PosInf ∧ Js.nonneg_integer v).
Proof.
  destruct count as [| | |q]; cbn [Js.isNaN].
  - right. split; [done|]. exists 0%Z. split; [lia|done].
  - left. done.
  - right. split; [done|]. exists 0%Z. split; [lia|done].
  - right. split; [done|]. apply floor_max_zero_nonneg.
Qed.

Lemma posinf_not_integer : ¬ Js.nonneg_integer Js.PosInf.
Proof. intros (z & _ & Hz). discriminate Hz. Qed.

Lemma time_accepted (time : Js.number) :
  Js.isNaN time || negb (Js.isFinite time) || Js.le time Js.zero = false →
  ∃ q, time = Js.Fin q ∧ (Qc_of_Z 0 < q)%Qc.
Proof.
  destruct time as [| | |q]; cbn; try done.
  intros Hle. exists q. split; [done|].
  apply bool_decide_eq_false in Hle. by apply Qcnot_le_lt.
Qed.

Lemma time_rejected (time : Js.number) :
  Js.le time Js.zero = true →
  Js.isNaN time || negb (Js.isFinite time) || Js.le time Js.zero = true.
Proof. intros ->. by rewrite orb_true_r. Qed.

(** What an accepted item looks like, field by field. *)
Lemma convertItem_Some (item : HistoryItem) (e : Entry) :
  convertItem item = Some e →
  url item = Some (e_url e)
  ∧ e_url e ≠ "" ∧ Js.trim (e_url e) ≠ ""
  ∧ e_title e = Js.or_else (title item) ""
  ∧ lastVisitTime item = Some (last_visit_time e)
  ∧ Js.positive (last_visit_time e)
  ∧ match visitCount item with
    | None => visit_count e = Js.zero
    | Some Js.PosInf => visit_count e = Js.PosInf
    | Some _ => Js.nonneg_integer (visit_count e)
    end.
Proof.
  unfold convertItem.
  destruct (lastVisitTime item) as [time|]; [|done].
  destruct (Js.isNaN time || negb (Js.isFinite time) || Js.le time Js.zero)
    eqn:Htime; [done|].
  destruct (url item) as [u|]; [|done].
  destruct ((String.length u =? 0) || (String.length (Js.trim u) =? 0))
    eqn:Hurl; [done|].
  intros [= <-]. cbn [e_url e_title visit_count last_visit_time].
  apply orb_false_iff in Hurl as [Hu Ht].
  apply Nat.eqb_neq in Hu, Ht.
  split_and!; try done.
  - intros ->. done.
  - intros Heq. rewrite Heq in Ht. done.
  - by apply time_accepted.
  - destruct (visitCount item) as [count|]; [|done].
    destruct (visit_count_cases count) as [[-> Hv]|[Hne Hv]]; [done|].
    destruct count; done.
Qed.

(** Which items are dropped. *)
Lemma convertItem_None (item : HistoryItem) :
  (lastVisitTime item = None
   ∨ (∃ t, lastVisitTime item = Some t ∧ Js.le t Js.zero = true)
   ∨ url item = None ∨ url item = Some "") →
  convertItem item = None.
Proof.
  unfold convertItem.
  intros [->|[(t & -> & Hle)|[Hu|Hu]]]; [done| |..].
  - by rewrite (time_rejected t Hle).
  - rewrite Hu. destruct (lastVisitTime item); [|done]. by destruct (_ || _).
  - rewrite Hu. destruct (lastVisitTime item); [|done]. by destruct (_ || _ || _).
Qed.

Lemma prepareHistory_length (items : list HistoryItem) :
  length (prepareHistory items) ≤ length items.
Proof.
  unfold prepareHistory. induction items as [|x items IH]; [done|].
  cbn. destruct (convertItem x); cbn; lia.
Qed.

Lemma prepareHistory_elem (items : list HistoryItem) (e : Entry) :
  e ∈ prepareHistory items ↔ ∃ item, item ∈ items ∧ convertItem item = Some e.
Proof. unfold prepareHistory. apply list_elem_of_omap. Qed.

End NormaliseFacts.

(** ** Sessions *)

Lemma run_app (s : Session) (evs1 evs2 : list Event) :
  run s (evs1 ++ evs2) =
    ((run (run s evs1).1 evs2).1, (run s evs1).2 ++ (run (run s evs1).1 evs2).2).
Proof.
  revert s. induction evs1 as [|e evs1 IH]; intros s; cbn [run app].
  - cbn [fst snd app]. by destruct (run s evs2).
  - destruct (step e s) as [s1 acts]. rewrite IH.
    destruct (run s1 evs1) as [s2 log1]. cbn [fst snd].
    destruct (run s2 evs2) as [s3 log2]. cbn [fst snd].
    by rewrite app_comm_cons, app_assoc.
Qed.

Lemma run_cons (s : Session) (e : Event) (evs : list Event) :
  run s (e :: evs) =
    ((run (step e s).1 evs).1,
     Occurred e :: (Performed <$> (step e s).2) ++ (run (step e s).1 evs).2).
Proof.
  cbn [run]. destruct (step e s) as [s1 acts]. cbn [fst snd].
  by destruct (run s1 evs).
Qed.

Lemma run_log_head (s : Session) (evs : list Event) (a : Action) (l : list LogItem) :
  (run s evs).2 ≠ Performed a :: l.
Proof. destruct evs; [done|]. rewrite run_cons. done. Qed.

(** A call found in the log was made by the handler of some event of the
    trace, and the log before it is the log of the earlier events, that
    event, and the handler's earlier calls. *)
Lemma run_performed_inv (evs : list Event) : ∀ s l1 a l2,
  (run s evs).2 = l1 ++ Performed a :: l2 →
  ∃ evs1 e evs2 acts1 acts2,
    evs = evs1 ++ e :: evs2
    ∧ (step e (run s evs1).1).2 = acts1 ++ a :: acts2
    ∧ l1 = (run s evs1).2 ++ Occurred e :: (Performed <$> acts1).
Proof.
  induction evs as [|e evs IH]; intros s l1 a l2 Hlog.
  - by destruct l1.
  - rewrite run_cons in Hlog. cbn [snd] in Hlog.
    destruct l1 as [|x l1]; [done|].
    injection Hlog as <- Hlog.
    apply app_eq_inv in Hlog as [(k & Hk1 & Hk2)|(k & Hk1 & Hk2)].
    + destruct k as [|y k].
      * symmetry in Hk2. by apply run_log_head in Hk2.
      * injection Hk2 as <- Hk2.
        apply fmap_app_inv in Hk1 as (acts1 & rest & H1 & H2 & H3).
        symmetry in H2.
        apply fmap_cons_inv in H2 as (a' & acts2 & Ha & H4 & H5).
        injection Ha as <-. subst.
        exists [], e, evs, acts1, acts2. cbn [run fst snd app]. done.
    + destruct (IH _ _ _ _ Hk2)
        as (evs1 & e' & evs2 & acts1 & acts2 & -> & Hstep & ->).
      exists (e :: evs1), e', evs2, acts1, acts2.
      rewrite run_cons. cbn [fst snd]. split_and!; [done|done|].
      rewrite Hk1. cbn [app]. by rewrite app_assoc.
Qed.

(** Unfolding the handlers on a session given field by field. *)
Ltac unfold_session :=
  cbv [step onmessage onConnected onBatchAck onUploadCompleteAck onReply
       onErrorMessage onerror onclose onopen graceCallback retryCallback
       timeoutCallback sendNextBatch ws_send ws_close settle clearTimeout
       andThen assign branch skip is_open
       set_readyState set_isResolved set_isConnected set_currentBatchIndex
       set_totalBatchesAcknowledged set_historyUploadCompleteSent
       set_historyUploadCompleteAcknowledged set_chatMessageSent
       set_timeoutArmed set_graceTimers set_nextBatchTimers set_retryTimers
       set_promise
       readyState isResolved isConnected batchesToSend currentBatchIndex
       totalBatchesAcknowledged historyUploadCompleteSent
       historyUploadCompleteAcknowledged chatMessageSent timeoutArmed
       graceTimers nextBatchTimers retryTimers promise
       is_batch_ack is_upload_complete_ack is_batch_send
       fst snd app negb andb orb].

Lemma type_is_both (data : Data) (t1 t2 : string) :
  type_is data t1 = true → type_is data t2 = true → t1 = t2.
Proof.
  unfold type_is. intros H1%bool_decide_eq_true H2%bool_decide_eq_true.
  congruence.
Qed.

(** A message has one type. *)
Ltac type_clash :=
  match goal with
  | H1 : type_is ?d ?t1 = true, H2 : type_is ?d ?t2 = true |- _ =>
      by pose proof (type_is_both d t1 t2 H1 H2)
  end.

(** Case analysis on the innermost test of a handler. *)
Ltac split_cond :=
  match goal with
  | |- context [match ?x with _ => _ end] =>
      lazymatch x with
      | context [match _ with _ => _ end] => fail
      | _ => destruct x eqn:?
      end
  end.

(** All the paths through the handler of an event. *)
Ltac crunch := unfold_session; repeat (split_cond; unfold_session).

(** Boolean comparisons of counters, as propositions. *)
Ltac nat_tests :=
  repeat match goal with
    | H : (_ <=? _) = true |- _ => apply Nat.leb_le in H
    | H : (_ <=? _) = false |- _ => apply Nat.leb_gt in H
    | H : (_ <? _) = true |- _ => apply Nat.ltb_lt in H
    | H : (_ <? _) = false |- _ => apply Nat.ltb_ge in H
    | H : (_ =? _) = true |- _ => apply Nat.eqb_eq in H
    | H : (_ =? _) = false |- _ => apply Nat.eqb_neq in H
    end.

(** Membership in an explicit list of calls. *)
Ltac mem_inv H :=
  repeat (apply elem_of_cons in H as [H|H];
          [first [discriminate H | injection H; intros; subst | idtac]|]);
  try (by apply elem_of_nil in H).

(** The goal at the end of one path. *)
Ltac leaf :=
  try type_clash; nat_tests;
  repeat match goal with
    | |- _ ∧ _ => split
    | |- _ ∈ _ → _ => let H := fresh "Hin" in intros H; mem_inv H
    | |- _ ∉ _ => let H := fresh "Hin" in intros H; mem_inv H
    | |- ∀ _, _ => intro
    end;
  try done; try lia.

(** What one event does: the batches are never changed; the counter of
    acknowledgments moves exactly on a batch acknowledgment; a batch is
    written only as the batch at [currentBatchIndex], which then advances;
    [history_upload_complete] is written only when both counters have
    reached the number of batches; and [chat] only on an acknowledgment of
    the upload. *)
Lemma step_summary (e : Event) (s : Session) :
  let s' := (step e s).1 in
  let acts := (step e s).2 in
  batchesToSend s' = batchesToSend s
  ∧ totalBatchesAcknowledged s' =
      totalBatchesAcknowledged s
      + (if is_batch_ack (Occurred e) then 1 else 0)
  ∧ ((currentBatchIndex s' = currentBatchIndex s
      ∧ ∀ b, Send (HistoryBatch b) ∉ acts)
     ∨ (∃ b, batchesToSend s !! currentBatchIndex s = Some b
             ∧ currentBatchIndex s' = S (currentBatchIndex s)
             ∧ acts = [Send (HistoryBatch b)]))
  ∧ (Send HistoryUploadComplete ∈ acts →
       length (batchesToSend s) ≤ currentBatchIndex s
       ∧ length (batchesToSend s) ≤ totalBatchesAcknowledged s')
  ∧ (Send Chat ∈ acts → is_upload_complete_ack (Occurred e) = true).
Proof.
  destruct s as [rs res con bs idx ack ucs uca chat arm g nb rt pr].
  destruct e as [|[|data]| | | | | |]; crunch.
  all: try type_clash.
  all: split; [done|]; split; [lia || done|]; split;
    [first [left; by leaf | right; eexists; by leaf]|].
  all: leaf.
Qed.

Lemma batches_sent_app (l1 l2 : list LogItem) :
  batches_sent (l1 ++ l2) = batches_sent l1 ++ batches_sent l2.
Proof. apply omap_app. Qed.

Lemma acks_received_app (l1 l2 : list LogItem) :
  acks_received (l1 ++ l2) = acks_received l1 + acks_received l2.
Proof. unfold acks_received. by rewrite filter_app, length_app. Qed.

Lemma batches_sent_performed_nil (acts : list Action) :
  (∀ b, Send (HistoryBatch b) ∉ acts) →
  batches_sent (Performed <$> acts) = [].
Proof.
  induction acts as [|a acts IH]; intros Hno; [done|].
  assert (Hrest : ∀ b, Send (HistoryBatch b) ∉ acts).
  { intros b Hb. apply (Hno b). by right. }
  destruct a as [[b| |]| |]; cbn; auto.
  exfalso. apply (Hno b). by left.
Qed.

Lemma acks_received_performed (acts : list Action) :
  acks_received (Performed <$> acts) = 0.
Proof. induction acts as [|a acts IH]; [done|]. exact IH. Qed.

Lemma acks_received_event (e : Event) (acts : list Action) :
  acks_received (Occurred e :: (Performed <$> acts)) =
    if is_batch_ack (Occurred e) then 1 else 0.
Proof.
  change (Occurred e :: (Performed <$> acts))
    with ([Occurred e] ++ (Performed <$> acts)).
  rewrite acks_received_app, acks_received_performed.
  unfold acks_received. cbn [filter list_filter].
  destruct (is_batch_ack (Occurred e)); by case_decide.
Qed.

Lemma batches_sent_event (e : Event) (acts : list Action) :
  batches_sent (Occurred e :: (Performed <$> acts)) =
    batches_sent (Performed <$> acts).
Proof. done. Qed.

(** What the variables of a session say about its history. *)
Lemma run_invariant (batches : list Batch) (evs : list Event) :
  let s := (run (init batches) evs).1 in
  let log := (run (init batches) evs).2 in
  batchesToSend s = batches
  ∧ batches_sent log = take (currentBatchIndex s) batches
  ∧ currentBatchIndex s ≤ length batches
  ∧ totalBatchesAcknowledged s = acks_received log.
Proof.
  induction evs as [|e evs IH] using rev_ind.
  - cbn. split_and!; [done|by rewrite take_0|lia|done].
  - rewrite run_app. cbn [fst snd].
    destruct IH as (Hb & Hsent & Hidx & Hack).
    set (s := (run (init batches) evs).1) in *.
    set (log := (run (init batches) evs).2) in *.
    rewrite run_cons. cbn [run fst snd]. rewrite app_nil_r.
    destruct (step_summary e s) as (Hb' & Hack' & Hsend & _).
    rewrite batches_sent_app, acks_received_app, acks_received_event,
      batches_sent_event.
    split_and!; [congruence| | |lia].
    + destruct Hsend as [[Hsame Hno]|(b & Hlk & Hnext & Hacts)].
      * rewrite batches_sent_performed_nil by done.
        by rewrite app_nil_r, Hsame.
      * rewrite Hacts, Hnext. cbn. rewrite Hb in Hlk.
        by rewrite (take_S_r _ _ _ Hlk), Hsent.
    + destruct Hsend as [[Hsame Hno]|(b & Hlk & Hnext & Hacts)]; [lia|].
      rewrite Hb in Hlk. apply lookup_lt_Some in Hlk. lia.
Qed.

(** C1.  In the history of any session, a [chat] request is written only
    after a [history_upload_complete_ack] message was received, and
    [history_upload_complete] is written only after every prepared batch was
    written, in order, and at least as many batch acknowledgments were
    received as there are batches; with no batch at all it is written as
    soon as the welcome message is handled. *)
Theorem C1_completion_handoff_order
    (batches : list Batch) (evs : list Event)
    (l1 l2 : list LogItem) (m : ClientMsg) :
  (run (init batches) evs).2 = l1 ++ Performed (Send m) :: l2 →
  (m = Chat → ∃ i, i ∈ l1 ∧ is_upload_complete_ack i = true)
  ∧ (m = HistoryUploadComplete →
       batches_sent l1 = batches ∧ length batches ≤ acks_received l1)
  ∧ (run (init []) [EvOpen; EvMessage connected]).2 =
      [Occurred EvOpen; Occurred (EvMessage connected);
       Performed (Send HistoryUploadComplete)].
Proof.
  intros Hlog.
  apply run_performed_inv in Hlog
    as (evs1 & e & evs2 & acts1 & acts2 & -> & Hstep & ->).
  destruct (run_invariant batches evs1) as (Hb & Hsent & Hidx & Hack).
  set (s := (run (init batches) evs1).1) in *.
  set (log := (run (init batches) evs1).2) in *.
  destruct (step_summary e s) as (_ & Hack' & Hsend & Huc & Hchat).
  rewrite Hstep in *.
  split_and!; [| |done].
  - intros ->. exists (Occurred e). split.
    + apply elem_of_app. right. by left.
    + apply Hchat. apply elem_of_app. right. by left.
  - intros ->.
    destruct Huc as [Hall Hacked]; [apply elem_of_app; right; by left|].
    rewrite Hb in Hall, Hacked.
    assert (Hno : ∀ b, Send (HistoryBatch b) ∉ acts1).
    { destruct Hsend as [[_ Hno]|(b & _ & _ & Hacts)].
      - intros b Hb1. apply (Hno b). apply elem_of_app. by left.
      - destruct acts1 as [|? [|? ?]]; done. }
    rewrite batches_sent_app, batches_sent_event,
      batches_sent_performed_nil, app_nil_r by done.
    rewrite acks_received_app, acks_received_event.
    split.
    + rewrite Hsent. apply take_ge. lia.
    + lia.
Qed.

(** An upload of one batch, up to the chat request. *)
Lemma C1_completion_handoff_order_witness :
  let batches := prepareBatches [demoEntry] in
  let evs := [EvOpen; EvMessage connected; EvMessage history_batch_ack;
              EvMessage history_upload_complete_ack] in
  let l1 := [Occurred EvOpen; Occurred (EvMessage connected);
             Performed (Send (HistoryBatch (mkBatch [demoEntry] 1 1)));
             Occurred (EvMessage history_batch_ack)] in
  let l2 := [Occurred (EvMessage history_upload_complete_ack);
             Performed (Send Chat)] in
  (run (init batches) evs).2 = l1 ++ Performed (Send HistoryUploadComplete) :: l2
  ∧ batches_sent l1 = batches
  ∧ length batches ≤ acks_received l1.
Proof.
  intros batches evs l1 l2.
  assert (H : (run (init batches) evs).2
              = l1 ++ Performed (Send HistoryUploadComplete) :: l2)
    by (vm_compute; reflexivity).
  split; [exact H|].
  destruct (C1_completion_handoff_order batches evs l1 l2
              HistoryUploadComplete H) as (_ & Huc & _).
  by apply Huc.
Defined.

(** C2.  The one-batch-in-flight discipline is broken when the welcome
    message is late: the grace timer starts the upload, and the [connected]
    handler, which has no test on [currentBatchIndex], sends the second
    batch although no acknowledgment was received. *)
Theorem C2_late_welcome_two_batches_in_flight (b1 b2 : Batch) (rest : list Batch) :
  let log :=
    (run (init (b1 :: b2 :: rest))
       [EvOpen; EvGraceTimer; EvMessage connected]).2 in
  log = [Occurred EvOpen;
         Occurred EvGraceTimer; Performed (Send (HistoryBatch b1));
         Occurred (EvMessage connected); Performed (Send (HistoryBatch b2))]
  ∧ batches_sent log = [b1; b2]
  ∧ acks_received log = 0.
Proof. done. Qed.

(** The prepared batches of a history of 501 records are such a list. *)
Lemma demoBatches_two : ∃ b1 b2, demoBatches = [b1; b2].
Proof. eexists _, _. vm_compute. reflexivity. Qed.

(** The callback of the grace timer, on an open socket, before any welcome
    message was handled and before any batch was sent: the client marks
    itself connected and sends the first batch if there is one; with no
    batch the callback does nothing. *)
Lemma grace_timer_step (s : Session) (n : nat) :
  graceTimers s = S n →
  readyState s = OPEN →
  isConnected s = false →
  currentBatchIndex s = 0 →
  match batchesToSend s with
  | b :: _ =>
      (step EvGraceTimer s =
         (set_currentBatchIndex 1 (set_isConnected true (set_graceTimers n s)),
          [Send (HistoryBatch b)]))
  | [] => (step EvGraceTimer s = (set_graceTimers n s, []))
  end.
Proof.
  destruct s as [rs res con bs idx ack ucs uca chat arm g nb rt pr].
  cbn. intros -> -> -> ->. by destruct bs.
Qed.

(** Without batches and without a message of the server, no handler writes
    on the socket, and a promise that is settled is rejected. *)
Lemma step_without_batches (e : Event) (s : Session) :
  (∀ p, e ≠ EvMessage p) →
  batchesToSend s = [] → historyUploadCompleteSent s = false →
  (promise s = None ∨ ∃ f, promise s = Some (Rejected f)) →
  let s' := (step e s).1 in
  batchesToSend s' = [] ∧ historyUploadCompleteSent s' = false
  ∧ (promise s' = None ∨ ∃ f, promise s' = Some (Rejected f))
  ∧ sends (Performed <$> (step e s).2) = [].
Proof.
  intros Hmsg.
  destruct s as [rs res con bs idx ack ucs uca chat arm g nb rt pr].
  cbn [batchesToSend historyUploadCompleteSent promise].
  intros -> -> Hp.
  destruct e as [|p| | | | | |]; [|by destruct (Hmsg p)|..];
    crunch; cbn; split_and!; try done; eauto;
    destruct Hp as [->|[f ->]]; eauto.
Qed.

Lemma run_without_batches (evs : list Event) : ∀ s : Session,
  (∀ e, e ∈ evs → ∀ p, e ≠ EvMessage p) →
  batchesToSend s = [] → historyUploadCompleteSent s = false →
  (promise s = None ∨ ∃ f, promise s = Some (Rejected f)) →
  sends (run s evs).2 = []
  ∧ historyUploadCompleteSent (run s evs).1 = false
  ∧ (promise (run s evs).1 = None
     ∨ ∃ f, promise (run s evs).1 = Some (Rejected f)).
Proof.
  induction evs as [|e evs IH]; intros s Hevs Hb Hc Hp; [done|].
  rewrite run_cons. cbn [fst snd].
  destruct (step_without_batches e s) as (Hb' & Hc' & Hp' & Hs');
    [intros p; apply Hevs; by left|done..|].
  destruct (IH (step e s).1) as (Hs & Hc'' & Hp'');
    [intros e' He'; apply Hevs; by right|done..|].
  split; [|done].
  change (Occurred e :: ?l) with ([Occurred e] ++ l).
  unfold sends in *. rewrite !omap_app, Hs', Hs. done.
Qed.

(** C4.  The grace timer does not do for an empty upload what the welcome
    message does.  With no batch to send, as long as no message of the
    server is handled, whatever else happens (the socket opens, the grace
    timer fires, the five-minute timer fires, the socket fails or closes),
    the client writes nothing on the socket, [history_upload_complete] is
    not sent, and the promise is pending or rejected: the grace timer
    followed by the five-minute timer ends in the rejection
    [ConnectionTimeout].  The welcome message on the same session sends
    [history_upload_complete] at once, and with a batch to send the grace
    timer sends the first batch. *)
Theorem C4_grace_timer_stalls_without_batches (evs : list Event) :
  ((∀ e, e ∈ evs → ∀ p, e ≠ EvMessage p) →
     let r := run (init []) evs in
     sends r.2 = []
     ∧ historyUploadCompleteSent r.1 = false
     ∧ (promise r.1 = None ∨ ∃ f, promise r.1 = Some (Rejected f)))
  ∧ (run (init []) [EvOpen; EvGraceTimer; EvTimeout]).2
    = [Occurred EvOpen; Occurred EvGraceTimer; Occurred EvTimeout;
       Performed Close; Performed (Settle (Rejected ConnectionTimeout))]
  ∧ (run (init []) [EvOpen; EvMessage connected]).2
    = [Occurred EvOpen; Occurred (EvMessage connected);
       Performed (Send HistoryUploadComplete)]
  ∧ ∀ b batches,
      (run (init (b :: batches)) [EvOpen; EvGraceTimer]).2
      = [Occurred EvOpen; Occurred EvGraceTimer;
         Performed (Send (HistoryBatch b))].
Proof.
  split_and!; [|done|done|done].
  intros Hevs r. apply run_without_batches; try done. by left.
Qed.

(** From the start: the socket opens and the grace timer fires before any
    message. *)
Lemma grace_timer_from_start (batches : list Batch) :
  (run (init batches) [EvOpen; EvGraceTimer]).2 =
    match batches with
    | b :: _ => [Occurred EvOpen; Occurred EvGraceTimer;
                 Performed (Send (HistoryBatch b))]
    | [] => [Occurred EvOpen; Occurred EvGraceTimer]
    end.
Proof. by destruct batches. Qed.

(** Handling a message that is not a reply or an error never ends the
    session. *)
Lemma step_message_keeps_session (s : Session) (data : Data) :
  d_type data = Some "history_batch_ack"
  ∨ d_type data = Some "history_upload_complete_ack" →
  let s' := (step (EvMessage (Parsed data)) s).1 in
  let acts := (step (EvMessage (Parsed data)) s).2 in
  promise s' = promise s ∧ isResolved s' = isResolved s
  ∧ readyState s' = readyState s ∧ timeoutArmed s' = timeoutArmed s
  ∧ ∀ a, a ∈ acts → ∃ m, a = Send m.
Proof.
  intros Htype.
  assert (Hc : type_is data "connected" = false).
  { apply bool_decide_eq_false. destruct Htype as [-> | ->]; done. }
  destruct s as [rs res con bs idx ack ucs uca chat arm g nb rt pr].
  unfold step, onmessage. rewrite Hc.
  destruct Htype as [Ht|Ht].
  - replace (type_is data "history_batch_ack") with true
      by (symmetry; by apply bool_decide_eq_true).
    crunch; leaf; eauto.
  - replace (type_is data "history_batch_ack") with false
      by (symmetry; apply bool_decide_eq_false; rewrite Ht; done).
    replace (type_is data "history_upload_complete_ack") with true
      by (symmetry; by apply bool_decide_eq_true).
    crunch; leaf; eauto.
Qed.

(** C5 (as the code has it).  A message in the wrong state never ends the
    session, but only some are ignored: an unparsable text, a [chat_queued]
    notice, a message that no branch recognises and a repeated
    [history_upload_complete_ack] after the chat request was written leave
    the session as it was; a [history_batch_ack] is counted whatever the
    state, and with [history_upload_complete_ack] it leaves the promise, the
    socket and the timeout alone and at most writes on the socket. *)
Theorem C5_wrong_state_messages (s : Session) (data : Data) :
  step (EvMessage Malformed) s = (s, [])
  ∧ (d_type data = Some "chat_queued" →
       step (EvMessage (Parsed data)) s = (s, []))
  ∧ (unrecognised data → step (EvMessage (Parsed data)) s = (s, []))
  ∧ (d_type data = Some "history_upload_complete_ack" →
     historyUploadCompleteAcknowledged s = true →
     chatMessageSent s = true →
       step (EvMessage (Parsed data)) s = (s, []))
  ∧ (d_type data = Some "history_batch_ack" →
       totalBatchesAcknowledged (step (EvMessage (Parsed data)) s).1 =
         S (totalBatchesAcknowledged s))
  ∧ (d_type data = Some "history_batch_ack"
     ∨ d_type data = Some "history_upload_complete_ack" →
     let s' := (step (EvMessage (Parsed data)) s).1 in
     let acts := (step (EvMessage (Parsed data)) s).2 in
     promise s' = promise s ∧ isResolved s' = isResolved s
     ∧ readyState s' = readyState s ∧ timeoutArmed s' = timeoutArmed s
     ∧ ∀ a, a ∈ acts → ∃ m, a = Send m).
Proof.
  split_and!.
  - done.
  - intros Ht. unfold step, onmessage, type_is. rewrite Ht. done.
  - intros (H1 & H2 & H3 & H4 & Hr & He).
    unfold step, onmessage, type_is.
    rewrite !bool_decide_eq_false_2 by done. by rewrite Hr, He.
  - intros Ht Hack Hchat.
    destruct s as [rs res con bs idx ack ucs uca chat arm g nb rt pr].
    cbn in Hack, Hchat. subst.
    unfold step, onmessage, type_is. rewrite Ht. done.
  - intros Ht.
    destruct s as [rs res con bs idx ack ucs uca chat arm g nb rt pr].
    unfold step, onmessage, type_is. rewrite Ht.
    rewrite bool_decide_eq_false_2, bool_decide_eq_true_2 by done.
    crunch; done.
  - apply step_message_keeps_session.
Qed.

(** A second [history_upload_complete_ack] at the end of an upload of 501
    records. *)
Lemma C5_wrong_state_messages_witness :
  let s := (run (init demoBatches)
              [EvOpen; EvMessage connected; EvMessage history_batch_ack;
               EvNextBatchTimer; EvMessage history_batch_ack;
               EvMessage history_upload_complete_ack]).1 in
  let data := mkData (Some "history_upload_complete_ack") None None in
  (historyUploadCompleteAcknowledged s = true ∧ chatMessageSent s = true)
  ∧ step (EvMessage (Parsed data)) s = (s, []).
Proof.
  split.
  - vm_compute. done.
  - apply (C5_wrong_state_messages _
             (mkData (Some "history_upload_complete_ack") None None));
      vm_compute; reflexivity.
Defined.

(** A batch acknowledgment that answers no batch is not ignored.  Received
    before anything was sent, it is counted and arms a timer whose callback
    sends the first batch although no welcome message was handled; received
    once more after the upload was completed, it is counted again. *)
Lemma C5_stray_ack_changes_state :
  let s0 := (run (init demoBatches) [EvOpen]).1 in
  let s1 := (step (EvMessage history_batch_ack) s0).1 in
  let done_ := run (init demoBatches)
                 [EvOpen; EvMessage connected; EvMessage history_batch_ack;
                  EvNextBatchTimer; EvMessage history_batch_ack] in
  (batches_sent (run (init demoBatches) [EvOpen]).2 = []
   ∧ totalBatchesAcknowledged s0 = 0
   ∧ totalBatchesAcknowledged s1 = 1
   ∧ nextBatchTimers s1 = 1
   ∧ s1 ≠ s0
   ∧ batches_sent (Performed <$> (step EvNextBatchTimer s1).2)
       = take 1 demoBatches)
  ∧ (last done_.2 = Some (Performed (Send HistoryUploadComplete))
     ∧ totalBatchesAcknowledged done_.1 = 2
     ∧ totalBatchesAcknowledged
         (step (EvMessage history_batch_ack) done_.1).1 = 3).
Proof.
  split; split_and!; try (vm_compute; reflexivity).
  intros Heq. apply (f_equal totalBatchesAcknowledged) in Heq.
  vm_compute in Heq. discriminate Heq.
Qed.



(** The five-minute timer is never set again. *)
Lemma step_timeout_stable (e : Event) (s : Session) :
  timeoutArmed s = false → timeoutArmed (step e s).1 = false.
Proof.
  destruct s as [rs res con bs idx ack ucs uca chat arm g nb rt pr].
  cbn [timeoutArmed]. intros ->.
  destruct e as [|[|data]| | | | | |]; crunch; done.
Qed.

Lemma run_timeout_stable (evs : list Event) : ∀ s : Session,
  timeoutArmed s = false → timeoutArmed (run s evs).1 = false.
Proof.
  induction evs as [|e evs IH]; intros s Hp; [done|].
  rewrite run_cons. cbn [fst]. apply IH. by apply step_timeout_stable.
Qed.

Lemma step_settled_inv (e : Event) (s : Session) :
  settled_inv s → settled_inv (step e s).1.
Proof.
  destruct s as [rs res con bs idx ack ucs uca chat arm g nb rt pr].
  unfold settled_inv. cbn [timeoutArmed promise isResolved readyState].
  intros (H1 & H2 & H3).
  destruct e as [|[|data]| | | | | |]; revert H1 H2 H3; crunch;
    intros H1 H2 H3; split_and!; intros; try done; auto;
    try (discriminate (H2 eq_refl)); try (discriminate (H3 eq_refl)).
Qed.

Lemma run_settled_inv (batches : list Batch) (evs : list Event) :
  settled_inv (run (init batches) evs).1.
Proof.
  induction evs as [|e evs IH] using rev_ind.
  - unfold settled_inv. cbn. done.
  - rewrite run_app. cbn [fst]. rewrite run_cons. cbn [run fst].
    by apply step_settled_inv.
Qed.

Lemma terminal_step_settles (e : Event) (s : Session) :
  settled_inv s → terminal e = true →
  promise (step e s).1 ≠ None ∧ timeoutArmed (step e s).1 = false.
Proof.
  destruct s as [rs res con bs idx ack ucs uca chat arm g nb rt pr].
  unfold settled_inv. cbn [timeoutArmed promise isResolved readyState].
  intros (H1 & H2 & H3).
  destruct e as [|[|data]| | | | | |]; cbn [terminal]; try done;
    revert H1 H2 H3; crunch; intros H1 H2 H3 Ht; split; try done; auto;
    try (discriminate (H2 eq_refl)); try (discriminate (H3 eq_refl)).
Qed.





(** ** Enumeration *)

Lemma lt_irrefl (a : Js.number) : Js.lt a a = false.
Proof.
  destruct a as [| | |q]; try done. cbn.
  apply bool_decide_eq_false. apply (irreflexivity Qclt).
Qed.

Lemma lt_trans (a b c : Js.number) :
  Js.lt a b = true → Js.lt b c = true → Js.lt a c = true.
Proof.
  destruct a as [| | |p], b as [| | |q], c as [| | |r]; cbn; try done.
  rewrite !bool_decide_eq_true. apply Qclt_trans.
Qed.

Lemma lt_false_le (a b : Js.number) :
  Js.lt a b = false → Js.isNaN a = false → Js.isNaN b = false →
  Js.le b a = true.
Proof.
  destruct a as [| | |p], b as [| | |q]; cbn; try done.
  rewrite bool_decide_eq_false, bool_decide_eq_true. intros H _ _.
  by apply Qcnot_lt_le.
Qed.

Lemma findIndex_Some (u : option string) (items : list HistoryItem) (i : nat) :
  findIndex u items = Some i →
  ∃ h, items !! i = Some h ∧ url h = u.
Proof.
  revert i. induction items as [|h items IH]; intros i; cbn; [done|].
  case_bool_decide as Hu.
  - intros [= <-]. by exists h.
  - destruct (findIndex u items) as [j|]; [|done].
    intros [= <-]. by apply IH.
Qed.

Lemma findIndex_None (u : option string) (items : list HistoryItem) :
  findIndex u items = None → ∀ h, h ∈ items → url h ≠ u.
Proof.
  induction items as [|h items IH]; cbn; [by intros _ x ?%elem_of_nil|].
  case_bool_decide as Hu; [done|].
  destruct (findIndex u items) as [j|]; [done|].
  intros _ x [->|Hx]%elem_of_cons; [done|]. by apply IH.
Qed.

Lemma NoDup_fmap_elem_inj {A B} (f : A → B) (l : list A) (x y : A) :
  NoDup (f <$> l) → x ∈ l → y ∈ l → f x = f y → x = y.
Proof.
  intros Hnd [i Hi]%list_elem_of_lookup [j Hj]%list_elem_of_lookup Hf.
  assert (i = j) as ->; [|congruence].
  eapply NoDup_lookup; [exact Hnd| |].
  - rewrite list_lookup_fmap, Hi. done.
  - rewrite list_lookup_fmap, Hj. cbn. by rewrite Hf.
Qed.

Lemma merged_init : merged [] ([], ∅).
Proof.
  split_and!; cbn.
  - constructor.
  - by intros x ?%elem_of_nil.
  - intros u x Hx. by rewrite lookup_empty in Hx.
  - done.
  - by intros x ?%elem_of_nil.
Qed.

Lemma mergeItem_merged (seen : list HistoryItem) acc (item : HistoryItem) :
  merged seen acc → merged (seen ++ [item]) (mergeItem acc item).
Proof.
  destruct acc as [all m]. intros (Hnd & Hin & Hmap & Hsub & Hmax).
  cbn [fst snd] in *. unfold mergeItem, merged.
  destruct (m !! url item) as [existing|] eqn:Hlk.
  - destruct (Hmap _ _ Hlk) as [Hurl Hex].
    destruct (Js.lt_prop (lastVisitTime existing) (lastVisitTime item)) eqn:Hlt.
    + destruct (findIndex (url item) all) as [idx|] eqn:Hfi.
      2:{ exfalso. by apply (findIndex_None _ _ Hfi existing). }
      destruct (findIndex_Some _ _ _ Hfi) as (h & Hidx & Hh).
      assert (h = existing) as ->.
      { apply (NoDup_fmap_elem_inj url all); [done| |done|congruence].
        apply list_elem_of_lookup. eauto. }
      assert (Hurls : url <$> <[idx:=item]> all = url <$> all).
      { rewrite list_fmap_insert. apply list_insert_id.
        by rewrite list_lookup_fmap, Hidx, <- Hh. }
      assert (Hmem : ∀ x, x ∈ <[idx:=item]> all →
                x = item ∨ (x ∈ all ∧ url x ≠ url item)).
      { intros x [j Hj]%list_elem_of_lookup.
        destruct (decide (j = idx)) as [->|Hne].
        - rewrite list_lookup_insert_eq in Hj by (by eapply lookup_lt_Some).
          left. congruence.
        - rewrite list_lookup_insert_ne in Hj by done. right. split.
          + apply list_elem_of_lookup. eauto.
          + intros Heq. apply Hne.
            eapply (NoDup_lookup (url <$> all)); [done| |].
            * rewrite list_lookup_fmap, Hj. done.
            * rewrite list_lookup_fmap, Hidx. cbn. congruence. }
      assert (Hitem : item ∈ <[idx:=item]> all).
      { apply list_elem_of_lookup. exists idx.
        apply list_lookup_insert_eq. by eapply lookup_lt_Some. }
      cbn [fst snd]. split_and!.
      * by rewrite Hurls.
      * intros x [->|[Hx Hne]]%Hmem; [apply lookup_insert_eq|].
        rewrite lookup_insert_ne by done. by apply Hin.
      * intros u x. destruct (decide (url item = u)) as [<-|Hne].
        -- rewrite lookup_insert_eq. intros [= <-]. done.
        -- rewrite lookup_insert_ne by done. intros Hx.
           destruct (Hmap _ _ Hx) as [Hu Hxin]. split; [done|].
           destruct (list_elem_of_lookup_1 _ _ Hxin) as [j Hj].
           apply list_elem_of_lookup. exists j.
           rewrite list_lookup_insert_ne; [done|].
           intros <-. congruence.
      * intros x [->|[Hx _]]%Hmem; apply elem_of_app; [right; by left|].
        left. by apply Hsub.
      * intros x [Hx|Hx%list_elem_of_singleton]%elem_of_app.
        -- destruct (Hmax x Hx) as (r & Hr & Hrx).
           destruct (decide (url item = url x)) as [Heq|Hne].
           ++ exists item. rewrite <- Heq, lookup_insert_eq. split; [done|].
              rewrite <- Heq, Hlk in Hr. injection Hr as <-.
              destruct (Js.lt_prop (lastVisitTime item) (lastVisitTime x))
                eqn:Hix; [|done].
              unfold Js.lt_prop in *.
              by rewrite (lt_trans _ _ _ Hlt Hix) in Hrx.
           ++ exists r. by rewrite lookup_insert_ne.
        -- subst x. exists item. rewrite lookup_insert_eq. split; [done|].
           apply lt_irrefl.
    + split_and!; cbn [fst snd]; try done.
      * intros x Hx. apply elem_of_app. left. by apply Hsub.
      * intros x [Hx|Hx%list_elem_of_singleton]%elem_of_app; [by apply Hmax|].
        subst x. by exists existing.
  - assert (Hfresh : url item ∉ url <$> all).
    { intros (x & Hx1 & Hx2)%list_elem_of_fmap.
      apply Hin in Hx2. congruence. }
    cbn [fst snd]. split_and!.
    + rewrite fmap_app. apply NoDup_app. split_and!; [done| |].
      * intros u Hu Hu'%list_elem_of_singleton. by subst u.
      * cbn. apply NoDup_singleton.
    + intros x [Hx|Hx%list_elem_of_singleton]%elem_of_app; [|subst x].
      * rewrite lookup_insert_ne; [by apply Hin|].
        intros Heq. apply Hfresh. rewrite Heq. by apply list_elem_of_fmap_2.
      * apply lookup_insert_eq.
    + intros u x. destruct (decide (url item = u)) as [<-|Hne].
      * rewrite lookup_insert_eq. intros [= <-]. split; [done|].
        apply elem_of_app. right. by left.
      * rewrite lookup_insert_ne by done. intros Hx.
        destruct (Hmap _ _ Hx). split; [done|]. apply elem_of_app. by left.
    + intros x [Hx|Hx%list_elem_of_singleton]%elem_of_app; [|subst x]; apply elem_of_app.
      * left. by apply Hsub.
      * right. by left.
    + intros x [Hx|Hx%list_elem_of_singleton]%elem_of_app; [|subst x].
      * destruct (Hmax x Hx) as (r & Hr & Hrx). exists r.
        rewrite lookup_insert_ne; [done|]. congruence.
      * exists item. rewrite lookup_insert_eq. split; [done|]. apply lt_irrefl.
Qed.

Lemma mergeItems_merged (items : list HistoryItem) : ∀ seen acc,
  merged seen acc → merged (seen ++ items) (mergeItems acc items).
Proof.
  induction items as [|item items IH]; intros seen acc Hm; cbn.
  - by rewrite app_nil_r.
  - replace (seen ++ item :: items) with ((seen ++ [item]) ++ items)
      by (by rewrite <- app_assoc).
    apply IH. by apply mergeItem_merged.
Qed.

Lemma foldl_mergeItems_concat (parts : list (list HistoryItem)) : ∀ acc,
  foldl mergeItems acc parts = mergeItems acc (concat parts).
Proof.
  induction parts as [|p parts IH]; intros acc; cbn; [done|].
  rewrite IH. unfold mergeItems. by rewrite foldl_app.
Qed.

(** C8.  Merging partition results, from the empty state, keeps for every
    url found in them exactly one record, which is one of the records
    merged, and no record merged for that url has a later [lastVisitTime]
    than the one kept: when the times are numbers, the record kept has the
    largest. *)
Theorem C8_merge_keeps_latest (parts : list (list HistoryItem)) (x : HistoryItem) :
  let kept := (foldl mergeItems ([], ∅) parts).1 in
  x ∈ concat parts →
  NoDup (url <$> kept)
  ∧ ∃ r, r ∈ kept ∧ url r = url x ∧ r ∈ concat parts
         ∧ (∀ r', r' ∈ kept → url r' = url x → r' = r)
         ∧ ∀ y, y ∈ concat parts → url y = url x →
             Js.lt_prop (lastVisitTime r) (lastVisitTime y) = false
             ∧ (Js.isNaN (Js.to_number (lastVisitTime y)) = false →
                Js.isNaN (Js.to_number (lastVisitTime r)) = false →
                Js.le (Js.to_number (lastVisitTime y))
                      (Js.to_number (lastVisitTime r)) = true).
Proof.
  intros kept Hx. subst kept. rewrite foldl_mergeItems_concat.
  destruct (mergeItems_merged (concat parts) [] ([], ∅) merged_init)
    as (Hnd & Hin & Hmap & Hsub & Hmax).
  rewrite app_nil_l in Hsub, Hmax.
  split; [done|].
  destruct (Hmax x Hx) as (r & Hr & Hlt).
  destruct (Hmap _ _ Hr) as [Hurl Hrin].
  exists r. split_and!; try done.
  - by apply Hsub.
  - intros r' Hr' Hurl'.
    apply (NoDup_fmap_elem_inj url _ _ _ Hnd Hr' Hrin). congruence.
  - intros y Hy Hurly.
    destruct (Hmax y Hy) as (r' & Hr' & Hlt').
    rewrite Hurly, Hr in Hr'. injection Hr' as <-.
    split; [done|]. intros Hny Hnr. by apply lt_false_le.
Qed.

Section FetchFacts.

Context {St : Type}.
Variable search : Query → St → option (list HistoryItem) * St.

Lemma searchWithFallback_failure (text : string) (q fb : Query)
    (w : St * list Query) (σ : St) :
  search q w.1 = (None, σ) →
  searchWithFallback search text q fb w = (None, (σ, w.2 ++ [q])).
Proof.
  intros Hs. unfold searchWithFallback, bind, call, ret. by rewrite Hs.
Qed.

Lemma searchWithFallback_nonempty (text : string) (q fb : Query)
    (w : St * list Query) (items : list HistoryItem) (σ : St) :
  search q w.1 = (Some items, σ) → items ≠ [] →
  searchWithFallback search text q fb w = (Some items, (σ, w.2 ++ [q])).
Proof.
  intros Hs Hne. unfold searchWithFallback, bind, call, ret. rewrite Hs.
  by destruct items.
Qed.

(** One search issues the query, and the fallback query after it exactly
    when the answer is empty and the text blank. *)
Lemma searchWithFallback_log (text : string) (q fb : Query)
    (w : St * list Query) :
  let out := searchWithFallback search text q fb w in
  (out.2.2 = w.2 ++ [q]
   ∧ ((search q w.1).1 = Some [] → blank text = false))
  ∨ (out.2.2 = w.2 ++ [q; fb]
     ∧ (search q w.1).1 = Some [] ∧ blank text = true
     ∧ out.1 ≠ None).
Proof.
  unfold searchWithFallback, bind, call, ret. cbn.
  destruct (search q w.1) as [[items|] σ]; cbn.
  - destruct items as [|item items]; cbn.
    + destruct (blank text); cbn.
      * right. destruct (search fb σ) as [[f|] σ']; cbn;
          by rewrite <- app_assoc.
      * left. done.
    + left. done.
  - left. done.
Qed.

(** The answer of one search is an answer of the source to one of the two
    queries, or the empty list. *)
Lemma searchWithFallback_result (text : string) (q fb : Query)
    (w : St * list Query) (items : list HistoryItem) :
  (searchWithFallback search text q fb w).1 = Some items →
  items = [] ∨ ∃ q' σ, (q' = q ∨ q' = fb) ∧ (search q' σ).1 = Some items.
Proof.
  unfold searchWithFallback, bind, call, ret. cbn.
  destruct (search q w.1) as [[first|] σ1] eqn:Hs; cbn; [|done].
  destruct ((length first =? 0) && blank text); cbn.
  - destruct (search fb σ1) as [[f|] σ2] eqn:Hf; cbn; intros [= Heq]; subst.
    + right. exists fb, σ1. rewrite Hf. split; [by right|done].
    + by left.
  - intros [= Heq]. subst. right. exists q, w.1. rewrite Hs.
    split; [by left|done].
Qed.

(** One search, as [Calls] describes it. *)
Lemma searchWithFallback_calls (text : string) (q fb : Query)
    (w : St * list Query) :
  ∃ calls answer σ',
    searchWithFallback search text q fb w = (answer, (σ', w.2 ++ calls))
    ∧ Calls search text q fb w.1 calls answer σ'.
Proof.
  unfold searchWithFallback, bind, call, ret. cbn.
  destruct (search q w.1) as [[items|] σ1] eqn:Hs; cbn.
  - destruct (length items =? 0) eqn:Hlen; cbn.
    + apply Nat.eqb_eq, nil_length_inv in Hlen. subst items.
      destruct (blank text) eqn:Hb; cbn.
      * destruct (search fb σ1) as [answer σ2] eqn:Hf. cbn.
        exists [q; fb], (Some (default [] answer)), σ2. split.
        -- rewrite <- app_assoc. by destruct answer.
        -- by eapply fallback_called.
      * exists [q], (Some []), σ1. split; [done|]. by apply query_answered.
    + exists [q], (Some items), σ1. split; [done|].
      apply query_answered; [done|]. by intros ->.
  - exists [q], None, σ1. split; [done|]. by apply query_failed.
Qed.

(** The description of a search leaves no choice. *)
Lemma Calls_functional (text : string) (q fb : Query) (σ : St)
    (calls1 calls2 : list Query) (answer1 answer2 : option (list HistoryItem))
    (σ1 σ2 : St) :
  Calls search text q fb σ calls1 answer1 σ1 →
  Calls search text q fb σ calls2 answer2 σ2 →
  calls1 = calls2 ∧ answer1 = answer2 ∧ σ1 = σ2.
Proof.
  intros H1 H2.
  destruct H1 as [σa Ha|items σa Ha Hne|σa answer σb Ha Hb Hf];
    destruct H2 as [σc Hc|items' σc Hc Hne'|σc answer' σd Hc Hd Hf'];
    rewrite Ha in Hc; try done.
  - by injection Hc as ->.
  - by injection Hc as -> ->.
  - injection Hc as -> ->. by rewrite Hne in Hd.
  - injection Hc as <- ->. by rewrite Hne' in Hb.
  - injection Hc as ->. rewrite Hf in Hf'. by injection Hf' as -> ->.
Qed.

Lemma answers_app (σ : St) (l1 l2 : list Query) :
  answers search σ (l1 ++ l2)
  = answers search σ l1 ++ answers search (stateAfter search σ l1) l2.
Proof.
  revert σ. induction l1 as [|q l1 IH]; intros σ; [done|].
  cbn. by rewrite IH.
Qed.

Lemma stateAfter_app (σ : St) (l1 l2 : list Query) :
  stateAfter search σ (l1 ++ l2)
  = stateAfter search (stateAfter search σ l1) l2.
Proof.
  revert σ. induction l1 as [|q l1 IH]; intros σ; [done|]. cbn. by rewrite IH.
Qed.

Lemma length_answers (σ : St) (l : list Query) :
  length (answers search σ l) = length l.
Proof. revert σ. induction l as [|q l IH]; intros σ; [done|]. cbn. by rewrite IH. Qed.

(** What the source answered to the calls of one search: the items of the
    answer; a failed call is the last, and leaves no item. *)
Lemma Calls_answers (text : string) (q fb : Query) (σ : St)
    (calls : list Query) (answer : option (list HistoryItem)) (σ' : St) :
  Calls search text q fb σ calls answer σ' →
  stateAfter search σ calls = σ'
  ∧ concat (omap id (answers search σ calls)) = default [] answer
  ∧ ∀ j, answers search σ calls !! j = Some None →
      S j = length calls ∧ default [] answer = [].
Proof.
  intros [σa Ha|items σa Ha Hne|σa a σb Ha Hb Hf]; cbn; rewrite Ha; cbn.
  - split_and!; [done|done|]. by intros [|[|j]].
  - split_and!; [done|by rewrite app_nil_r|]. by intros [|[|j]].
  - rewrite Hf. cbn. split_and!; [done|by destruct a; cbn; rewrite ?app_nil_r|].
    intros [|[|j]]; cbn; try done. by intros [= ->].
Qed.

Section LoopFacts.

Variables (searchText : string) (shouldUseDateRange : bool)
  (calculatedStartTime calculatedEndTime : Z)
  (targetMaxResults numBatches timeChunkSize : Z).

Local Abbreviation loop := (fetchLoop search searchText shouldUseDateRange
  calculatedStartTime calculatedEndTime targetMaxResults numBatches
  timeChunkSize).
Local Abbreviation query := (batchQuery searchText shouldUseDateRange
  calculatedStartTime calculatedEndTime targetMaxResults numBatches
  timeChunkSize).
Local Abbreviation fallback := (batchFallbackQuery shouldUseDateRange
  calculatedStartTime calculatedEndTime targetMaxResults numBatches
  timeChunkSize).

(** A failing source call ends the loop: the items gathered so far are
    returned as they are and no further query is issued. *)
Lemma fetchLoop_failure (remaining : nat) (i : Z) (all : list HistoryItem)
    (urlMap : gmap (option string) HistoryItem) (w : St * list Query) (σ : St) :
  (Z.of_nat (length all) < targetMaxResults)%Z →
  (shouldUseDateRange = true →
   (batchStartTime calculatedStartTime timeChunkSize i
    < batchEndTime calculatedStartTime calculatedEndTime numBatches
        timeChunkSize i)%Z) →
  search (query i all) w.1 = (None, σ) →
  loop (S remaining) i all urlMap w = (all, (σ, w.2 ++ [query i all])).
Proof.
  intros Hlen Hwin Hs. cbn [fetchLoop].
  apply Z.ltb_lt in Hlen. rewrite Hlen. cbn [negb].
  assert (Hw : shouldUseDateRange
               && (batchEndTime calculatedStartTime calculatedEndTime
                     numBatches timeChunkSize i
                   <=? batchStartTime calculatedStartTime timeChunkSize i)%Z
               = false).
  { destruct shouldUseDateRange; [|done]. cbn.
    apply Z.leb_gt. by apply Hwin. }
  rewrite Hw. unfold bind.
  by rewrite (searchWithFallback_failure _ _ _ _ _ Hs).
Qed.

(** A round whose call answers a non-empty list: the answer is merged, and
    the loop stops if the answer is short, goes on otherwise. *)
Lemma fetchLoop_round (remaining : nat) (i : Z) (all : list HistoryItem)
    (urlMap : gmap (option string) HistoryItem) (w : St * list Query)
    (items : list HistoryItem) (σ : St) :
  (Z.of_nat (length all) < targetMaxResults)%Z →
  (shouldUseDateRange = true →
   (batchStartTime calculatedStartTime timeChunkSize i
    < batchEndTime calculatedStartTime calculatedEndTime numBatches
        timeChunkSize i)%Z) →
  search (query i all) w.1 = (Some items, σ) →
  items ≠ [] →
  loop (S remaining) i all urlMap w =
    if (Z.of_nat (length items) <? batchMaxResults targetMaxResults all)%Z
       && (Z.of_nat (length items) <? 5000)%Z
    then ((mergeItems (all, urlMap) items).1, (σ, w.2 ++ [query i all]))
    else loop remaining (i + 1)%Z (mergeItems (all, urlMap) items).1
           (mergeItems (all, urlMap) items).2 (σ, w.2 ++ [query i all]).
Proof.
  intros Hlen Hwin Hs Hne. cbn [fetchLoop].
  apply Z.ltb_lt in Hlen. rewrite Hlen. cbn [negb].
  assert (Hw : shouldUseDateRange
               && (batchEndTime calculatedStartTime calculatedEndTime
                     numBatches timeChunkSize i
                   <=? batchStartTime calculatedStartTime timeChunkSize i)%Z
               = false).
  { destruct shouldUseDateRange; [|done]. cbn.
    apply Z.leb_gt. by apply Hwin. }
  rewrite Hw. unfold bind.
  rewrite (searchWithFallback_nonempty _ _ _ _ _ _ Hs Hne).
  by destruct ((Z.of_nat (length items) <? _)%Z && _).
Qed.

(** The queries of the loop: at most two per round, each for a round
    [j] among those left. *)
Lemma fetchLoop_log (remaining : nat) : ∀ (i : Z) (all : list HistoryItem)
    (urlMap : gmap (option string) HistoryItem) (w : St * list Query),
  ∃ new, (loop remaining i all urlMap w).2.2 = w.2 ++ new
         ∧ length new ≤ 2 * remaining
         ∧ ∀ q, q ∈ new →
             ∃ j a, (i ≤ j < i + Z.of_nat remaining)%Z
                    ∧ (q = query j a ∨ q = fallback j a).
Proof.
  induction remaining as [|remaining IH]; intros i all urlMap w.
  - exists []. cbn. rewrite app_nil_r. split_and!; [done|done|].
    by intros q ?%elem_of_nil.
  - cbn [fetchLoop].
    destruct (negb (Z.of_nat (length all) <? targetMaxResults)%Z).
    { exists []. cbn. rewrite app_nil_r. split_and!; [done|lia|].
      by intros q ?%elem_of_nil. }
    destruct (shouldUseDateRange && _).
    { exists []. cbn. rewrite app_nil_r. split_and!; [done|lia|].
      by intros q ?%elem_of_nil. }
    unfold bind.
    pose proof (searchWithFallback_log searchText (query i all)
                  (fallback i all) w) as Hlog.
    destruct (searchWithFallback search searchText (query i all)
                (fallback i all) w) as [r w1] eqn:Hsf.
    cbn [fst snd] in Hlog.
    assert (Hfirst : ∃ first, w1.2 = w.2 ++ first ∧ length first ≤ 2
              ∧ ∀ q, q ∈ first → q = query i all ∨ q = fallback i all).
    { destruct Hlog as [[H1 _]|(H1 & _)].
      - exists [query i all]. split_and!; [done|cbn; lia|].
        intros q Hq%list_elem_of_singleton. subst q. by left.
      - exists [query i all; fallback i all]. split_and!; [done|cbn; lia|].
        intros q [Hq|Hq%list_elem_of_singleton]%elem_of_cons; subst q; auto. }
    destruct Hfirst as (first & Hw1 & Hlen1 & Hq1).
    assert (Hstop : ∀ res : list HistoryItem,
              ∃ new, (res, w1).2.2 = w.2 ++ new
                     ∧ length new ≤ 2 * S remaining
                     ∧ ∀ q, q ∈ new →
                         ∃ j a, (i ≤ j < i + Z.of_nat (S remaining))%Z
                                ∧ (q = query j a ∨ q = fallback j a)).
    { intros res. exists first. split_and!; [done|lia|].
      intros q Hq. exists i, all. split; [lia|]. by apply Hq1. }
    destruct r as [batchItems|]; [|apply Hstop].
    destruct (_ && _); [apply Hstop|].
    destruct (IH (i + 1)%Z
                (mergeItems (all, urlMap) batchItems).1
                (mergeItems (all, urlMap) batchItems).2 w1)
      as (new & Hnew & Hlen & Hq).
    exists (first ++ new). split_and!.
    + rewrite Hnew, Hw1. by rewrite app_assoc.
    + rewrite length_app. lia.
    + intros q [Hin|Hin]%elem_of_app.
      * exists i, all. split; [lia|]. by apply Hq1.
      * destruct (Hq q Hin) as (j & a & Hj & Hqj).
        exists j, a. split; [lia|done].
Qed.

(** The loop, as [Rounds] describes it. *)
Lemma fetchLoop_rounds (remaining : nat) : ∀ (i : Z) (all : list HistoryItem)
    (urlMap : gmap (option string) HistoryItem) (w : St * list Query),
  (i + Z.of_nat remaining = numBatches)%Z →
  ∃ calls,
    (loop remaining i all urlMap w).2.2 = w.2 ++ calls
    ∧ Rounds search searchText shouldUseDateRange calculatedStartTime
        calculatedEndTime targetMaxResults numBatches timeChunkSize
        i all urlMap w.1 calls
        (loop remaining i all urlMap w).1 (loop remaining i all urlMap w).2.1.
Proof.
  induction remaining as [|remaining IH]; intros i all urlMap w Hi.
  { exists []. cbn. rewrite app_nil_r. split; [done|].
    apply rounds_end. intros (Hlt & _). lia. }
  cbn [fetchLoop].
  destruct (Z.ltb_spec (Z.of_nat (length all)) targetMaxResults) as [Hlen|Hlen];
    cbn [negb].
  2: { exists []. cbn. rewrite app_nil_r. split; [done|].
       apply rounds_end. intros (_ & Hheld & _). lia. }
  destruct (shouldUseDateRange && _) eqn:Hwin.
  { exists []. cbn. rewrite app_nil_r. split; [done|].
    apply rounds_end. intros (_ & _ & Hw).
    apply andb_true_iff in Hwin as [Huse Hle%Z.leb_le].
    specialize (Hw Huse). lia. }
  assert (roundRuns shouldUseDateRange calculatedStartTime calculatedEndTime
            targetMaxResults numBatches timeChunkSize i all) as Hruns.
  { split_and!; [lia|done|]. intros Huse. rewrite Huse in Hwin.
    by apply Z.leb_gt in Hwin. }
  unfold bind.
  destruct (searchWithFallback_calls searchText (query i all) (fallback i all) w)
    as (calls & answer & σ' & Heq & Hcalls).
  rewrite Heq. destruct answer as [items|].
  - cbv zeta.
    destruct ((Z.of_nat (length items) <? _)%Z && _) eqn:Hshort.
    + exists calls. cbn. split; [done|].
      eapply rounds_short; [done|done|].
      apply andb_true_iff in Hshort as [H1%Z.ltb_lt H2%Z.ltb_lt]. by split.
    + destruct (IH (i + 1)%Z (mergeItems (all, urlMap) items).1
                  (mergeItems (all, urlMap) items).2 (σ', w.2 ++ calls))
        as (calls' & Hlog & Hr); [lia|].
      exists (calls ++ calls'). split.
      * rewrite Hlog. cbn. by rewrite app_assoc.
      * eapply rounds_next; [done|done| |exact Hr].
        intros [H1%Z.ltb_lt H2%Z.ltb_lt]. by rewrite H1, H2 in Hshort.
  - exists calls. cbn. split; [done|]. by eapply rounds_failed.
Qed.

(** The description of the rounds leaves no choice. *)
Lemma Rounds_functional (i : Z) (held : list HistoryItem)
    (urlMap : gmap (option string) HistoryItem) (σ : St)
    (calls1 calls2 : list Query) (held1 held2 : list HistoryItem)
    (σ1 σ2 : St) :
  Rounds search searchText shouldUseDateRange calculatedStartTime
    calculatedEndTime targetMaxResults numBatches timeChunkSize
    i held urlMap σ calls1 held1 σ1 →
  Rounds search searchText shouldUseDateRange calculatedStartTime
    calculatedEndTime targetMaxResults numBatches timeChunkSize
    i held urlMap σ calls2 held2 σ2 →
  calls1 = calls2 ∧ held1 = held2 ∧ σ1 = σ2.
Proof.
  intros H1. revert calls2 held2 σ2.
  induction H1 as [i held urlMap σ Hno
                  |i held urlMap σ calls σ' Hruns Hcalls
                  |i held urlMap σ calls items σ' Hruns Hcalls Hshort
                  |i held urlMap σ calls items σ' calls' held' σ'' Hruns Hcalls
                     Hlong Hrest IH];
    intros calls2 held2 σ2 H2; inversion H2; subst; try done;
    match goal with
    | Hc : Calls _ _ _ _ _ _ _ _ |- _ =>
        destruct (Calls_functional _ _ _ _ _ _ _ _ _ _ Hcalls Hc)
          as (? & ? & ?); simplify_eq
    end; try done.
  match goal with
  | Hr : Rounds _ _ _ _ _ _ _ _ _ _ _ _ _ _ _ |- _ =>
      destruct (IH _ _ _ Hr) as (-> & -> & ->)
  end.
  done.
Qed.

(** What the source answered during the rounds: the records held at the
    end are the merge of all the items delivered, and a failed call is the
    last call. *)
Lemma Rounds_answers (i : Z) (held : list HistoryItem)
    (urlMap : gmap (option string) HistoryItem) (σ : St)
    (calls : list Query) (held' : list HistoryItem) (σ' : St) :
  Rounds search searchText shouldUseDateRange calculatedStartTime
    calculatedEndTime targetMaxResults numBatches timeChunkSize
    i held urlMap σ calls held' σ' →
  stateAfter search σ calls = σ'
  ∧ held' = (mergeItems (held, urlMap)
               (concat (omap id (answers search σ calls)))).1
  ∧ ∀ j, answers search σ calls !! j = Some None → S j = length calls.
Proof.
  induction 1 as [i held urlMap σ Hno
                 |i held urlMap σ calls σ' Hruns Hcalls
                 |i held urlMap σ calls items σ' Hruns Hcalls Hshort
                 |i held urlMap σ calls items σ' calls' held' σ'' Hruns Hcalls
                    Hlong Hrest IH].
  - split_and!; [done|done|]. by intros j.
  - destruct (Calls_answers _ _ _ _ _ _ _ Hcalls) as (Hst & Hitems & Hfail).
    split_and!; [done|by rewrite Hitems|]. intros j Hj. by apply Hfail.
  - destruct (Calls_answers _ _ _ _ _ _ _ Hcalls) as (Hst & Hitems & Hfail).
    split_and!; [done|by rewrite Hitems|]. intros j Hj. by apply Hfail.
  - destruct (Calls_answers _ _ _ _ _ _ _ Hcalls) as (Hst & Hitems & Hfail).
    destruct IH as (Hst' & Hheld & Hfail').
    rewrite answers_app, stateAfter_app, Hst.
    split_and!; [done| |].
    + rewrite omap_app, concat_app, Hitems, Hheld. cbn [default from_option].
      unfold mergeItems, id. rewrite foldl_app.
      by destruct (foldl mergeItem (held, urlMap) items).
    + intros j Hj. rewrite length_app.
      destruct (decide (j < length calls)) as [Hlt|Hge].
      * rewrite lookup_app_l in Hj by (by rewrite length_answers).
        destruct (Hfail j Hj) as [_ Hempty]. cbn in Hempty. subst items.
        destruct Hlong. destruct Hruns as (_ & Hheld' & _).
        unfold shortAnswer, batchMaxResults, CHROME_API_LIMIT. cbn. lia.
      * rewrite lookup_app_r in Hj by (rewrite length_answers; lia).
        rewrite length_answers in Hj. apply Hfail' in Hj. lia.
Qed.

End LoopFacts.

Lemma enumerate_eq (env : Env) (params : Params) (σ : St) :
  enumerate search env params σ =
    ((fetchHistory search env params (σ, [])).1,
     (fetchHistory search env params (σ, [])).2.2).
Proof.
  unfold enumerate.
  by destruct (fetchHistory search env params (σ, [])) as [r [σ' queries]].
Qed.

Lemma numBatchesFor_spec (target : Z) :
  let n := numBatchesFor target in
  (CHROME_API_LIMIT * (n - 1) < target ≤ CHROME_API_LIMIT * n)%Z.
Proof.
  unfold numBatchesFor, CHROME_API_LIMIT. cbv zeta.
  pose proof (Z.div_mod (target + 10000 - 1) 10000 ltac:(lia)).
  pose proof (Z.mod_pos_bound (target + 10000 - 1) 10000 ltac:(lia)).
  lia.
Qed.



(** The bounds of a sub-window lie between the two ends of the range: the
    log lines of the loop format time values. *)
Lemma batch_dates_valid (start end_ n i : Z) :
  let chunk := ((end_ - start) / n)%Z in
  (start ≤ end_)%Z → (0 ≤ i < n)%Z →
  invalidDate start = false → invalidDate end_ = false →
  invalidDate (batchStartTime start chunk i) = false
  ∧ invalidDate (batchEndTime start end_ n chunk i) = false.
Proof.
  intros chunk Hle Hi Hs He.
  assert (0 ≤ chunk)%Z as Hc by (apply Z.div_pos; lia).
  assert (n * chunk ≤ end_ - start)%Z as Hn by (apply Z.mul_div_le; lia).
  unfold invalidDate, MAX_TIME_VALUE in *.
  apply Z.ltb_ge in Hs, He. unfold batchStartTime, batchEndTime.
  split; [|destruct (i =? n - 1)%Z]; apply Z.ltb_ge; nia.
Qed.

(** [fetchHistory], test by test. *)
Lemma fetchHistory_eq (env : Env) (params : Params) (w : St * list Query) :
  let target := targetFor (p_maxResults params) in
  let text := default "" (p_text params) in
  let range := timeRange env params text in
  let n := numBatchesFor target in
  fetchHistory search env params w =
    if negb (historyAvailable env) then (Returned [], w)
    else if logThrows env range then (Raised, w)
    else if rangeRefused env range then (Returned [], w)
    else if (target <=? CHROME_API_LIMIT)%Z then
      let out :=
        searchWithFallback search text
          (mkQuery text (Some range.1.1) (Some range.1.2) target)
          (if range.2
           then mkQuery " " (Some range.1.1) (Some range.1.2) target
           else mkQuery " " None None target) w in
      (match out.1 with
       | None => Raised
       | Some historyItems => Returned historyItems
       end, out.2)
    else
      let out :=
        fetchLoop search text range.2 range.1.1 range.1.2 target n
          ((range.1.2 - range.1.1) / n) (Z.to_nat n) 0 [] ∅ w in
      (Returned (take (Z.to_nat target) out.1), out.2).
Proof.
  intros target text range n.
  unfold fetchHistory, logThrows, rangeRefused, logDates.
  destruct (negb (historyAvailable env)); [done|].
  fold text. fold range. destruct range as [[s e] u].
  cbn [fst snd existsb]. rewrite !orb_false_r. fold target. fold n.
  assert ((if (target <=? CHROME_API_LIMIT)%Z
             then bind (searchWithFallback search text
                          (mkQuery text (Some s) (Some e) target)
                          (if u then mkQuery " " (Some s) (Some e) target
                           else mkQuery " " None None target))
                    (λ r, match r with
                          | None => ret Raised
                          | Some historyItems => ret (Returned historyItems)
                          end)
             else bind (fetchLoop search text u s e target n ((e - s) / n)
                          (Z.to_nat n) 0 [] ∅)
                    (λ allHistoryItems,
                       ret (Returned (take (Z.to_nat target)
                                        allHistoryItems)))) w
            = if (target <=? CHROME_API_LIMIT)%Z
              then (match (searchWithFallback search text
                             (mkQuery text (Some s) (Some e) target)
                             (if u then mkQuery " " (Some s) (Some e) target
                              else mkQuery " " None None target) w).1 with
                    | None => Raised
                    | Some historyItems => Returned historyItems
                    end,
                    (searchWithFallback search text
                       (mkQuery text (Some s) (Some e) target)
                       (if u then mkQuery " " (Some s) (Some e) target
                        else mkQuery " " None None target) w).2)
              else (Returned
                      (take (Z.to_nat target)
                         (fetchLoop search text u s e target n ((e - s) / n)
                            (Z.to_nat n) 0 [] ∅ w).1),
                    (fetchLoop search text u s e target n ((e - s) / n)
                       (Z.to_nat n) 0 [] ∅ w).2)) as Hrest.
  { destruct (target <=? CHROME_API_LIMIT)%Z; unfold bind, ret.
    - by destruct (searchWithFallback _ _ _ _ _) as [[items|] w'].
    - by destruct (fetchLoop _ _ _ _ _ _ _ _ _ _ _ _ _). }
  destruct u; cbn [andb].
  - destruct (e <=? s)%Z; cbn [orb].
    { by destruct (invalidDate s || invalidDate e). }
    destruct (now env <? s)%Z.
    { by destruct (invalidDate s || invalidDate (now env)). }
    destruct (invalidDate s || invalidDate e); [done|].
    exact Hrest.
  - destruct (invalidDate s || invalidDate e); [done|].
    exact Hrest.
Qed.

(** The slow path: no call at all, or the loop over the partitions, then
    the cut to the target. *)
Lemma fetchHistory_slow (env : Env) (params : Params) (w : St * list Query) :
  let target := targetFor (p_maxResults params) in
  let text := default "" (p_text params) in
  let range := timeRange env params text in
  let n := numBatchesFor target in
  let out := fetchLoop search text range.2 range.1.1 range.1.2 target n
               ((range.1.2 - range.1.1) / n) (Z.to_nat n) 0 [] ∅ w in
  (CHROME_API_LIMIT < target)%Z →
  fetchHistory search env params w = (Returned [], w)
  ∨ (fetchHistory search env params w = (Raised, w)
     ∧ historyAvailable env = true ∧ logThrows env range = true)
  ∨ (fetchHistory search env params w =
       (Returned (take (Z.to_nat target) out.1), out.2)
     ∧ historyAvailable env = true ∧ logThrows env range = false
     ∧ rangeRefused env range = false).
Proof.
  intros target text range n out Hbig. rewrite fetchHistory_eq.
  fold target text range n.
  destruct (historyAvailable env); cbn [negb]; [|by left].
  destruct (logThrows env range); [by right; left|].
  destruct (rangeRefused env range); [by left|].
  apply Z.leb_gt in Hbig. rewrite Hbig. by right; right.
Qed.

Lemma fetchHistory_slow_eq (env : Env) (params : Params) (w : St * list Query) :
  let target := targetFor (p_maxResults params) in
  let text := default "" (p_text params) in
  let range := timeRange env params text in
  let n := numBatchesFor target in
  let out := fetchLoop search text range.2 range.1.1 range.1.2 target n
               ((range.1.2 - range.1.1) / n) (Z.to_nat n) 0 [] ∅ w in
  (CHROME_API_LIMIT < target)%Z →
  historyAvailable env = true →
  logThrows env range = false →
  rangeRefused env range = false →
  fetchHistory search env params w =
    (Returned (take (Z.to_nat target) out.1), out.2).
Proof.
  intros target text range n out Hbig Hav Hlog Hvalid. rewrite fetchHistory_eq.
  fold target text range n. rewrite Hav, Hlog, Hvalid. cbn [negb].
  apply Z.leb_gt in Hbig. by rewrite Hbig.
Qed.

(** The run of the slow path, as [Rounds] describes it. *)
Lemma fetchHistory_rounds (env : Env) (params : Params) (σ : St) :
  let target := targetFor (p_maxResults params) in
  let text := default "" (p_text params) in
  let range := timeRange env params text in
  let n := numBatchesFor target in
  let chunk := ((range.1.2 - range.1.1) / n)%Z in
  (CHROME_API_LIMIT < target)%Z →
  historyAvailable env = true →
  logThrows env range = false →
  rangeRefused env range = false →
  ∃ calls held σ',
    fetchHistory search env params (σ, [])
    = (Returned (take (Z.to_nat target) held), (σ', calls))
    ∧ Rounds search text range.2 range.1.1 range.1.2 target n chunk
        0 [] ∅ σ calls held σ'.
Proof.
  intros target text range n chunk Hbig Hav Hlog Hvalid.
  rewrite fetchHistory_slow_eq by done. fold target text range n chunk.
  pose proof (numBatchesFor_spec target) as Hn. cbv zeta in Hn. fold n in Hn.
  destruct (fetchLoop_rounds text range.2 range.1.1 range.1.2 target n chunk
              (Z.to_nat n) 0 [] ∅ (σ, []))
    as (calls & Hlog' & Hrounds).
  { unfold CHROME_API_LIMIT in *. lia. }
  destruct (fetchLoop _ _ _ _ _ _ _ _ _ _ _ _ _) as [held [σ' log]].
  cbn [fst snd app] in *. subst log. by exists calls, held, σ'.
Qed.

End FetchFacts.

(** C9 (as the code has it).  An enumeration over several partitions does
    not raise when a call of the source fails; it raises only when a date
    that it logs before its first call is not a time value.  A failed call,
    the query of a round or its fallback query, is the last call of the
    enumeration, so that the partitions after it are not queried; and what
    the enumeration returns is the merge of the items that the calls
    delivered, cut to the target. *)
Theorem C9_failed_call_stops_enumeration {St : Type}
    (search : Query → St → option (list HistoryItem) * St)
    (env : Env) (params : Params) (σ : St) :
  let target := targetFor (p_maxResults params) in
  let range := timeRange env params (default "" (p_text params)) in
  let r := enumerate search env params σ in
  let received := answers search σ r.2 in
  (CHROME_API_LIMIT < target)%Z →
  (r.1 = Raised ↔ historyAvailable env = true ∧ logThrows env range = true)
  ∧ (∀ j, received !! j = Some None →
       S j = length r.2 ∧ ∃ items, r.1 = Returned items)
  ∧ (∀ items, r.1 = Returned items →
       items = take (Z.to_nat target)
                 (mergeItems ([], ∅) (concat (omap id received))).1).
Proof.
  intros target range r received Hbig. subst received r.
  rewrite enumerate_eq. cbn [fst snd].
  destruct (historyAvailable env) eqn:Hav.
  2: { rewrite fetchHistory_eq, Hav. cbn.
       split_and!; [by split; [|intros [? _]]|by intros j|].
       intros items [= <-]. by rewrite take_nil. }
  destruct (logThrows env range) eqn:Hlog.
  { rewrite fetchHistory_eq, Hav. fold range. rewrite Hlog. cbn.
    split_and!; [done|by intros j|done]. }
  destruct (rangeRefused env range) eqn:Href.
  { rewrite fetchHistory_eq, Hav. fold range. rewrite Hlog, Href. cbn.
    split_and!; [by split; [|intros [_ ?]]|by intros j|].
    intros items [= <-]. by rewrite take_nil. }
  destruct (fetchHistory_rounds search env params σ Hbig Hav Hlog Href)
    as (calls & held & σ' & -> & Hrounds).
  cbn [fst snd].
  destruct (Rounds_answers _ _ _ _ _ _ _ _ _ _ _ _ _ _ _ Hrounds)
    as (_ & -> & Hlast).
  split_and!.
  - by split; [|intros [_ ?]].
  - intros j Hj. split; [by apply Hlast|by eexists].
  - by intros items [= <-].
Qed.

(** C7 (as the code has it).  Without the history API, and with a time
    range that is empty or starts in the future, the enumerator issues no
    call and returns nothing; it raises, without a call, when a date that
    it logs is not a time value.  Otherwise, with a target of at most 10,000
    it runs one search for the target: its query, and the fallback query
    after it exactly when the query is answered with no item and the text is
    blank; it raises when the query fails.  With a larger target it runs
    the rounds described by [Rounds], and no others: at most
    ceil(target/10,000) rounds of at most two calls, each for at most 10,000
    records, for the sub-window of its round when a time range is in use
    and without time bounds otherwise; and it returns the records held at
    the end, cut to the target. *)
Theorem C7_enumeration_calls {St : Type}
    (search : Query → St → option (list HistoryItem) * St)
    (env : Env) (params : Params) (σ : St) :
  let target := targetFor (p_maxResults params) in
  let text := default "" (p_text params) in
  let range := timeRange env params text in
  let n := numBatchesFor target in
  let chunk := ((range.1.2 - range.1.1) / n)%Z in
  let r := enumerate search env params σ in
  (historyAvailable env = false → r = (Returned [], []))
  ∧ (historyAvailable env = true → logThrows env range = true →
     r = (Raised, []))
  ∧ (historyAvailable env = true → logThrows env range = false →
     rangeRefused env range = true → r = (Returned [], []))
  ∧ (historyAvailable env = true → logThrows env range = false →
     rangeRefused env range = false →
     ((target ≤ CHROME_API_LIMIT)%Z →
        let q := mkQuery text (Some range.1.1) (Some range.1.2) target in
        let fb :=
          if range.2
          then mkQuery " " (Some range.1.1) (Some range.1.2) target
          else mkQuery " " None None target in
        (∃ answer σ',
           Calls search text q fb σ r.2 answer σ'
           ∧ r.1 = match answer with
                   | Some items => Returned items
                   | None => Raised
                   end)
        ∧ ((∀ q' σ' items, (search q' σ').1 = Some items →
              (Z.of_nat (length items) ≤ q_maxResults q')%Z) →
           (0 ≤ target)%Z →
           ∀ items, r.1 = Returned items →
             (Z.of_nat (length items) ≤ target)%Z))
     ∧ ((CHROME_API_LIMIT < target)%Z →
        (∃ held σ',
           Rounds search text range.2 range.1.1 range.1.2 target n chunk
             0 [] ∅ σ r.2 held σ'
           ∧ r.1 = Returned (take (Z.to_nat target) held)
           ∧ ∀ calls held' σ'',
               Rounds search text range.2 range.1.1 range.1.2 target n chunk
                 0 [] ∅ σ calls held' σ'' →
               calls = r.2 ∧ held' = held)
        ∧ (CHROME_API_LIMIT * (n - 1) < target ≤ CHROME_API_LIMIT * n)%Z
        ∧ length r.2 ≤ 2 * Z.to_nat n
        ∧ (∀ q, q ∈ r.2 →
             (q_maxResults q ≤ CHROME_API_LIMIT)%Z
             ∧ if range.2
               then ∃ j, (0 ≤ j < n)%Z
                    ∧ q_startTime q = Some (range.1.1 + j * chunk)%Z
                    ∧ q_endTime q =
                        Some (if (j =? n - 1)%Z then range.1.2
                              else (range.1.1 + (j + 1) * chunk)%Z)
               else q_startTime q = None ∧ q_endTime q = None)
        ∧ ∀ items, r.1 = Returned items →
            (Z.of_nat (length items) ≤ target)%Z)).
Proof.
  intros target text range n chunk r. subst r. rewrite enumerate_eq.
  rewrite fetchHistory_eq. fold target text range n chunk. cbn [fst snd].
  split_and!.
  - by intros ->.
  - by intros -> ->.
  - by intros -> -> ->.
  - intros -> -> ->. cbn [negb]. split.
    + intros Hsmall. apply Z.leb_le in Hsmall. rewrite Hsmall.
      set (q := mkQuery text (Some range.1.1) (Some range.1.2) target).
      set (fb := if range.2 then _ else _).
      assert (Hfb : q_maxResults fb = target)
        by (subst fb; by destruct range.2).
      pose proof (searchWithFallback_result search text q fb (σ, [])) as Hres.
      destruct (searchWithFallback_calls search text q fb (σ, []))
        as (calls & answer & σ' & Heq & Hcalls).
      rewrite Heq in *. cbn [fst snd app] in *. split.
      * exists answer, σ'. split; [done|]. by destruct answer.
      * intros Hsrc Hpos items Hret.
        destruct answer as [found|]; [|done]. injection Hret as <-.
        destruct (Hres found eq_refl) as [->|(q' & σ0 & Hq' & Hans)];
          [cbn; lia|].
        apply Hsrc in Hans.
        destruct Hq' as [-> | ->]; [done|by rewrite Hfb in Hans].
    + intros Hbig. apply Z.leb_gt in Hbig as Hbig'. rewrite Hbig'.
      pose proof (numBatchesFor_spec target) as Hn. cbv zeta in Hn.
      fold n in Hn.
      destruct (fetchLoop_rounds search text range.2 range.1.1 range.1.2
                  target n chunk (Z.to_nat n) 0 [] ∅ (σ, []))
        as (calls & Hlog & Hrounds).
      { unfold CHROME_API_LIMIT in *. lia. }
      destruct (fetchLoop_log search text range.2 range.1.1 range.1.2 target n
                  chunk (Z.to_nat n) 0 [] ∅ (σ, []))
        as (new & Hnew & Hlen & Hq).
      cbn [fst snd app] in *. rewrite Hlog in *. subst new.
      split; [|split; [done|split; [done|split]]].
      * eexists _, _. split; [exact Hrounds|]. split; [done|].
        intros calls' held' σ'' Hother.
        by destruct (Rounds_functional _ _ _ _ _ _ _ _ _ _ _ _ _ _ _ _ _ _
                       Hother Hrounds) as (-> & -> & _).
      * intros q Hin. destruct (Hq q Hin) as (j & a & Hj & Hqj).
        assert (Hjn : (0 ≤ j < n)%Z) by lia.
        unfold batchQuery, batchFallbackQuery, batchMaxResults, batchStartTime,
          batchEndTime in Hqj.
        destruct range.2; destruct Hqj as [-> | ->]; cbn; (split; [lia|]);
          try done; by exists j.
      * intros items [= <-]. rewrite length_take.
        unfold CHROME_API_LIMIT in Hbig. lia.
Qed.

(** ** The enumeration on concrete sources *)

Lemma bits_inj : Inj (=) (=) bits.
Proof.
  intros p. induction p as [p IH|p IH|]; intros [q|q|]; cbn; try done.
  - intros [= H]. f_equal. by apply IH.
  - intros [= H]. by destruct p.
  - intros [= H]. f_equal. by apply IH.
  - intros [= H]. by destruct q.
Qed.

Lemma pageItem_url_inj (k k' : positive) (t t' : Z) :
  url (pageItem k t) = url (pageItem k' t') → k = k'.
Proof.
  cbn. intros [= H]. by apply bits_inj.
Qed.

Lemma windowPages_length (start : Z) (count : nat) :
  length (windowPages start count) = count.
Proof. unfold windowPages. by rewrite length_fmap, length_seq. Qed.

(** Items with fresh, pairwise distinct urls are appended in order. *)
Lemma mergeItems_fresh (items : list HistoryItem) : ∀ all urlMap,
  NoDup (url <$> items) →
  (∀ x, x ∈ items → urlMap !! url x = None) →
  (mergeItems (all, urlMap) items).1 = all ++ items.
Proof.
  induction items as [|item items IH]; intros all urlMap Hnd Hfresh.
  - cbn. by rewrite app_nil_r.
  - cbn. rewrite (Hfresh item) by (by left).
    apply NoDup_cons in Hnd as [Hnotin Hnd].
    change (foldl mergeItem ?a items) with (mergeItems a items).
    rewrite IH; [by rewrite <- app_assoc|done|].
    intros x Hx. rewrite lookup_insert_ne; [apply Hfresh; by right|].
    intros Heq. apply Hnotin. rewrite Heq. by apply list_elem_of_fmap_2.
Qed.

Lemma windowPages_elem (x : HistoryItem) (start : Z) (count : nat) :
  x ∈ windowPages start count →
  ∃ j, j < count
       ∧ x = pageItem (Z.to_pos (start * 10000 + Z.of_nat j + 1)) (start + 1).
Proof.
  unfold windowPages. intros (j & -> & Hj)%list_elem_of_fmap.
  apply elem_of_seq in Hj. exists j. split; [lia|done].
Qed.

Lemma windowPages_urls (start : Z) (count : nat) :
  (0 ≤ start)%Z → NoDup (url <$> windowPages start count).
Proof.
  intros Hstart. unfold windowPages. rewrite <- list_fmap_compose.
  apply NoDup_fmap_2_strong; [|apply NoDup_seq].
  intros i j _ _ Heq.
  apply (pageItem_url_inj _ _ (start + 1) (start + 1)) in Heq. lia.
Qed.

Lemma windowPages_two_windows :
  NoDup (url <$> (windowPages 0 (Z.to_nat 5000) ++ windowPages 500 1)).
Proof.
  rewrite fmap_app. apply NoDup_app. split_and!.
  - by apply windowPages_urls.
  - intros u (x & -> & Hx)%list_elem_of_fmap (y & Hu & Hy)%list_elem_of_fmap.
    apply windowPages_elem in Hx as (i & Hi & ->).
    apply windowPages_elem in Hy as (j & Hj & ->).
    apply pageItem_url_inj in Hu. lia.
  - by apply windowPages_urls.
Qed.

(** The enumeration over the two windows of the example: the pages of the
    first window, then the page of the second. *)
(** The slow path on the example. *)
Lemma windowSource_fetchHistory :
  fetchHistory windowSource demoEnv demoParams ((), []) =
    (Returned (take (Z.to_nat 20000)
       (fetchLoop windowSource "" true 0 1000 20000 2 500 2 0 [] ∅ ((), [])).1),
     (fetchLoop windowSource "" true 0 1000 20000 2 500 2 0 [] ∅ ((), [])).2).
Proof.
  rewrite fetchHistory_slow_eq by (vm_compute; done).
  done.
Qed.

(** Two rounds over two windows with answers [A] and [B] of distinct urls. *)
Lemma windowSource_fetchLoop (A B : list HistoryItem) :
  NoDup (url <$> A ++ B) → length A = Z.to_nat 5000 → length B = 1 →
  windowSource (mkQuery "" (Some 0%Z) (Some 500%Z) 10000) () = (Some A, ()) →
  windowSource (mkQuery "" (Some 500%Z) (Some 1000%Z) 10000) () = (Some B, ()) →
  fetchLoop windowSource "" true 0 1000 20000 2 500 2 0 [] ∅ ((), []) =
    (A ++ B, ((), [mkQuery "" (Some 0%Z) (Some 500%Z) 10000;
      mkQuery "" (Some 500%Z) (Some 1000%Z) 10000])).
Proof.
  intros Hnd HA HB Hs1 Hs2.
  assert (HAne : A ≠ []) by (intros ->; done).
  assert (HBne : B ≠ []) by (intros ->; done).
  assert (HmA : (mergeItems ([], ∅) A).1 = A).
  { rewrite mergeItems_fresh; [done| |by intros x _].
    rewrite fmap_app in Hnd. by apply NoDup_app in Hnd as (? & _). }
  assert (Hall : (mergeItems (A, (mergeItems ([], ∅) A).2) B).1 = A ++ B).
  { rewrite <- HmA at 1. rewrite <- surjective_pairing.
    unfold mergeItems. rewrite <- foldl_app.
    change (foldl mergeItem ([], ∅) (A ++ B))
      with (mergeItems ([], ∅) (A ++ B)).
    rewrite mergeItems_fresh; [done|done|by intros x _]. }
  rewrite (fetchLoop_round windowSource "" true 0 1000 20000 2 500 1 0 [] ∅
             ((), []) A ()); [|done|done|exact Hs1|done].
  replace ((Z.of_nat (length A) <? batchMaxResults 20000 [])%Z
           && (Z.of_nat (length A) <? 5000)%Z) with false
    by (rewrite HA; done).
  rewrite HmA. cbn [fst snd app].
  assert (Hq2 : batchQuery "" true 0 1000 20000 2 500 (0 + 1) A
                = mkQuery "" (Some 500%Z) (Some 1000%Z) 10000).
  { unfold batchQuery, batchMaxResults. rewrite HA. done. }
  rewrite (fetchLoop_round windowSource "" true 0 1000 20000 2 500 0 (0 + 1) A
             _ _ B ()); [|rewrite HA; done|done|by rewrite Hq2|done].
  replace ((Z.of_nat (length B) <? batchMaxResults 20000 A)%Z
           && (Z.of_nat (length B) <? 5000)%Z) with true
    by (unfold batchMaxResults; rewrite HA, HB; done).
  by rewrite Hall, Hq2.
Qed.

(** The enumeration over the two windows of the example: the pages of the
    first window, then the page of the second. *)
Lemma windowSource_enumerate :
  enumerate windowSource demoEnv demoParams () =
    (Returned (windowPages 0 (Z.to_nat 5000) ++ windowPages 500 1),
     [mkQuery "" (Some 0%Z) (Some 500%Z) 10000;
      mkQuery "" (Some 500%Z) (Some 1000%Z) 10000]).
Proof.
  rewrite enumerate_eq, windowSource_fetchHistory.
  rewrite (windowSource_fetchLoop (windowPages 0 (Z.to_nat 5000)) (windowPages 500 1)).
  - cbn [fst snd]. rewrite take_ge; [done|].
    rewrite length_app, !windowPages_length. lia.
  - apply windowPages_two_windows.
  - apply windowPages_length.
  - apply windowPages_length.
  - done.
  - done.
Qed.

(** The result of that enumeration is not sorted by last visit time. *)
Lemma windowSource_not_sorted :
  ¬ sorted_by_time_desc (windowPages 0 (Z.to_nat 5000) ++ windowPages 500 1).
Proof.
  intros Hsorted.
  specialize (Hsorted 0 (Z.to_nat 5000) (pageItem 1 1) (pageItem 5000001 501)).
  assert (Hf : Js.le (Js.to_number (lastVisitTime (pageItem 5000001 501)))
                 (Js.to_number (lastVisitTime (pageItem 1 1))) = false)
    by (vm_compute; done).
  rewrite Hsorted in Hf; [done|lia| |].
  - rewrite lookup_app_l by (rewrite windowPages_length; lia).
    unfold windowPages. rewrite list_lookup_fmap, lookup_seq_lt by lia.
    reflexivity.
  - rewrite lookup_app_r by (rewrite windowPages_length; lia).
    rewrite windowPages_length, Nat.sub_diag. reflexivity.
Qed.

(** The claim C7 fails on the code in three ways.  A target below the cap
    takes two calls when the history is empty; a target of 20,000 over a
    source with one page per window takes one call, not two; and the
    records gathered over two windows come out oldest window first. *)
Lemma C7_call_count_and_order_differ :
  length (enumerate emptySource demoEnv smallParams ()).2 = 2
  ∧ (Z.to_nat (numBatchesFor (targetFor (p_maxResults demoParams))) = 2
     ∧ length (enumerate sparseSource demoEnv demoParams ()).2 = 1)
  ∧ ∃ items, (enumerate windowSource demoEnv demoParams ()).1 = Returned items
             ∧ ¬ sorted_by_time_desc items.
Proof.
  split_and!; [vm_compute; reflexivity|vm_compute; reflexivity
              |vm_compute; reflexivity|].
  exists (windowPages 0 (Z.to_nat 5000) ++ windowPages 500 1). split.
  - rewrite windowSource_enumerate. reflexivity.
  - apply windowSource_not_sorted.
Qed.

(** The enumeration of 20,000 records over the sparse source: one round
    of one call, whose answer is short. *)
Lemma C7_enumeration_calls_witness :
  let r := enumerate sparseSource demoEnv demoParams () in
  let range := timeRange demoEnv demoParams "" in
  (historyAvailable demoEnv = true ∧ logThrows demoEnv range = false
   ∧ rangeRefused demoEnv range = false
   ∧ (CHROME_API_LIMIT < targetFor (p_maxResults demoParams))%Z)
  ∧ r.2 = [mkQuery "" (Some 0%Z) (Some 500%Z) 10000]
  ∧ ∃ held σ',
      Rounds sparseSource "" true 0 1000 20000 2 500 0 [] ∅ () r.2 held σ'
      ∧ r.1 = Returned (take (Z.to_nat 20000) held).
Proof.
  intros r range.
  assert (Hav : historyAvailable demoEnv = true) by reflexivity.
  assert (Hlog : logThrows demoEnv range = false) by reflexivity.
  assert (Href : rangeRefused demoEnv range = false) by reflexivity.
  assert (Hbig : (CHROME_API_LIMIT < targetFor (p_maxResults demoParams))%Z)
    by (vm_compute; reflexivity).
  split; [by split_and!|]. split; [vm_compute; reflexivity|].
  destruct (C7_enumeration_calls sparseSource demoEnv demoParams ())
    as (_ & _ & _ & Hruns).
  destruct (Hruns Hav Hlog Href) as [_ Hslow].
  destruct (Hslow Hbig) as ((held & σ' & Hrounds & Hret & _) & _).
  by exists held, σ'.
Defined.

(** The first window fails: the enumeration returns nothing and never asks
    for the second window, which the source would have answered. *)
Lemma C9_later_partitions_not_called :
  enumerate flakySource demoEnv demoParams () =
    (Returned [], [mkQuery "" (Some 0%Z) (Some 500%Z) 10000])
  ∧ flakySource (mkQuery "" (Some 500%Z) (Some 1000%Z) 10000) ()
    = (Some (windowPages 500 1), ())
  ∧ mkQuery "" (Some 500%Z) (Some 1000%Z) 10000
    ∉ (enumerate flakySource demoEnv demoParams ()).2.
Proof.
  split_and!; [vm_compute; reflexivity|vm_compute; reflexivity|].
  intros Hin. vm_compute in Hin. mem_inv Hin.
Qed.

(** The failing first round of the enumeration over the flaky source. *)
Lemma C9_failed_call_stops_enumeration_witness :
  let r := enumerate flakySource demoEnv demoParams () in
  (CHROME_API_LIMIT < targetFor (p_maxResults demoParams))%Z
  ∧ answers flakySource () r.2 = [None]
  ∧ length r.2 = 1
  ∧ r.1 = Returned [].
Proof.
  intros r.
  assert (Hbig : (CHROME_API_LIMIT < targetFor (p_maxResults demoParams))%Z)
    by (vm_compute; reflexivity).
  assert (Hans : answers flakySource () r.2 = [None])
    by (vm_compute; reflexivity).
  split; [exact Hbig|]. split; [exact Hans|].
  destruct (C9_failed_call_stops_enumeration flakySource demoEnv demoParams
              () Hbig) as (_ & Hlast & Hret).
  destruct (Hlast 0) as [Hlen [items Hitems]].
  { fold r. by rewrite Hans. }
  fold r in Hlen, Hitems, Hret. split; [by rewrite <- Hlen|].
  rewrite Hitems. f_equal. rewrite (Hret items Hitems), Hans. reflexivity.
Defined.

(** Two visits of one page in two partitions: the later one is kept. *)
Lemma C8_merge_keeps_latest_witness :
  visitA ∈ concat [[visitA; visitB]; [visitA']]
  ∧ (foldl mergeItems ([], ∅) [[visitA; visitB]; [visitA']]).1
    = [visitA'; visitB]
  ∧ ∃ r, r ∈ (foldl mergeItems ([], ∅) [[visitA; visitB]; [visitA']]).1
         ∧ url r = url visitA
         ∧ Js.lt_prop (lastVisitTime r) (lastVisitTime visitA') = false.
Proof.
  assert (Hin : visitA ∈ concat [[visitA; visitB]; [visitA']]) by (by left).
  split; [exact Hin|]. split; [vm_compute; reflexivity|].
  destruct (C8_merge_keeps_latest [[visitA; visitB]; [visitA']] visitA Hin)
    as (_ & r & Hr & Hurl & _ & _ & Hmax).
  exists r. split_and!; [assumption|assumption|].
  apply (Hmax visitA'); [|reflexivity].
  right. right. by left.
Defined.

(** ** The records prepared from an enumeration *)

(** Everything the records prepared for transmission are guaranteed to
    satisfy: there are no more of them than raw items; each has the url of
    its item, which is neither empty nor blank, the title or the empty
    string, a finite positive last visit time, and a visit count that is 0
    when the item has none and a non-negative integer unless the item's
    count is [Infinity]. *)
Lemma prepareHistory_contract (items : list HistoryItem) (e : Entry) :
  length (prepareHistory items) ≤ length items
  ∧ (e ∈ prepareHistory items →
     ∃ item, item ∈ items
       ∧ url item = Some (e_url e)
       ∧ e_url e ≠ "" ∧ Js.trim (e_url e) ≠ ""
       ∧ e_title e = Js.or_else (title item) ""
       ∧ lastVisitTime item = Some (last_visit_time e)
       ∧ Js.positive (last_visit_time e)
       ∧ match visitCount item with
         | None => visit_count e = Js.zero
         | Some Js.PosInf => visit_count e = Js.PosInf
         | Some _ => Js.nonneg_integer (visit_count e)
         end).
Proof.
  split; [apply prepareHistory_length|].
  intros (item & Hin & Hconv)%prepareHistory_elem.
  exists item. split; [done|]. by apply convertItem_Some.
Qed.

(** Items without a usable time or url are dropped, never sent with a time
    of zero. *)
Lemma prepareHistory_drops (items : list HistoryItem) (item : HistoryItem) :
  (lastVisitTime item = None
   ∨ (∃ t, lastVisitTime item = Some t ∧ Js.le t Js.zero = true)
   ∨ url item = None ∨ url item = Some "") →
  convertItem item = None
  ∧ ∀ e, e ∈ prepareHistory items → last_visit_time e ≠ Js.zero.
Proof.
  intros Hbad. split; [by apply convertItem_None|].
  intros e (it & Hin & Hconv)%prepareHistory_elem.
  apply convertItem_Some in Hconv as (_ & _ & _ & _ & _ & (q & -> & Hq) & _).
  intros [= ->]. by vm_compute in Hq.
Qed.

(** A visit count of [Infinity] is the one value that the normalisation
    does not turn into an integer: [Math.max] and [Math.floor] leave it as
    it is. *)
Lemma convertItem_keeps_infinite_count :
  prepareHistory [infiniteCountItem]
  = [mkEntry "https://example.org/" "Example" Js.PosInf
       (Js.of_Z 1700000000000)]
  ∧ ¬ Js.nonneg_integer Js.PosInf.
Proof.
  split; [vm_compute; reflexivity|apply posinf_not_integer].
Qed.

(** The raw items that [chatWithBackend] normalises: the result of
    [fetchHistory], or the empty list when it raised. *)
Lemma enumerate_bound {St : Type}
    (search : Query → St → option (list HistoryItem) * St)
    (env : Env) (params : Params) (σ : St) :
  let target := targetFor (p_maxResults params) in
  (0 ≤ target)%Z →
  ((target ≤ CHROME_API_LIMIT)%Z →
   ∀ q σ' items, (search q σ').1 = Some items →
     (Z.of_nat (length items) ≤ q_maxResults q)%Z) →
  (Z.of_nat (length (rawItems (enumerate search env params σ).1)) ≤ target)%Z.
Proof.
  intros target Hpos Hsrc. rewrite enumerate_eq, fetchHistory_eq.
  fold target.
  destruct (negb (historyAvailable env)); [cbn; lia|].
  destruct (logThrows _ _); [cbn; lia|].
  destruct (rangeRefused _ _); [cbn; lia|].
  destruct (Z.leb_spec target CHROME_API_LIMIT) as [Hsmall|Hbig].
  - specialize (Hsrc Hsmall). cbv zeta.
    match goal with |- context [searchWithFallback _ _ ?q0 ?fb0 _] =>
      set (q := q0); set (fb := fb0)
    end.
    assert (Hfb : q_maxResults fb = target)
      by (subst fb; by destruct (timeRange _ _ _).2).
    pose proof (searchWithFallback_result search (default "" (p_text params))
                  q fb (σ, [])) as Hres.
    destruct (searchWithFallback search _ q fb (σ, [])) as [[found|] w1];
      [|cbn; lia].
    cbn [fst rawItems].
    destruct (Hres found eq_refl) as [->|(q' & σ' & Hq' & Hans)]; [cbn; lia|].
    apply Hsrc in Hans. destruct Hq' as [-> | ->]; [done|by rewrite Hfb in Hans].
  - cbn [fst rawItems]. rewrite length_take. lia.
Qed.

(** C6.  The records prepared for transmission from an enumeration are at
    most targetCount; each has the url of a raw item, neither empty nor
    blank, the item's title or the empty string, a visit count that is a
    non-negative integer and is 0 when the item has none, and the item's
    last visit time, finite and strictly positive; and a raw item with no
    last visit time, a non-positive one, or no url or an empty one yields
    no record.  The source is taken to report at most [maxResults] items
    per call (needed below the cap) and no infinite visit count. *)
Theorem C6_prepared_records_contract {St : Type}
    (search : Query → St → option (list HistoryItem) * St)
    (env : Env) (params : Params) (σ : St) (e : Entry) (dropped : HistoryItem) :
  let target := targetFor (p_maxResults params) in
  let raw := rawItems (enumerate search env params σ).1 in
  (0 ≤ target)%Z →
  ((target ≤ CHROME_API_LIMIT)%Z →
   ∀ q σ' items, (search q σ').1 = Some items →
     (Z.of_nat (length items) ≤ q_maxResults q)%Z) →
  (∀ item, item ∈ raw → visitCount item ≠ Some Js.PosInf) →
  (Z.of_nat (length (prepareHistory raw)) ≤ target)%Z
  ∧ (e ∈ prepareHistory raw →
     e_url e ≠ "" ∧ Js.trim (e_url e) ≠ ""
     ∧ Js.nonneg_integer (visit_count e)
     ∧ Js.positive (last_visit_time e)
     ∧ ∃ item, item ∈ raw
         ∧ url item = Some (e_url e)
         ∧ e_title e = Js.or_else (title item) ""
         ∧ (visitCount item = None → visit_count e = Js.zero)
         ∧ lastVisitTime item = Some (last_visit_time e))
  ∧ ((lastVisitTime dropped = None
      ∨ (∃ t, lastVisitTime dropped = Some t ∧ Js.le t Js.zero = true)
      ∨ url dropped = None ∨ url dropped = Some "") →
     convertItem dropped = None).
Proof.
  intros target raw Hpos Hsrc Hfinite. split_and!.
  - pose proof (prepareHistory_length raw).
    pose proof (enumerate_bound search env params σ Hpos Hsrc). fold raw in H0.
    lia.
  - intros (item & Hin & Hconv)%prepareHistory_elem.
    apply convertItem_Some in Hconv
      as (Hurl & Hne & Htrim & Htitle & Htime & Hposi & Hcount).
    specialize (Hfinite item Hin).
    split_and!; try done.
    + destruct (visitCount item) as [[| | |q]|]; try done.
      rewrite Hcount. exists 0%Z. split; [lia|done].
    + exists item. split_and!; try done.
      intros Hnone. by rewrite Hnone in Hcount.
  - apply convertItem_None.
Qed.

(** The records prepared from the enumeration over the sparse source. *)
Lemma C6_prepared_records_contract_witness :
  let raw := rawItems (enumerate sparseSource demoEnv demoParams ()).1 in
  ((0 ≤ targetFor (p_maxResults demoParams))%Z
   ∧ raw = windowPages 0 1)
  ∧ (Z.of_nat (length (prepareHistory raw))
     ≤ targetFor (p_maxResults demoParams))%Z.
Proof.
  assert (Hraw : rawItems (enumerate sparseSource demoEnv demoParams ()).1
                 = windowPages 0 1) by (vm_compute; reflexivity).
  assert (Hpos : (0 ≤ targetFor (p_maxResults demoParams))%Z)
    by (vm_compute; discriminate).
  split; [split; [exact Hpos|exact Hraw]|].
  apply (C6_prepared_records_contract sparseSource demoEnv demoParams ()
           demoEntry visitA Hpos).
  - intros Hsmall. vm_compute in Hsmall. by destruct Hsmall.
  - rewrite Hraw. intros item Hin. apply windowPages_elem in Hin as (j & _ & ->).
    discriminate.
Defined.

(** ** Errors, provenance and windows of the enumeration *)

Section SourceFacts.

Context {St : Type}.
Variable search : Query → St → option (list HistoryItem) * St.

(** One search is rejected exactly when its first call fails. *)
Lemma searchWithFallback_None (text : string) (q fb : Query)
    (w : St * list Query) :
  (searchWithFallback search text q fb w).1 = None ↔ (search q w.1).1 = None.
Proof.
  unfold searchWithFallback, bind, call, ret. cbn.
  destruct (search q w.1) as [[items|] σ1]; cbn; [|done].
  destruct ((length items =? 0) && blank text); cbn; [|done].
  by destruct (search fb σ1) as [[f|] σ2].
Qed.

Lemma delivered_app (l l' : list Query) (x : HistoryItem) :
  delivered search l x → delivered search (l ++ l') x.
Proof.
  intros (q & σ & items & Hq & Hs & Hx). exists q, σ, items.
  split; [|done]. apply elem_of_app. by left.
Qed.

(** One search extends the log, and what it returns was delivered in
    answer to a query of the log. *)
Lemma searchWithFallback_delivered (text : string) (q fb : Query)
    (w : St * list Query) (items : list HistoryItem) :
  let out := searchWithFallback search text q fb w in
  (∃ new, out.2.2 = w.2 ++ new)
  ∧ (out.1 = Some items → ∀ x, x ∈ items → delivered search out.2.2 x).
Proof.
  unfold searchWithFallback, bind, call, ret. cbn.
  destruct (search q w.1) as [[first|] σ1] eqn:Hs; cbn.
  - destruct ((length first =? 0) && blank text); cbn.
    + destruct (search fb σ1) as [[f|] σ2] eqn:Hf; cbn.
      * split; [exists [q; fb]; by rewrite <- app_assoc|].
        intros [= <-] x Hx. exists fb, σ1, f. rewrite Hf.
        split; [|done]. rewrite !elem_of_app, !list_elem_of_singleton. auto.
      * split; [exists [q; fb]; by rewrite <- app_assoc|].
        intros [= <-] x Hx. by apply elem_of_nil in Hx.
    + split; [by exists [q]|].
      intros [= <-] x Hx. exists q, w.1, first. rewrite Hs.
      split; [|done]. rewrite elem_of_app, list_elem_of_singleton. auto.
  - split; [by exists [q]|done].
Qed.

Section LoopInvariant.

Variables (searchText : string) (shouldUseDateRange : bool)
  (calculatedStartTime calculatedEndTime : Z)
  (targetMaxResults numBatches timeChunkSize : Z).

Local Abbreviation loop := (fetchLoop search searchText shouldUseDateRange
  calculatedStartTime calculatedEndTime targetMaxResults numBatches
  timeChunkSize).

(** The loop keeps the array and the map merged, over items that were all
    delivered by the source. *)
Lemma fetchLoop_merged (remaining : nat) : ∀ (i : Z) (all : list HistoryItem)
    (urlMap : gmap (option string) HistoryItem) (w : St * list Query)
    (seen : list HistoryItem),
  merged seen (all, urlMap) →
  (∀ x, x ∈ seen → delivered search w.2 x) →
  let out := loop remaining i all urlMap w in
  (∃ new, out.2.2 = w.2 ++ new)
  ∧ ∃ seen' urlMap',
      merged seen' (out.1, urlMap')
      ∧ ∀ x, x ∈ seen' → delivered search out.2.2 x.
Proof.
  induction remaining as [|remaining IH]; intros i all urlMap w seen Hm Hd.
  { cbn. split; [exists []; by rewrite app_nil_r|]. by exists seen, urlMap. }
  cbn [fetchLoop].
  destruct (negb _).
  { cbn. split; [exists []; by rewrite app_nil_r|]. by exists seen, urlMap. }
  destruct (shouldUseDateRange && _).
  { cbn. split; [exists []; by rewrite app_nil_r|]. by exists seen, urlMap. }
  unfold bind.
  match goal with |- context [searchWithFallback _ ?t ?q ?f w] =>
    pose proof (searchWithFallback_delivered t q f w) as Hsw;
    destruct (searchWithFallback search t q f w) as [r w1] eqn:Hout
  end.
  cbn [fst snd] in Hsw.
  destruct r as [items|].
  - destruct (Hsw items) as [[new Hnew] Hitems].
    specialize (Hitems eq_refl).
    pose proof (mergeItems_merged items seen (all, urlMap) Hm) as Hm'.
    assert (∀ x, x ∈ seen ++ items → delivered search w1.2 x) as Hd'.
    { intros x [Hx|Hx]%elem_of_app; [|by apply Hitems].
      rewrite Hnew. by apply delivered_app, Hd. }
    cbv zeta.
    destruct (mergeItems (all, urlMap) items) as [all' urlMap'] eqn:Hmi.
    cbn [fst snd].
    destruct (_ && _).
    + cbn. split; [by exists new|].
      by exists (seen ++ items), urlMap'.
    + destruct (IH (i + 1)%Z all' urlMap' w1 (seen ++ items) Hm' Hd')
        as [[new' Hnew'] Hrest].
      split; [|done]. exists (new ++ new').
      by rewrite Hnew', Hnew, <- app_assoc.
  - cbn. destruct (Hsw []) as [[new Hnew] _].
    split; [by exists new|]. exists seen, urlMap. split; [done|].
    intros x Hx. rewrite Hnew. by apply delivered_app, Hd.
Qed.

End LoopInvariant.

End SourceFacts.

(** X1.  [fetchHistory] rejects in two cases only: a date that it logs
    before its first call is not a time value; or the dates are time
    values, the time range passes the checks, the request fits one call, and
    that first call fails.  A failure of the fallback call, or of any call
    of the loop over sub-windows, never rejects. *)
Theorem fetchHistory_raises_iff {St : Type}
    (search : Query → St → option (list HistoryItem) * St)
    (env : Env) (params : Params) (w : St * list Query) :
  let target := targetFor (p_maxResults params) in
  let text := default "" (p_text params) in
  let range := timeRange env params text in
  (fetchHistory search env params w).1 = Raised
  ↔ historyAvailable env = true
    ∧ (logThrows env range = true
       ∨ (logThrows env range = false
          ∧ rangeRefused env range = false
          ∧ (target ≤ CHROME_API_LIMIT)%Z
          ∧ (search (mkQuery text (Some range.1.1) (Some range.1.2) target)
               w.1).1 = None)).
Proof.
  intros target text range. rewrite fetchHistory_eq.
  fold target text range.
  destruct (historyAvailable env); cbn [negb];
    [|split; [done|by intros [? _]]].
  destruct (logThrows env range).
  { cbn. split; [intros _; split; [done|by left]|done]. }
  destruct (rangeRefused env range).
  { cbn. split; [done|]. by intros (_ & [?|(_ & ? & _)]). }
  destruct (Z.leb_spec target CHROME_API_LIMIT) as [Hle|Hgt].
  - cbv zeta. cbn [fst].
    rewrite <- (searchWithFallback_None search text _
      (if range.2 then mkQuery " " (Some range.1.1) (Some range.1.2) target
       else mkQuery " " None None target) w).
    destruct (searchWithFallback _ _ _ _ _).1 as [items|].
    + split; [done|]. by intros (_ & [?|(_ & _ & _ & ?)]).
    + split; [|done]. intros _. split; [done|]. by right.
  - cbn. split; [done|]. intros (_ & [?|(_ & _ & ? & _)]); [done|lia].
Qed.



(** X3.  The items returned by an enumeration of more than 10,000
    records have distinct urls; and such an enumeration does return when
    the dates that it logs are time values. *)
Theorem large_enumeration_has_distinct_urls {St : Type}
    (search : Query → St → option (list HistoryItem) * St)
    (env : Env) (params : Params) (σ : St) :
  let r := enumerate search env params σ in
  let range := timeRange env params (default "" (p_text params)) in
  (CHROME_API_LIMIT < targetFor (p_maxResults params))%Z →
  (logThrows env range = false → ∃ items, r.1 = Returned items)
  ∧ (∀ items, r.1 = Returned items → NoDup (url <$> items)).
Proof.
  intros r range Hbig. subst r. rewrite enumerate_eq. cbn [fst snd].
  destruct (fetchHistory_slow search env params (σ, []) Hbig)
    as [->|[(-> & _ & Hthrows)|(-> & _)]]; cbn [fst snd].
  { split; [by eexists|]. intros items [= <-]. constructor. }
  { fold range in Hthrows. split; [by rewrite Hthrows|done]. }
  split; [by eexists|]. intros items [= <-].
  match goal with |- context [fetchLoop _ ?a ?b ?c ?d ?e ?f ?g ?h ?i ?j ?k ?w] =>
    pose proof (fetchLoop_merged search a b c d e f g h i j k w []
                  merged_init) as Hl;
    destruct (fetchLoop search a b c d e f g h i j k w) as [all w1] eqn:Hout
  end.
  cbn [fst snd] in *.
  destruct Hl as [_ (seen' & urlMap' & Hm & Hd)].
  { by intros ? ?%elem_of_nil. }
  destruct Hm as (Hnd & _). cbn [fst] in Hnd.
  rewrite fmap_take. exact (sublist_NoDup _ _ Hnd (sublist_take _ _)).
Qed.

Lemma large_enumeration_has_distinct_urls_witness :
  (CHROME_API_LIMIT < targetFor (p_maxResults demoParams))%Z
  ∧ logThrows demoEnv (timeRange demoEnv demoParams "") = false
  ∧ ∃ items, (enumerate sparseSource demoEnv demoParams ()).1 = Returned items
             ∧ NoDup (url <$> items).
Proof.
  assert (Hbig : (CHROME_API_LIMIT < targetFor (p_maxResults demoParams))%Z)
    by done.
  assert (Hlog : logThrows demoEnv (timeRange demoEnv demoParams "") = false)
    by done.
  split; [exact Hbig|]. split; [exact Hlog|].
  destruct (large_enumeration_has_distinct_urls sparseSource demoEnv
              demoParams () Hbig) as [Hret Hnd].
  destruct (Hret Hlog) as [items Hitems].
  exists items. split; [done|]. by apply Hnd.
Defined.

(** X4.  The sub-windows of an enumeration over [n] rounds partition the
    time range: the first starts where the range starts, the last ends
    where it ends, each one ends where the next starts, and every instant
    of the range lies in exactly one of them. *)
Theorem sub_windows_partition_the_range (start end_ n t : Z) :
  let chunk := ((end_ - start) / n)%Z in
  let first := batchStartTime start chunk in
  let last := batchEndTime start end_ n chunk in
  (1 ≤ n)%Z → (start ≤ t < end_)%Z →
  first 0%Z = start
  ∧ last (n - 1)%Z = end_
  ∧ (∀ j, (0 ≤ j < n - 1)%Z → last j = first (j + 1)%Z)
  ∧ ∃ j, (0 ≤ j < n)%Z ∧ (first j ≤ t < last j)%Z
         ∧ ∀ j', (0 ≤ j' < n)%Z → (first j' ≤ t < last j')%Z → j' = j.
Proof.
  intros chunk first last Hn Ht. subst first last.
  unfold batchStartTime, batchEndTime.
  assert (0 ≤ chunk)%Z as Hc0 by (apply Z.div_pos; lia).
  assert (n * chunk ≤ end_ - start)%Z as Hlow by (apply Z.mul_div_le; lia).
  split; [lia|]. split; [by rewrite Z.eqb_refl|].
  split.
  { intros j Hj. destruct (Z.eqb_spec j (n - 1)); lia. }
  destruct (Z.eq_dec chunk 0%Z) as [Hz|Hnz].
  - exists (n - 1)%Z. rewrite Z.eqb_refl. split; [lia|]. split; [nia|].
    intros j' Hj'. destruct (Z.eqb_spec j' (n - 1)); [done|]. nia.
  - set (k := ((t - start) / chunk)%Z).
    assert (chunk * k ≤ t - start < chunk * (k + 1))%Z as Hk.
    { split; [apply Z.mul_div_le; lia|].
      rewrite Z.mul_add_distr_l, Z.mul_1_r.
      pose proof (Z.mod_pos_bound (t - start) chunk ltac:(lia)).
      pose proof (Z.div_mod (t - start) chunk ltac:(lia)). subst k. lia. }
    assert (0 ≤ k)%Z by (apply Z.div_pos; lia).
    exists (Z.min k (n - 1)).
    split; [lia|]. split.
    + destruct (Z.eqb_spec (Z.min k (n - 1)) (n - 1)) as [He|Hne]; [nia|].
      assert (Z.min k (n - 1) = k) as -> by lia. nia.
    + intros j' Hj'. destruct (Z.eqb_spec j' (n - 1)) as [->|Hne'].
      * intros Hw. assert (n - 1 ≤ k)%Z by nia. lia.
      * intros Hw. assert (j' = k) by nia. lia.
Qed.

(** Three rounds over [0, 1000): the last window is [666, 1000). *)
Lemma sub_windows_partition_the_range_witness :
  batchStartTime 0 333 2 = 666%Z ∧ batchEndTime 0 1000 3 333 2 = 1000%Z
  ∧ ∃ j, (0 ≤ j < 3)%Z
      ∧ (batchStartTime 0 ((1000 - 0) / 3) j ≤ 999
         < batchEndTime 0 1000 3 ((1000 - 0) / 3) j)%Z.
Proof.
  split; [done|]. split; [done|].
  destruct (sub_windows_partition_the_range 0 1000 3 999
              ltac:(lia) ltac:(lia))
    as (_ & _ & _ & j & Hj & Hw & _).
  by exists j.
Defined.

(** X5.  When the time range holds fewer milliseconds than the
    enumeration has rounds, and its two ends are time values, the first
    sub-window is empty: the loop stops at once, and the result is empty
    without any call to the source. *)
Theorem range_shorter_than_rounds_is_empty {St : Type}
    (search : Query → St → option (list HistoryItem) * St)
    (env : Env) (params : Params) (σ : St) :
  let target := targetFor (p_maxResults params) in
  let range := timeRange env params (default "" (p_text params)) in
  (CHROME_API_LIMIT < target)%Z →
  range.2 = true →
  (range.1.2 - range.1.1 < numBatchesFor target)%Z →
  logThrows env range = false →
  enumerate search env params σ = (Returned [], []).
Proof.
  intros target range Hbig Huse Hshort Hvalid.
  rewrite enumerate_eq.
  destruct (fetchHistory_slow search env params (σ, []) Hbig)
    as [->|[(_ & _ & Hthrows)|(-> & _)]]; [done| |].
  { fold range in Hthrows. by rewrite Hvalid in Hthrows. }
  fold target. fold range. rewrite Huse.
  pose proof (numBatchesFor_spec target) as Hn. cbv zeta in Hn.
  destruct (Z.to_nat (numBatchesFor target)) as [|remaining] eqn:Hrem.
  { unfold CHROME_API_LIMIT in *. lia. }
  cbn [fetchLoop].
  assert (negb (Z.of_nat (length (@nil HistoryItem)) <? target)%Z = false)
    as ->.
  { apply negb_false_iff, Z.ltb_lt. cbn. unfold CHROME_API_LIMIT in Hbig. lia. }
  assert ((batchEndTime range.1.1 range.1.2 (numBatchesFor target)
             ((range.1.2 - range.1.1) `div` numBatchesFor target) 0
           <=? batchStartTime range.1.1
                 ((range.1.2 - range.1.1) `div` numBatchesFor target) 0)%Z
          = true) as ->; [|cbn; by rewrite take_nil].
  apply Z.leb_le. unfold batchEndTime, batchStartTime.
  destruct (Z.eqb_spec 0 (numBatchesFor target - 1)) as [He|Hne].
  { unfold CHROME_API_LIMIT in *. lia. }
  destruct (Z_lt_le_dec (range.1.2 - range.1.1) 0) as [Hneg|Hpos].
  - assert ((range.1.2 - range.1.1) `div` numBatchesFor target < 0)%Z.
    { apply Z.div_lt_upper_bound; unfold CHROME_API_LIMIT in *; lia. }
    lia.
  - rewrite Z.div_small by lia. lia.
Qed.

(** Up to 100,000 records of the last 5 ms: ten rounds, no call. *)
Lemma range_shorter_than_rounds_is_empty_witness :
  ((CHROME_API_LIMIT < targetFor (p_maxResults shortParams))%Z
   ∧ timeRange demoEnv shortParams "" = (995%Z, 1000%Z, true)
   ∧ numBatchesFor (targetFor (p_maxResults shortParams)) = 10%Z
   ∧ logThrows demoEnv (timeRange demoEnv shortParams "") = false)
  ∧ enumerate sparseSource demoEnv shortParams () = (Returned [], []).
Proof.
  split; [done|].
  by apply (range_shorter_than_rounds_is_empty sparseSource demoEnv
              shortParams ()).
Defined.

(** ** Sessions: completion, messages written once, the socket *)

Lemma sends_app (l1 l2 : list LogItem) : sends (l1 ++ l2) = sends l1 ++ sends l2.
Proof. apply omap_app. Qed.

Lemma step_batch_ack (s : Session) :
  step (EvMessage history_batch_ack) s = onBatchAck s.
Proof. done. Qed.

Lemma step_upload_complete_ack (s : Session) :
  step (EvMessage history_upload_complete_ack) s = onUploadCompleteAck s.
Proof. done. Qed.

Lemma step_reply (s : Session) (reply : string) :
  reply ≠ "" →
  step (EvMessage (reply_message reply)) s = onReply reply s.
Proof. intros Hr. by destruct reply. Qed.

Lemma step_error_message (s : Session) (e : string) :
  e ≠ "" →
  step (EvMessage (error_message e)) s = onErrorMessage e s.
Proof. intros Hr. by destruct e. Qed.

Lemma run_welcome (b : Batch) (rest : list Batch) :
  run (init (b :: rest)) [EvOpen; EvMessage connected]
  = (uploading (b :: rest) 1,
     [Occurred EvOpen; Occurred (EvMessage connected);
      Performed (Send (HistoryBatch b))]).
Proof. done. Qed.

(** An acknowledgment and the timer it sets write the next batch. *)
Lemma run_ackRound (batches : list Batch) (a : nat) (b : Batch) :
  batches !! S a = Some b →
  run (uploading batches (S a)) ackRound
  = (uploading batches (S (S a)),
     [Occurred (EvMessage history_batch_ack); Occurred EvNextBatchTimer;
      Performed (Send (HistoryBatch b))]).
Proof.
  intros Hb. pose proof (lookup_lt_Some _ _ _ Hb) as Hlt.
  unfold ackRound. rewrite !run_cons, step_batch_ack.
  unfold uploading. cbn [run].
  crunch; nat_tests; try lia; try congruence.
  all: cbn; rewrite ?Nat.sub_0_r; congruence.
Qed.

Lemma run_ackRounds (batches : list Batch) (k : nat) : ∀ a,
  S a + k ≤ length batches →
  let out := run (uploading batches (S a)) (concat (replicate k ackRound)) in
  out.1 = uploading batches (S a + k)
  ∧ sends out.2 = HistoryBatch <$> take k (drop (S a) batches).
Proof.
  induction k as [|k IH]; intros a Hle.
  { cbn. by rewrite Nat.add_0_r. }
  destruct (lookup_lt_is_Some_2 batches (S a)) as [b Hb]; [lia|].
  cbn [replicate concat]. rewrite run_app, (run_ackRound _ _ _ Hb).
  cbn [fst snd]. destruct (IH (S a)) as [Hs Hl]; [lia|].
  split.
  - rewrite Hs. f_equal. lia.
  - rewrite sends_app, Hl. cbn [sends omap list_omap app].
    rewrite (drop_S _ _ _ Hb). done.
Qed.

Lemma step_last_ack (batches : list Batch) (a : nat) :
  length batches = S a →
  step (EvMessage history_batch_ack) (uploading batches (S a))
  = (completing batches false false, [Send HistoryUploadComplete]).
Proof.
  intros Hlen. rewrite step_batch_ack. unfold uploading, completing.
  rewrite Hlen. crunch; nat_tests; try lia.
  all: cbn; by rewrite ?Nat.sub_0_r.
Qed.

Lemma step_complete_ack (batches : list Batch) :
  step (EvMessage history_upload_complete_ack) (completing batches false false)
  = (completing batches true true, [Send Chat]).
Proof. done. Qed.

Lemma step_first_reply (batches : list Batch) (reply : string) :
  reply ≠ "" →
  step (EvMessage (reply_message reply)) (completing batches true true)
  = (mkSession CLOSING true true batches (length batches) (length batches)
       true true true false 1 0 0 (Some (Resolved reply)),
     [Close; Settle (Resolved reply)]).
Proof. intros Hr. by rewrite step_reply. Qed.

Lemma run_last_ack (batches : list Batch) (a : nat) (reply : string) :
  length batches = S a → reply ≠ "" →
  let out := run (uploading batches (S a))
               [EvMessage history_batch_ack;
                EvMessage history_upload_complete_ack;
                EvMessage (reply_message reply)] in
  sends out.2 = [HistoryUploadComplete; Chat]
  ∧ promise out.1 = Some (Resolved reply)
  ∧ timeoutArmed out.1 = false
  ∧ readyState out.1 = CLOSING
  ∧ last out.2 = Some (Performed (Settle (Resolved reply))).
Proof.
  intros Hlen Hr. rewrite run_cons, (step_last_ack _ _ Hlen). cbn [fst snd].
  rewrite run_cons, step_complete_ack. cbn [fst snd].
  rewrite run_cons, (step_first_reply _ _ Hr). cbn [fst snd]. done.
Qed.

Lemma run_no_batches (reply : string) :
  reply ≠ "" →
  let out := run (init []) (cooperative 0 reply) in
  sends out.2 = [HistoryUploadComplete; Chat]
  ∧ promise out.1 = Some (Resolved reply)
  ∧ timeoutArmed out.1 = false
  ∧ readyState out.1 = CLOSING
  ∧ last out.2 = Some (Performed (Settle (Resolved reply))).
Proof.
  intros Hr. unfold cooperative. cbn [Nat.eqb Nat.sub replicate concat app].
  rewrite !run_cons. cbn [run].
  change (step EvOpen (init [])) with
    (mkSession OPEN false false [] 0 0 false false false true 1 0 0 None,
     @nil Action).
  cbn [fst snd].
  change (step (EvMessage connected)
            (mkSession OPEN false false [] 0 0 false false false true 1 0 0 None))
    with (completing [] false false, [Send HistoryUploadComplete]).
  cbn [fst snd]. rewrite step_complete_ack. cbn [fst snd].
  rewrite (step_first_reply _ _ Hr). cbn [fst snd]. done.
Qed.

(** X7.  With a server that follows the protocol, a session comes to its
    end: the client writes every prepared batch once, in order, then the
    completion signal, then the chat request, and nothing else; the promise
    is resolved with the reply, the five-minute timer is cleared and the
    socket is closing. *)
Theorem cooperative_session_completes (batches : list Batch) (reply : string) :
  reply ≠ "" →
  let out := run (init batches) (cooperative (length batches) reply) in
  sends out.2 = (HistoryBatch <$> batches) ++ [HistoryUploadComplete; Chat]
  ∧ promise out.1 = Some (Resolved reply)
  ∧ timeoutArmed out.1 = false
  ∧ readyState out.1 = CLOSING
  ∧ last out.2 = Some (Performed (Settle (Resolved reply))).
Proof.
  intros Hr. destruct batches as [|b rest]; [by apply run_no_batches|].
  cbn [length]. unfold cooperative.
  cbn [Nat.eqb]. rewrite Nat.sub_succ, Nat.sub_0_r.
  change ([EvMessage history_batch_ack] ++ ?l)
    with (EvMessage history_batch_ack :: l).
  rewrite run_app, run_welcome. cbn [fst snd].
  rewrite run_app.
  destruct (run_ackRounds (b :: rest) (length rest) 0) as [Hs Hl];
    [cbn; lia|].
  rewrite Hs. cbn [fst snd].
  destruct (run_last_ack (b :: rest) (length rest) reply)
    as (Hsends & Hp & Ht & Hr' & Hlast); [done|done|].
  replace (1 + length rest) with (S (length rest)) by lia.
  split_and!; [|done|done|done|].
  - rewrite !sends_app, Hl, Hsends. cbn [sends omap list_omap app].
    change (drop 1 (b :: rest)) with rest. by rewrite firstn_all.
  - rewrite !last_app, Hlast. done.
Qed.

(** The upload of 501 records in two batches. *)
Lemma cooperative_session_completes_witness :
  let out := run (init demoBatches) (cooperative (length demoBatches) "done") in
  length demoBatches = 2
  ∧ sends out.2 = (HistoryBatch <$> demoBatches) ++ [HistoryUploadComplete; Chat]
  ∧ promise out.1 = Some (Resolved "done").
Proof.
  intros out. split; [by vm_compute|].
  destruct (cooperative_session_completes demoBatches "done" ltac:(done))
    as (Hs & Hp & _).
  by split.
Defined.

(** What one event does to the two flags and the two signals. *)
Lemma step_signals (e : Event) (s : Session) :
  let s' := (step e s).1 in
  let acts := Performed <$> (step e s).2 in
  (historyUploadCompleteSent s = true →
     historyUploadCompleteSent s' = true ∧ completes_sent acts = 0)
  ∧ completes_sent acts ≤ 1
  ∧ (completes_sent acts = 1 → historyUploadCompleteSent s' = true)
  ∧ (chatMessageSent s = true →
       chatMessageSent s' = true ∧ chats_sent acts = 0)
  ∧ chats_sent acts ≤ 1
  ∧ (chats_sent acts = 1 → chatMessageSent s' = true).
Proof.
  destruct s as [rs res con bs idx ack ucs uca chat arm g nb rt pr].
  destruct e as [|[|data]| | | | | |]; crunch;
    cbn; split_and!; intros; try done; try lia;
    repeat case_decide; try done; cbn; lia.
Qed.

Lemma completes_sent_step (e : Event) (l1 l2 : list LogItem) :
  completes_sent (Occurred e :: l1 ++ l2) = completes_sent l1 + completes_sent l2.
Proof.
  unfold completes_sent. rewrite filter_cons, decide_False by done.
  by rewrite filter_app, length_app.
Qed.

Lemma chats_sent_step (e : Event) (l1 l2 : list LogItem) :
  chats_sent (Occurred e :: l1 ++ l2) = chats_sent l1 + chats_sent l2.
Proof.
  unfold chats_sent. rewrite filter_cons, decide_False by done.
  by rewrite filter_app, length_app.
Qed.

(** X8.  Whatever the events of a session, the batches written are the
    first batches of the prepared list, in order, so that no batch is
    written twice or out of turn; and the completion signal and the chat
    request are each written at most once. *)
Theorem signals_written_once (batches : list Batch) (evs : list Event) :
  let log := (run (init batches) evs).2 in
  batches_sent log `prefix_of` batches
  ∧ completes_sent log ≤ 1
  ∧ chats_sent log ≤ 1.
Proof.
  intros log. split.
  { destruct (run_invariant batches evs) as (_ & Hsent & _).
    subst log. rewrite Hsent. apply prefix_take. }
  subst log. generalize (init batches). intros s.
  enough (completes_sent (run s evs).2 ≤ 1
          ∧ (historyUploadCompleteSent s = true →
             completes_sent (run s evs).2 = 0)
          ∧ chats_sent (run s evs).2 ≤ 1
          ∧ (chatMessageSent s = true → chats_sent (run s evs).2 = 0))
    as (? & _ & ? & _) by done.
  revert s. induction evs as [|e evs IH]; intros s;
    [cbn; split_and!; intros; lia|].
  rewrite run_cons. cbn [snd].
  destruct (step_signals e s) as (Hc1 & Hc2 & Hc3 & Hm1 & Hm2 & Hm3).
  destruct (IH (step e s).1) as (IHc1 & IHc2 & IHm1 & IHm2).
  rewrite completes_sent_step, chats_sent_step.
  split_and!.
  - destruct (decide (completes_sent (Performed <$> (step e s).2) = 1))
      as [H1|H1]; [rewrite IHc2 by auto|]; lia.
  - intros Hs. destruct (Hc1 Hs) as [Hs' H0]. rewrite H0, IHc2 by done. done.
  - destruct (decide (chats_sent (Performed <$> (step e s).2) = 1))
      as [H1|H1]; [rewrite IHm2 by auto|]; lia.
  - intros Hs. destruct (Hm1 Hs) as [Hs' H0]. rewrite H0, IHm2 by done. done.
Qed.

(** What one event does to the socket, and where a batch is written. *)
Lemma step_socket (e : Event) (s : Session) :
  let s' := (step e s).1 in
  let acts := (step e s).2 in
  (readyState s' = OPEN → readyState s = OPEN ∨ e = EvOpen)
  ∧ (closing (readyState s) = true → closing (readyState s') = true)
  ∧ (readyState s = CLOSED → readyState s' = CLOSED)
  ∧ (Close ∈ acts → closing (readyState s') = true)
  ∧ (e = EvClose → readyState s' = CLOSED)
  ∧ (∀ b, Send (HistoryBatch b) ∈ acts →
       readyState s = OPEN ∧ e ≠ EvClose ∧ e ≠ EvOpen
       ∧ acts = [Send (HistoryBatch b)]).
Proof.
  destruct s as [rs res con bs idx ack ucs uca chat arm g nb rt pr].
  destruct e as [|[|data]| | | | | |]; crunch; cbn [closing]; leaf; auto.
Qed.

Lemma run_socket (batches : list Batch) (evs : list Event) :
  let s := (run (init batches) evs).1 in
  let log := (run (init batches) evs).2 in
  (readyState s = OPEN → Occurred EvOpen ∈ log)
  ∧ (Performed Close ∈ log → closing (readyState s) = true)
  ∧ (Occurred EvClose ∈ log → readyState s = CLOSED).
Proof.
  induction evs as [|e evs IH] using rev_ind.
  - cbn. split_and!; [done|by intros ?%elem_of_nil..].
  - rewrite run_app. cbn [fst snd].
    destruct IH as (Hopen & Hclose & Hclosed).
    set (s := (run (init batches) evs).1) in *.
    set (log := (run (init batches) evs).2) in *.
    rewrite run_cons. cbn [run fst snd]. rewrite app_nil_r.
    destruct (step_socket e s) as (H1 & H2 & H3 & H4 & H5 & _).
    split_and!.
    + intros Ho. rewrite elem_of_app, elem_of_cons.
      destruct (H1 Ho) as [?| ->]; auto.
    + rewrite elem_of_app, elem_of_cons, list_elem_of_fmap.
      intros [Hin|[?|(a & [= <-] & Ha)]]; [auto|done|auto].
    + rewrite elem_of_app, elem_of_cons, list_elem_of_fmap.
      intros [Hin|[Heq|(a & ? & Ha)]]; [auto|apply H5; congruence|done].
Qed.

(** X9.  A batch is written to an open socket only: before it, in the
    history of the session, the socket opened, and it has neither been
    closed by the client nor reported as closed. *)
Theorem batches_only_on_open_socket (batches : list Batch) (evs : list Event)
    (l1 l2 : list LogItem) (b : Batch) :
  (run (init batches) evs).2 = l1 ++ Performed (Send (HistoryBatch b)) :: l2 →
  Occurred EvOpen ∈ l1
  ∧ ¬ (Occurred EvClose ∈ l1)
  ∧ ¬ (Performed Close ∈ l1).
Proof.
  intros Hlog.
  apply run_performed_inv in Hlog
    as (evs1 & e & evs2 & acts1 & acts2 & -> & Hstep & ->).
  destruct (run_socket batches evs1) as (Hopen & Hclose & Hclosed).
  destruct (step_socket e (run (init batches) evs1).1)
    as (_ & _ & _ & _ & _ & Hb).
  destruct (Hb b) as (Hrs & Hne & Hno & Hacts).
  { rewrite Hstep. apply elem_of_app. right. by left. }
  rewrite Hacts in Hstep.
  assert (acts1 = []) as ->.
  { destruct acts1 as [|a [|a' acts1]]; [done|by destruct acts2|].
    by destruct acts1. }
  cbn [fmap list_fmap]. rewrite !elem_of_app, !list_elem_of_singleton.
  split_and!.
  - left. auto.
  - intros [Hin|Heq]; [|congruence]. rewrite (Hclosed Hin) in Hrs. done.
  - intros [Hin|?]; [|done]. apply Hclose in Hin. by rewrite Hrs in Hin.
Qed.

(** The first batch of one record, written on the welcome message. *)
Lemma batches_only_on_open_socket_witness :
  let l1 := [Occurred EvOpen; Occurred (EvMessage connected)] in
  (run (init (prepareBatches [demoEntry])) [EvOpen; EvMessage connected]).2
  = l1 ++ [Performed (Send (HistoryBatch (mkBatch [demoEntry] 1 1)))]
  ∧ Occurred EvOpen ∈ l1
  ∧ ¬ (Performed Close ∈ l1).
Proof.
  intros l1.
  assert ((run (init (prepareBatches [demoEntry]))
             [EvOpen; EvMessage connected]).2
          = l1 ++ Performed (Send (HistoryBatch (mkBatch [demoEntry] 1 1)))
                  :: []) as Hlog by done.
  split; [exact Hlog|].
  destruct (batches_only_on_open_socket _ _ _ _ _ Hlog) as (Ho & _ & Hc).
  by split.
Defined.

(** X10.  While the promise of a session is pending, each of the events
    that end it settles it with the outcome of that event: a reply resolves
    it with the text of the reply, an error message rejects it with the
    text of the error, and a socket error, the closing of the socket and the
    five-minute timer reject it each with its own error. *)
Theorem pending_promise_outcome (batches : list Batch) (evs : list Event)
    (reply error : string) :
  let s := (run (init batches) evs).1 in
  promise s = None →
  (reply ≠ "" →
     promise (step (EvMessage (reply_message reply)) s).1
     = Some (Resolved reply))
  ∧ (error ≠ "" →
       promise (step (EvMessage (error_message error)) s).1
       = Some (Rejected (BackendError error)))
  ∧ promise (step EvError s).1 = Some (Rejected ConnectionError)
  ∧ promise (step EvClose s).1 = Some (Rejected ClosedBeforeResponse)
  ∧ promise (step EvTimeout s).1 = Some (Rejected ConnectionTimeout).
Proof.
  intros s Hp. pose proof (run_settled_inv batches evs) as Hinv.
  fold s in Hinv. clearbody s.
  destruct s as [rs res con bs idx ack ucs uca chat arm g nb rt pr].
  unfold settled_inv in Hinv.
  cbn [timeoutArmed promise isResolved readyState] in *. subst pr.
  destruct Hinv as (H1 & H2 & H3).
  assert (arm = true) as -> by (destruct arm; [done|by destruct H1]).
  assert (res = false) as -> by (destruct res; [by specialize (H2 eq_refl)|done]).
  assert (rs ≠ CLOSED) as Hrs by (intros ->; by specialize (H3 eq_refl)).
  split_and!.
  - intros Hr. rewrite (step_reply _ _ Hr). by destruct rs.
  - intros He. rewrite (step_error_message _ _ He). by destruct rs.
  - done.
  - by destruct rs.
  - by destruct rs.
Qed.

Lemma pending_promise_outcome_witness :
  let s := (run (init demoBatches) [EvOpen; EvMessage connected]).1 in
  promise s = None
  ∧ promise (step (EvMessage (reply_message "done")) s).1
    = Some (Resolved "done")
  ∧ promise (step EvClose s).1 = Some (Rejected ClosedBeforeResponse).
Proof.
  intros s.
  assert (promise s = None) as Hp by done.
  destruct (pending_promise_outcome demoBatches [EvOpen; EvMessage connected]
              "done" "x" Hp) as (Hr & _ & _ & Hc & _).
  split; [exact Hp|]. split; [by apply Hr|exact Hc].
Defined.

(** ** The requests served by the worker *)

Lemma or_default_nonzero (x : option Z) (d : Z) :
  d ≠ 0%Z → Worker.or_default x d ≠ 0%Z.
Proof.
  intros Hd. unfold Worker.or_default. destruct x as [v|]; [|done].
  by destruct (Z.eqb_spec v 0).
Qed.

(** The limit that [chatWithBackend] passes on is at most 100,000 and is
    not zero, so [fetchHistory] uses it as it is. *)
Lemma cappedMaxResults_bounds (st : Storage) (override : option Z) :
  let m := Worker.cappedMaxResults st override in
  (m ≤ 100000)%Z ∧ m ≠ 0%Z ∧ targetFor (Some m) = m.
Proof.
  intros m. subst m. unfold Worker.cappedMaxResults.
  set (x := Worker.or_default override _).
  assert (x ≠ 0%Z) as Hx.
  { subst x. by apply or_default_nonzero, or_default_nonzero. }
  assert (Z.min x 100000 ≠ 0)%Z by lia.
  split_and!; [lia|done|]. unfold targetFor.
  by destruct (Z.eqb_spec (Z.min x 100000) 0).
Qed.

(** Every batch holds between 1 and 500 records. *)
Lemma prepareBatches_sizes (hist : list Entry) (b : Batch) :
  b ∈ prepareBatches hist → 1 ≤ length (history b) ≤ BATCH_SIZE.
Proof.
  destruct (decide (hist = [])) as [->|Hne]; [by intros ?%elem_of_nil|].
  rewrite prepareBatches_eq by done.
  intros (j & -> & Hj%elem_of_seq)%list_elem_of_fmap.
  set (k := ceil_div (length hist) BATCH_SIZE) in *.
  assert (k * BATCH_SIZE < length hist + BATCH_SIZE ∧ length hist ≤ k * BATCH_SIZE)
    as [Hlow Hhigh] by (by apply ceil_div_spec; [apply BATCH_SIZE_pos|]).
  unfold nthBatch, slice. cbn [history].
  rewrite length_take, length_drop.
  pose proof BATCH_SIZE_pos. nia.
Qed.

Lemma prepareBatches_count (hist : list Entry) (n : nat) :
  length hist ≤ n * BATCH_SIZE → length (prepareBatches hist) ≤ n.
Proof.
  intros Hlen.
  destruct (decide (hist = [])) as [->|Hne]; [cbn; lia|].
  rewrite prepareBatches_eq by done.
  rewrite length_fmap, length_seq.
  by apply ceil_div_le; [apply BATCH_SIZE_pos|].
Qed.

Section BoundedSource.

Context {St : Type}.
Variable search : Query → St → option (list HistoryItem) * St.
Hypothesis Hsrc : ∀ q σ items, (search q σ).1 = Some items →
  (Z.of_nat (length items) ≤ Z.max 0 (q_maxResults q))%Z.

(** With a source that returns at most [maxResults] items, an enumeration
    returns at most its target. *)
Lemma rawItems_bound (env : Env) (params : Params) (σ : St) :
  (Z.of_nat (length (rawItems (fetchHistory search env params (σ, [])).1))
   ≤ Z.max 0 (targetFor (p_maxResults params)))%Z.
Proof.
  destruct (Z_le_gt_dec (targetFor (p_maxResults params)) CHROME_API_LIMIT)
    as [Hle|Hgt].
  - rewrite fetchHistory_eq.
    destruct (negb _); [cbn; lia|].
    destruct (logThrows _ _); [cbn; lia|].
    destruct (rangeRefused _ _); [cbn; lia|].
    apply Z.leb_le in Hle. rewrite Hle. cbv zeta. cbn [fst].
    match goal with |- context [searchWithFallback _ ?t ?q ?f ?w] =>
      pose proof (searchWithFallback_result search t q f w) as Hres;
      destruct (searchWithFallback search t q f w) as [r w1]
    end.
    cbn [fst] in Hres. destruct r as [items|]; cbn; [|lia].
    destruct (Hres items eq_refl) as [->|(q' & σ' & Hq & Hs)]; [cbn; lia|].
    apply Hsrc in Hs.
    by destruct Hq as [-> | ->]; destruct (timeRange _ _ _).2.
  - pose proof (enumerate_bound search env params σ) as Hb. cbv zeta in Hb.
    rewrite enumerate_eq in Hb. cbn [fst] in Hb.
    unfold CHROME_API_LIMIT in *. etrans; [apply Hb; lia|lia].
Qed.

Lemma backendHistory_bound (available : bool) (clock : Z * Z)
    (st : Storage) (override : option Z) (σ : St) :
  length (Worker.backendHistory search available clock st override σ)
  ≤ 200 * BATCH_SIZE.
Proof.
  unfold Worker.backendHistory.
  destruct (cappedMaxResults_bounds st override) as (Hle & Hnz & Htarget).
  set (m := Worker.cappedMaxResults st override) in *.
  match goal with |- context [fetchHistory _ ?env ?params _] =>
    pose proof (rawItems_bound env params σ) as Hraw;
    set (raw := rawItems (fetchHistory search env params (σ, [])).1) in *
  end.
  cbn [p_maxResults] in Hraw. rewrite Htarget in Hraw.
  pose proof (prepareHistory_length raw) as Hlen.
  unfold BATCH_SIZE. lia.
Qed.

End BoundedSource.

(** X11.  With a history source that returns at most [maxResults] items
    to a call, a session of [chatWithBackend] has at most 200 batches to
    send, whatever the stored preferences and the limit asked for, and each
    batch holds between 1 and 500 records. *)
Theorem backend_batches_bound {St : Type}
    (search : Query → St → option (list HistoryItem) * St)
    (available : bool) (clock : Z * Z) (st : Storage)
    (maxResultsOverride : option Z) (σ : St) (s : Session)
    (message : option string) (conversationMessages : list ChatMessage) :
  (∀ q σ' items, (search q σ').1 = Some items →
     (Z.of_nat (length items) ≤ Z.max 0 (q_maxResults q))%Z) →
  Worker.chatWithBackend search available clock st message
    conversationMessages maxResultsOverride σ = Some s →
  length (batchesToSend s) ≤ 200
  ∧ ∀ b, b ∈ batchesToSend s → 1 ≤ length (history b) ≤ 500.
Proof.
  intros Hsrc. unfold Worker.chatWithBackend.
  destruct (_ && _); [done|]. intros [= <-]. cbn [init batchesToSend].
  split; [by apply prepareBatches_count, backendHistory_bound|].
  intros b Hb. by apply prepareBatches_sizes in Hb.
Qed.

Lemma prefixSource_bounded (items : list HistoryItem) (q : Query) (σ : unit)
    (answer : list HistoryItem) :
  (prefixSource items q σ).1 = Some answer →
  (Z.of_nat (length answer) ≤ Z.max 0 (q_maxResults q))%Z.
Proof. intros [= <-]. rewrite length_take. lia. Qed.

(** A chat over a history of three visits: one batch. *)
Lemma backend_batches_bound_witness :
  ∃ s, Worker.chatWithBackend (prefixSource demoVisits) true (1000%Z, 1000%Z)
         emptyStorage (Some "hello") [] None () = Some s
       ∧ length (batchesToSend s) ≤ 200.
Proof.
  eexists. split; [reflexivity|].
  by destruct (backend_batches_bound (prefixSource demoVisits) true
                 (1000%Z, 1000%Z) emptyStorage None () _ (Some "hello") []
                 (prefixSource_bounded demoVisits) eq_refl).
Defined.

Section Unbounded.

Context {St : Type}.
Variable search : Query → St → option (list HistoryItem) * St.
Variable H : list HistoryItem.
Hypothesis Hsrc : ∀ q σ, q_startTime q = None →
  (search q σ).1 = Some (take (Z.to_nat (q_maxResults q)) H).



Section Rounds.

Variables (searchText : string) (s e target n chunk : Z).
Hypothesis Hbig : (CHROME_API_LIMIT < target)%Z.

Local Abbreviation newest := (take (Z.to_nat CHROME_API_LIMIT) H).
Local Abbreviation loop :=
  (fetchLoop search searchText false s e target n chunk).



End Rounds.



End Unbounded.



(** An enumeration without a text does not read the range preference. *)
Lemma fetchHistory_without_text {St : Type}
    (search : Query → St → option (list HistoryItem) * St)
    (available : bool) (t0 t1 days days' : Z) (params : Params)
    (w : St * list Query) :
  p_text params = None →
  fetchHistory search (mkEnv available t0 t1 days) params w
  = fetchHistory search (mkEnv available t0 t1 days') params w.
Proof.
  intros Htext. unfold fetchHistory, timeRange, now, nowAtCall.
  rewrite Htext.
  cbn [historyAvailable clockAtCall clock historyRangeDays default].
  cbn [String.length Nat.eqb negb andb]. done.
Qed.

(** X12.  The stored history range has no effect on a chat through the
    backend or on [queryHistory]: with any other range in the stored
    preferences, both give the same result. *)
Theorem history_range_preference_unused {St : Type}
    (search : Query → St → option (list HistoryItem) * St)
    (available : bool) (clock : Z * Z) (st : Storage) (days : option Z)
    (message : option string) (conversationMessages : list ChatMessage)
    (maxResultsOverride : option Z) (params : Worker.QueryParams) (σ : St) :
  Worker.chatWithBackend search available clock (withRange days st) message
    conversationMessages maxResultsOverride σ
  = Worker.chatWithBackend search available clock st message
      conversationMessages maxResultsOverride σ
  ∧ Worker.queryHistory search available clock (withRange days st) params σ
    = Worker.queryHistory search available clock st params σ.
Proof.
  assert (Worker.pref_maxResults (Worker.getUserPreferences (withRange days st))
          = Worker.pref_maxResults (Worker.getUserPreferences st)) as Hmax.
  { unfold Worker.getUserPreferences, withRange. cbn.
    by destruct (user_preferences st). }
  split.
  - unfold Worker.chatWithBackend, Worker.backendHistory,
      Worker.cappedMaxResults, Worker.envOf.
    rewrite Hmax.
    by rewrite (fetchHistory_without_text search available clock.1 clock.2 _
      (Worker.pref_historyRangeDays (Worker.getUserPreferences st))).
  - unfold Worker.queryHistory, Worker.envOf. rewrite Hmax.
    by rewrite (fetchHistory_without_text search available clock.1 clock.2 _
      (Worker.pref_historyRangeDays (Worker.getUserPreferences st))).
Qed.

(** *** The order of [queryHistory] *)

Lemma sub_sign (a b : Js.number) :
  Js.isNaN a = false → Js.isNaN b = false →
  Js.lt Js.zero (Worker.sub b a) = Js.lt a b.
Proof.
  destruct a as [| | |x], b as [| | |y]; try done. intros _ _.
  cbn. apply bool_decide_ext.
  assert (Qc_of_Z 0 = Q2Qc 0%Q) as -> by (by apply Qc_is_canon).
  rewrite (Qcplus_lt_mono_r (Q2Qc 0%Q) (y - x) x).
  replace (Q2Qc 0%Q + x)%Qc with x by ring.
  by replace (y - x + x)%Qc with y by ring.
Qed.

Lemma js_lt_le (a b : Js.number) : Js.lt a b = true → Js.le a b = true.
Proof.
  destruct a as [| | |x], b as [| | |y]; try done. cbn.
  intros H%bool_decide_eq_true. apply bool_decide_eq_true.
  by apply Qclt_le_weak.
Qed.

Lemma js_le_trans (a b c : Js.number) :
  Js.le a b = true → Js.le b c = true → Js.le a c = true.
Proof.
  destruct a as [| | |x], b as [| | |y], c as [| | |z]; try done. cbn.
  intros H1%bool_decide_eq_true H2%bool_decide_eq_true.
  apply bool_decide_eq_true. by etrans.
Qed.

Lemma newest_first_cons (x : Entry) (l : list Entry) :
  newest_first (x :: l)
  ↔ (∀ y, y ∈ l → Js.le (last_visit_time y) (last_visit_time x) = true)
    ∧ newest_first l.
Proof.
  split.
  - intros H. split.
    + intros y (j & Hj)%list_elem_of_lookup_1.
      by apply (H 0 (S j) x y); [lia|..].
    + intros i j a b Hij Ha Hb. by apply (H (S i) (S j) a b); [lia|..].
  - intros [Hx Hl] i j a b Hij Ha Hb.
    destruct i as [|i], j as [|j]; try lia; cbn in *.
    + injection Ha as <-. apply Hx. by eapply list_elem_of_lookup_2.
    + apply (Hl i j a b); [lia|done..].
Qed.

Lemma insert_perm (x : Entry) (l : list Entry) :
  Worker.insert Worker.byLastVisit x l ≡ₚ x :: l.
Proof.
  induction l as [|y l IH]; [done|]. cbn [Worker.insert].
  destruct (Js.lt _ _); [|done]. rewrite IH. apply Permutation_swap.
Qed.

Lemma sort_perm (l : list Entry) : Worker.sort Worker.byLastVisit l ≡ₚ l.
Proof.
  induction l as [|x l IH]; [done|]. cbn.
  fold (Worker.sort Worker.byLastVisit l). by rewrite insert_perm, IH.
Qed.

Lemma insert_newest_first (x : Entry) (l : list Entry) :
  Js.isNaN (last_visit_time x) = false →
  (∀ y, y ∈ l → Js.isNaN (last_visit_time y) = false) →
  newest_first l → newest_first (Worker.insert Worker.byLastVisit x l).
Proof.
  intros Hx. induction l as [|y l IH]; intros Hl Hs.
  { cbn. apply newest_first_cons. split; [by intros ? ?%elem_of_nil|done]. }
  apply newest_first_cons in Hs as [Hy Hs]. cbn [Worker.insert].
  unfold Worker.byLastVisit at 1.
  rewrite sub_sign by (try done; apply Hl; by left).
  destruct (Js.lt _ _) eqn:Hlt.
  - apply newest_first_cons. split.
    + intros z Hz. rewrite insert_perm in Hz.
      apply elem_of_cons in Hz as [->|Hz]; [by apply js_lt_le|by apply Hy].
    + apply IH; [|done]. intros z Hz. apply Hl. by right.
  - assert (Js.le (last_visit_time y) (last_visit_time x) = true) as Hle.
    { apply lt_false_le; [done|done|]. apply Hl. by left. }
    apply newest_first_cons. split.
    + intros z [->|Hz]%elem_of_cons; [done|].
      by eapply js_le_trans; [apply Hy|].
    + apply newest_first_cons. by split.
Qed.

Lemma sort_newest_first (l : list Entry) :
  (∀ y, y ∈ l → Js.isNaN (last_visit_time y) = false) →
  newest_first (Worker.sort Worker.byLastVisit l).
Proof.
  induction l as [|x l IH]; intros Hl.
  { intros i j x y _ Hx. done. }
  cbn. fold (Worker.sort Worker.byLastVisit l).
  apply insert_newest_first.
  - apply Hl. by left.
  - intros y Hy. rewrite sort_perm in Hy. apply Hl. by right.
  - apply IH. intros y Hy. apply Hl. by right.
Qed.

Lemma insert_sublist (x : Entry) (l : list Entry) :
  l `sublist_of` Worker.insert Worker.byLastVisit x l.
Proof.
  induction l as [|y l IH]; [apply sublist_nil_l|]. cbn [Worker.insert].
  destruct (Js.lt _ _); [by apply sublist_skip|by apply sublist_cons].
Qed.

Lemma insert_before (x b : Entry) (l : list Entry) :
  Js.isNaN (last_visit_time x) = false →
  (∀ y, y ∈ l → Js.isNaN (last_visit_time y) = false) →
  b ∈ l → Js.lt (last_visit_time x) (last_visit_time b) = false →
  [x; b] `sublist_of` Worker.insert Worker.byLastVisit x l.
Proof.
  intros Hx. induction l as [|y l IH]; intros Hl Hb Hlt.
  { by apply elem_of_nil in Hb. }
  cbn [Worker.insert]. unfold Worker.byLastVisit at 1.
  rewrite sub_sign by (try done; apply Hl; by left).
  destruct (Js.lt _ (last_visit_time y)) eqn:Hy.
  - apply sublist_cons. apply IH; [| |done].
    + intros z Hz. apply Hl. by right.
    + apply elem_of_cons in Hb as [->|Hb]; [congruence|done].
  - apply sublist_skip. by apply singleton_sublist_l.
Qed.

(** The sort keeps the order of two records unless the second is the
    later one. *)
Lemma sort_stable (l : list Entry) (x y : Entry) :
  (∀ z, z ∈ l → Js.isNaN (last_visit_time z) = false) →
  [x; y] `sublist_of` l →
  Js.lt (last_visit_time x) (last_visit_time y) = false →
  [x; y] `sublist_of` Worker.sort Worker.byLastVisit l.
Proof.
  induction l as [|a l IH]; intros Hl Hsub Hlt.
  { by apply sublist_nil_r in Hsub. }
  cbn. fold (Worker.sort Worker.byLastVisit l).
  apply sublist_cons_r in Hsub as [Hsub|(k & [= <- <-] & Hsub)].
  - etrans; [|apply insert_sublist]. apply IH; [|done..].
    intros z Hz. apply Hl. by right.
  - apply insert_before; [apply Hl; by left| | |done].
    + intros z Hz. rewrite sort_perm in Hz. apply Hl. by right.
    + rewrite sort_perm. by apply singleton_sublist_l.
Qed.

Lemma queryEntry_Some (item : HistoryItem) (e : Entry) :
  Worker.queryEntry item = Some e →
  url item = Some (e_url e) ∧ e_url e ≠ ""
  ∧ e_title e = Js.or_else (title item) ""
  ∧ visit_count e = Worker.number_or_zero (visitCount item)
  ∧ lastVisitTime item = Some (last_visit_time e)
  ∧ Js.lt Js.zero (last_visit_time e) = true.
Proof.
  unfold Worker.queryEntry.
  destruct (lastVisitTime item) as [t|]; [|done].
  destruct (Worker.truthy_number t) eqn:Ht; [|done].
  destruct (Js.lt Js.zero t) eqn:Hpos; [|done]. cbn [andb].
  rewrite Ht. cbn [negb orb].
  destruct (url item) as [u|]; [|done]. cbn [Js.truthy].
  destruct (String.length u =? 0) eqn:Hu; [done|]. cbn [negb].
  intros [= <-]. cbn. split_and!; try done.
  intros ->. done.
Qed.

(** X13.  The entries returned by [queryHistory] are ordered by last
    visit, latest first; each has a url that is not empty and a last visit
    time above zero; they are the converted items of the enumeration, each
    once; and the sort is stable: two entries keep the order of the
    enumeration unless the second was visited later. *)
Theorem queryHistory_newest_first {St : Type}
    (search : Query → St → option (list HistoryItem) * St)
    (available : bool) (clock : Z * Z) (st : Storage)
    (params : Worker.QueryParams) (σ : St) (entries : list Entry) :
  let finalMaxResults :=
    Worker.or_default (Worker.qp_maxResults params)
      (Worker.pref_maxResults (Worker.getUserPreferences st)) in
  let historyItems :=
    rawItems
      (fetchHistory search (Worker.envOf available clock st)
         (mkParams None (Worker.qp_startTime params)
            (Worker.qp_endTime params) (Some finalMaxResults)) (σ, [])).1 in
  Worker.queryHistory search available clock st params σ = Some entries →
  newest_first entries
  ∧ (∀ e, e ∈ entries →
       e_url e ≠ "" ∧ Js.lt Js.zero (last_visit_time e) = true)
  ∧ entries ≡ₚ omap Worker.queryEntry historyItems
  ∧ ∀ x y, [x; y] `sublist_of` omap Worker.queryEntry historyItems →
      Js.lt (last_visit_time x) (last_visit_time y) = false →
      [x; y] `sublist_of` entries.
Proof.
  intros finalMaxResults historyItems. subst historyItems.
  unfold Worker.queryHistory. fold finalMaxResults.
  destruct (fetchHistory _ _ _ _).1 as [|items]; [done|].
  intros [= <-]. cbn [rawItems].
  assert (∀ e, e ∈ omap Worker.queryEntry items →
            e_url e ≠ "" ∧ Js.lt Js.zero (last_visit_time e) = true) as Hvalid.
  { intros e (item & _ & He)%list_elem_of_omap.
    by apply queryEntry_Some in He as (_ & ? & _ & _ & _ & ?). }
  assert (∀ e, e ∈ omap Worker.queryEntry items →
            Js.isNaN (last_visit_time e) = false) as Hnan.
  { intros e [_ He]%Hvalid. by destruct (last_visit_time e). }
  split_and!.
  - by apply sort_newest_first.
  - intros e He. rewrite sort_perm in He. by apply Hvalid.
  - apply sort_perm.
  - intros x y. by apply sort_stable.
Qed.

(** Three visits, of which the last is the latest. *)
Lemma queryHistory_newest_first_witness :
  ∃ entries,
    Worker.queryHistory (prefixSource demoVisits) true (1000%Z, 1000%Z)
      emptyStorage (Worker.mkQueryParams None None (Some 100%Z)) ()
    = Some entries
    ∧ e_url <$> entries
      = ["https://a.example/"; "https://b.example/"; "https://a.example/"]
    ∧ newest_first entries.
Proof.
  eexists. split; [reflexivity|]. split; [reflexivity|].
  by destruct (queryHistory_newest_first (prefixSource demoVisits) true
                 (1000%Z, 1000%Z) emptyStorage
                 (Worker.mkQueryParams None None (Some 100%Z)) () _ eq_refl).
Defined.

Lemma Qc_of_Z_0 : Qc_of_Z 0 = Q2Qc 0%Q.
Proof. by apply Qc_is_canon. Qed.

Lemma floor_of_Z (z : Z) : Js.floor (Js.of_Z z) = Js.of_Z z.
Proof. unfold Js.floor, Js.of_Z. do 2 f_equal. apply Qfloor_Z. Qed.

Lemma max_zero_of_Z (z : Z) : (0 ≤ z)%Z → Js.max Js.zero (Js.of_Z z) = Js.of_Z z.
Proof.
  intros Hz. unfold Js.max, Js.zero, Js.of_Z.
  rewrite bool_decide_eq_true_2; [done|].
  unfold Qcle. rewrite Zle_Qle in Hz. exact Hz.
Qed.

Lemma number_or_zero_of_Z (z : Z) :
  Worker.number_or_zero (Some (Js.of_Z z)) = Js.of_Z z.
Proof.
  unfold Worker.number_or_zero, Js.of_Z.
  case_bool_decide as Hz; [|done]. by rewrite Hz.
Qed.

Lemma queryEntry_positive (item : HistoryItem) (q : Qc) (u : string) :
  lastVisitTime item = Some (Js.Fin q) → (Qc_of_Z 0 < q)%Qc →
  url item = Some u → u ≠ "" →
  Worker.queryEntry item
  = Some {| e_url := u; e_title := Js.or_else (title item) "";
            visit_count := Worker.number_or_zero (visitCount item);
            last_visit_time := Js.Fin q |}.
Proof.
  intros Ht Hpos Hu Hne. unfold Worker.queryEntry. rewrite Ht, Hu.
  assert (Worker.truthy_number (Js.Fin q) = true) as Htruthy.
  { unfold Worker.truthy_number. case_bool_decide as Hq; [|done].
    subst q. by apply Qclt_not_eq in Hpos. }
  assert (Js.lt Js.zero (Js.Fin q) = true) as ->.
  { by apply bool_decide_eq_true_2. }
  rewrite Htruthy. cbn [andb]. rewrite Htruthy.
  by destruct u.
Qed.

(** X14.  A history item that [chatWithBackend] turns into a record is
    also listed by [queryHistory], with the same url, title and last visit
    time; the two records are equal when the item has no visit count or a
    count that is a non-negative integer. *)
Theorem uploaded_records_are_listed (item : HistoryItem) (e : Entry) :
  convertItem item = Some e →
  ∃ e', Worker.queryEntry item = Some e'
        ∧ e_url e' = e_url e ∧ e_title e' = e_title e
        ∧ last_visit_time e' = last_visit_time e
        ∧ (visitCount item = None
           ∨ (∃ z, (0 ≤ z)%Z ∧ visitCount item = Some (Js.of_Z z)) →
           e' = e).
Proof.
  intros He. apply convertItem_Some in He as Hfacts.
  destruct Hfacts as (Hurl & Hne & _ & Htitle & Htime & (q & Hq & Hpos) & Hcount).
  rewrite Hq in Htime.
  rewrite (queryEntry_positive item q (e_url e) Htime Hpos Hurl Hne).
  eexists. split; [done|]. cbn.
  split_and!; [done|done|done|].
  intros Hc. destruct e as [u t c tm]. cbn in *. subst. f_equal.
  destruct Hc as [Hc|(z & Hz & Hc)]; rewrite Hc in *; [done|].
  rewrite number_or_zero_of_Z.
  unfold convertItem in He. rewrite Hc, Htime in He.
  change (Js.isNaN (Js.of_Z z)) with false in He.
  rewrite (max_zero_of_Z z Hz), floor_of_Z in He.
  destruct (_ || _); [done|]. rewrite Hurl in He.
  destruct (_ || _); [done|]. by injection He.
Qed.

Lemma uploaded_records_are_listed_witness :
  let e := mkEntry "https://a.example/" "A" Js.zero (Js.of_Z 5) in
  convertItem visitA = Some e ∧ Worker.queryEntry visitA = Some e.
Proof.
  intros e. assert (convertItem visitA = Some e) as He by reflexivity.
  split; [exact He|].
  destruct (uploaded_records_are_listed visitA e He)
    as (e' & Hq & _ & _ & _ & Heq).
  rewrite Hq. f_equal. apply Heq. by left.
Defined.

(** ** The pages of the extension: requests, keys, preferences, escaping *)

(** *** Strings *)

Lemma string_app_cons (c : Ascii.ascii) (s1 s2 : string) :
  String c s1 +:+ s2 = String c (s1 +:+ s2).
Proof. done. Qed.

Lemma string_length_app (s1 s2 : string) :
  String.length (s1 +:+ s2) = String.length s1 + String.length s2.
Proof.
  induction s1 as [|c s1 IH]; [done|]. rewrite string_app_cons. cbn.
  by rewrite IH.
Qed.

Lemma string_app_nil_r (s : string) : s +:+ "" = s.
Proof. induction s as [|c s IH]; [done|]. by rewrite string_app_cons, IH. Qed.

Lemma string_app_assoc (s1 s2 s3 : string) :
  (s1 +:+ s2) +:+ s3 = s1 +:+ (s2 +:+ s3).
Proof.
  induction s1 as [|c s1 IH]; [done|]. by rewrite !string_app_cons, IH.
Qed.

Lemma string_length_substring (s : string) : ∀ n m,
  n + m ≤ String.length s → String.length (String.substring n m s) = m.
Proof.
  induction s as [|c s IH]; intros [|n] [|m] Hle; cbn in *; try done; try lia.
  - rewrite IH; [done|lia].
  - apply IH. lia.
  - apply IH. lia.
Qed.

Lemma string_get_beyond (s : string) : ∀ i,
  String.length s ≤ i → String.get i s = None.
Proof.
  induction s as [|c s IH]; intros [|i] Hle; cbn in *; try done; try lia.
  apply IH. lia.
Qed.

Lemma string_rev_app (s1 s2 : string) :
  String.rev_app s1 s2 = String.rev s1 +:+ s2.
Proof.
  unfold String.rev. revert s2.
  induction s1 as [|c s1 IH]; intros s2; [done|]. cbn.
  rewrite IH, (IH (String c "")). by rewrite string_app_assoc.
Qed.

Lemma string_rev_cons (c : Ascii.ascii) (s : string) :
  String.rev (String c s) = String.rev s +:+ String c "".
Proof. unfold String.rev at 1. cbn. apply string_rev_app. Qed.

Lemma string_rev_append (s1 s2 : string) :
  String.rev (s1 +:+ s2) = String.rev s2 +:+ String.rev s1.
Proof.
  induction s1 as [|c s1 IH].
  - by rewrite string_app_nil_r.
  - by rewrite string_app_cons, !string_rev_cons, IH, string_app_assoc.
Qed.

Lemma string_rev_rev (s : string) : String.rev (String.rev s) = s.
Proof.
  induction s as [|c s IH]; [done|].
  by rewrite string_rev_cons, string_rev_append, IH.
Qed.

(** *** Trimming *)

Lemma trim_start_clean (s : string) : starts_clean (Js.trim_start s).
Proof.
  induction s as [|c s IH]; [done|]. cbn.
  by destruct (Js.is_white c) eqn:Hc.
Qed.

Lemma trim_start_fixed (s : string) :
  starts_clean s → Js.trim_start s = s.
Proof. destruct s as [|c s]; [done|]. cbn. by intros ->. Qed.

Lemma trim_start_suffix (s : string) :
  ∃ w, s = w +:+ Js.trim_start s.
Proof.
  induction s as [|c s [w IH]]; [by exists ""|]. cbn.
  destruct (Js.is_white c); [|by exists ""].
  exists (String c w). by rewrite string_app_cons, <- IH.
Qed.

Lemma starts_clean_prefix (s1 s2 : string) :
  starts_clean (s1 +:+ s2) → starts_clean s1.
Proof. by destruct s1. Qed.





(** X16.  When [handleSaveApiKey] reports that the key is saved, the
    trimmed input is a valid key and is the stored one, [checkApiKey] says
    there is a key, and [chatWithHistory] passes every request with a
    message to OpenAI with that key; with any other status nothing has
    changed.  After [handleClearApiKey] has removed the key,
    [checkApiKey] says there is none and the requests go to the backend. *)
Theorem saved_key_selects_direct_mode (writable : bool)
    (field : Options.KeyField) (st : Storage) (params : Worker.ChatParams) :
  let out := Options.handleSaveApiKey writable field st in
  let key := Js.trim (Options.value field) in
  (out.2 = Options.KeySaved →
     Options.validateApiKey key = true
     ∧ out.1.2 = set_openai_api_key (Some key) st
     ∧ Worker.checkApiKey out.1.2 = true
     ∧ (Worker.noMessage (Worker.c_message params) = false →
        Worker.chatWithHistory out.1.2 params
        = Worker.ToOpenAI (default "" (Worker.c_message params))
            (default [] (Worker.c_conversationMessages params)) key
            (Worker.c_maxResults params)))
  ∧ (out.2 ≠ Options.KeySaved → out.1 = (field, st))
  ∧ (let cleared := Options.handleClearApiKey true true field st in
     Worker.checkApiKey cleared.1.2 = false
     ∧ (Worker.noMessage (Worker.c_message params) = false →
        Worker.chatWithHistory cleared.1.2 params
        = Worker.ToBackend (default "" (Worker.c_message params))
            (default [] (Worker.c_conversationMessages params))
            (Worker.c_maxResults params))).
Proof.
  intros out key. subst out. unfold Options.handleSaveApiKey.
  fold key. clearbody key.
  split; [|split].
  - destruct (String.length key =? 0) eqn:Hlen; [done|].
    destruct (_ && _); [done|].
    destruct (Options.validateApiKey key) eqn:Hvalid; [|done].
    destruct writable; [|done]. cbn [fst snd negb]. intros _.
    assert ((0 <? String.length key) = true) as Hpos.
    { by destruct (String.length key). }
    split; [done|]. split; [done|]. split; [exact Hpos|].
    intros Hmsg. unfold Worker.chatWithHistory. rewrite Hmsg.
    cbn [set_openai_api_key openai_api_key]. by rewrite Hpos.
  - repeat (match goal with |- context [if ?c then _ else _] =>
              destruct c end; try done).
  - cbn. split; [done|]. intros Hmsg.
    unfold Worker.chatWithHistory. by rewrite Hmsg.
Qed.

(** A key typed with a space behind it. *)
Lemma saved_key_selects_direct_mode_witness :
  let field := Options.mkKeyField (demoKey +:+ " ") None in
  let out := Options.handleSaveApiKey true field emptyStorage in
  out.2 = Options.KeySaved
  ∧ Worker.chatWithHistory out.1.2
      (Worker.mkChatParams (Some "hello") None None)
    = Worker.ToOpenAI "hello" [] demoKey None.
Proof.
  intros field out. assert (out.2 = Options.KeySaved) as Hsaved by done.
  split; [exact Hsaved|].
  destruct (saved_key_selects_direct_mode true field emptyStorage
              (Worker.mkChatParams (Some "hello") None None))
    as [Hkey _].
  destruct (Hkey Hsaved) as (_ & _ & _ & Hroute).
  by apply Hroute.
Defined.

Lemma get_stars (k i : nat) :
  String.get i (Options.stars k) = if i <? k then Some "*"%char else None.
Proof.
  revert i. induction k as [|k IH]; intros [|i]; try done. cbn. apply IH.
Qed.

Lemma length_stars (k : nat) : String.length (Options.stars k) = k.
Proof. induction k as [|k IH]; [done|]. cbn. by rewrite IH. Qed.

(** X17.  A key that [validateApiKey] accepts has at least 20
    characters, and its mask has the length of the key: it shows the first
    7 characters and the last 4, with a star for every character
    between. *)
Theorem valid_key_mask (apiKey : string) :
  Options.validateApiKey apiKey = true →
  let mask := Options.maskApiKey apiKey in
  let n := String.length apiKey in
  20 ≤ n
  ∧ String.length mask = n
  ∧ ∀ i, String.get i mask =
      if (i <? 7) || (n - 4 <=? i) then String.get i apiKey
      else Some "*"%char.
Proof.
  intros Hvalid mask n. subst mask.
  assert (20 ≤ n) as Hn.
  { unfold Options.validateApiKey in Hvalid. fold n in Hvalid.
    destruct (n =? 0); [done|]. cbn [orb] in Hvalid.
    destruct (Nat.ltb_spec n 20); [done|lia]. }
  unfold Options.maskApiKey. fold n.
  assert ((n =? 0) || (n <? 8) = false) as ->.
  { apply orb_false_iff. split; [apply Nat.eqb_neq|apply Nat.ltb_ge]; lia. }
  replace (Nat.max (n - 11) 3) with (n - 11) by lia.
  set (first := String.substring 0 7 apiKey).
  set (last := String.substring (n - 4) 4 apiKey).
  assert (String.length first = 7) as Hfirst.
  { apply string_length_substring. fold n. lia. }
  assert (String.length last = 4) as Hlast.
  { apply string_length_substring. fold n. lia. }
  split; [done|]. split.
  { rewrite !string_length_app, length_stars, Hfirst, Hlast. lia. }
  intros i. destruct (Nat.ltb_spec i 7) as [Hi|Hi]; cbn [orb].
  - rewrite <- String.append_correct1 by lia. subst first.
    rewrite String.substring_correct1 by done. by rewrite Nat.add_0_r.
  - replace i with (i - 7 + String.length first) at 1 by lia.
    rewrite <- String.append_correct2.
    destruct (Nat.leb_spec (n - 4) i) as [Hj|Hj].
    + replace (i - 7) with (i - (n - 4) + String.length (Options.stars (n - 11)))
        by (rewrite length_stars; lia).
      rewrite <- String.append_correct2. subst last.
      destruct (Nat.lt_ge_cases (i - (n - 4)) 4) as [Hk|Hk].
      * rewrite String.substring_correct1 by done. f_equal. lia.
      * rewrite String.substring_correct2 by done. symmetry.
        apply string_get_beyond. fold n. lia.
    + rewrite <- String.append_correct1 by (rewrite length_stars; lia).
      rewrite get_stars. destruct (Nat.ltb_spec (i - 7) (n - 11)); [done|lia].
Qed.

Lemma valid_key_mask_witness :
  Options.validateApiKey demoKey = true
  ∧ Options.maskApiKey demoKey = "sk-0123************ghij"
  ∧ String.length (Options.maskApiKey demoKey) = String.length demoKey.
Proof.
  assert (Options.validateApiKey demoKey = true) as Hvalid by done.
  split; [exact Hvalid|]. split; [done|].
  by destruct (valid_key_mask demoKey Hvalid) as (_ & Hlen & _).
Defined.

(** X18.  [handleSavePreferences] reports success only when both inputs
    are read as integers, the range from 1 to 10,000 and the limit from 10
    to 100,000; it then stores exactly these two, [getUserPreferences]
    returns them and they are the limit of a chat.  Without that report the
    stored settings are unchanged. *)
Theorem saved_preferences_are_read_back (writable : bool)
    (historyRange maxResults : string) (st : Storage) :
  let out := Options.handleSavePreferences writable historyRange maxResults st in
  (Options.PreferencesSaved ∈ out.2 →
     ∃ d m,
       Options.parseInt historyRange = Some d
       ∧ Options.parseInt maxResults = Some m
       ∧ (1 ≤ d ≤ 10000)%Z ∧ (10 ≤ m ≤ 100000)%Z
       ∧ out.1 = set_user_preferences
                   (Some (mkStoredPreferences (Some d) (Some m))) st
       ∧ Worker.getUserPreferences out.1 = Worker.mkPreferences d m
       ∧ Worker.cappedMaxResults out.1 None = m)
  ∧ (¬ (Options.PreferencesSaved ∈ out.2) → out.1 = st).
Proof.
  intros out. subst out. unfold Options.handleSavePreferences.
  destruct (Options.parseInt historyRange) as [d|].
  2: { cbn. split; [|done]. intros Hin. by apply list_elem_of_singleton in Hin. }
  destruct (Z.ltb_spec d 1); cbn [orb].
  { cbn. split; [|done]. intros Hin. by apply list_elem_of_singleton in Hin. }
  destruct (Z.ltb_spec 10000 d); cbn [orb].
  { cbn. split; [|done]. intros Hin. by apply list_elem_of_singleton in Hin. }
  destruct (Options.parseInt maxResults) as [m|].
  2: { cbn. split; [|done]. intros Hin. by apply list_elem_of_singleton in Hin. }
  destruct (Z.ltb_spec m 10); cbn [orb].
  { cbn. split; [|done]. intros Hin. by apply list_elem_of_singleton in Hin. }
  destruct (Z.ltb_spec 100000 m); cbn [orb].
  { cbn. split; [|done]. intros Hin. by apply list_elem_of_singleton in Hin. }
  destruct writable; cbn [fst snd].
  - split.
    + intros _. exists d, m. split_and!; try done; try lia.
      * unfold Worker.getUserPreferences, Worker.or_default. cbn.
        destruct (Z.eqb_spec d 0); [lia|]. destruct (Z.eqb_spec m 0); [lia|done].
      * unfold Worker.cappedMaxResults, Worker.getUserPreferences,
          Worker.or_default. cbn.
        destruct (Z.eqb_spec m 0); [lia|]. cbn.
        destruct (Z.eqb_spec m 0); [lia|]. lia.
    + intros Hnot. destruct Hnot. apply elem_of_app. right. by left.
  - split; [|done]. intros Hin. apply elem_of_app in Hin as [Hin|Hin].
    + by destruct (m <? 100)%Z; [apply list_elem_of_singleton in Hin|
                                  apply elem_of_nil in Hin].
    + by apply list_elem_of_singleton in Hin.
Qed.

(** A range of 30 days and a limit of 50 records, typed with a unit. *)
Lemma saved_preferences_are_read_back_witness :
  let out := Options.handleSavePreferences true "30 days" " 50" emptyStorage in
  out.2 = [Options.FewResultsWarning; Options.PreferencesSaved]
  ∧ Worker.getUserPreferences out.1 = Worker.mkPreferences 30 50.
Proof.
  intros out. split; [done|].
  destruct (saved_preferences_are_read_back true "30 days" " 50" emptyStorage)
    as [Hsaved _].
  destruct Hsaved as (d & m & Hd & Hm & _ & _ & _ & Hprefs & _).
  { apply elem_of_cons. right. by left. }
  injection Hd as <-. injection Hm as <-. exact Hprefs.
Defined.

(** *** Integers as text *)

Lemma digit_char (d : nat) :
  d < 10 → Options.digit (Ascii.ascii_of_nat (48 + d)) = Some (Z.of_nat d).
Proof.
  intros Hd. do 10 (destruct d as [|d]; [done|]). lia.
Qed.

Lemma digit_not_sign (c : Ascii.ascii) (d : Z) :
  Options.digit c = Some d →
  Js.is_white c = false ∧ c ≠ "-"%char ∧ c ≠ "+"%char.
Proof.
  destruct c as [[] [] [] [] [] [] [] []]; by vm_compute.
Qed.

Lemma decimal_digits (fuel : nat) : ∀ (n : Z) (s : string),
  (0 ≤ n ≤ Z.of_nat fuel)%Z → 1 ≤ fuel →
  ∃ k c rest,
    (0 ≤ k)%Z
    ∧ Options.decimal fuel n s = String c rest
    ∧ Options.digit c ≠ None
    ∧ ∀ acc, Options.digits acc (Options.decimal fuel n s)
             = Options.digits (acc * 10 ^ k + n) s.
Proof.
  induction fuel as [|fuel IH]; intros n s Hn Hfuel; [lia|].
  cbn [Options.decimal].
  assert (Z.to_nat (n `mod` 10) < 10) as Hd.
  { pose proof (Z.mod_pos_bound n 10). lia. }
  pose proof (digit_char _ Hd) as Hdigit.
  rewrite Z2Nat.id in Hdigit by (pose proof (Z.mod_pos_bound n 10); lia).
  destruct (Z.ltb_spec n 10) as [Hsmall|Hbig].
  - exists 1%Z, (Ascii.ascii_of_nat (48 + Z.to_nat (n `mod` 10))), s.
    split; [lia|]. split; [done|]. split; [by rewrite Hdigit|].
    intros acc. cbn [Options.digits]. rewrite Hdigit.
    rewrite Z.mod_small by lia. f_equal. lia.
  - destruct (IH (n / 10)%Z
                (String (Ascii.ascii_of_nat (48 + Z.to_nat (n `mod` 10))) s))
      as (k & c & rest & Hk & Heq & Hc & Hval).
    { split; [apply Z.div_pos; lia|].
      assert (n / 10 < n)%Z by (apply Z.div_lt; lia). lia. }
    { assert (1 ≤ n / 10)%Z by (apply Z.div_le_lower_bound; lia). lia. }
    exists (k + 1)%Z, c, rest. split; [lia|]. split; [done|]. split; [done|].
    intros acc. rewrite Hval. cbn [Options.digits]. rewrite Hdigit.
    f_equal. rewrite Z.pow_add_r, Z.pow_1_r by lia.
    pose proof (Z.div_mod n 10 ltac:(lia)). lia.
Qed.

(** [parseInt] reads the text of an integer as that integer. *)
Lemma parseInt_toString (n : Z) :
  Options.parseInt (Options.toString n) = Some n.
Proof.
  assert (∀ m, (0 < m)%Z →
            Options.parseInt (Options.decimal (Z.to_nat m) m "") = Some m
            ∧ Options.parseInt
                (String "-" (Options.decimal (Z.to_nat m) m "")) = Some (- m)%Z)
    as Hpos.
  { intros m Hm.
    destruct (decimal_digits (Z.to_nat m) m "" ltac:(lia) ltac:(lia))
      as (k & c & rest & Hk & Heq & Hc & Hval).
    specialize (Hval 0%Z). rewrite Heq in *.
    destruct (Options.digit c) as [d|] eqn:Hd; [|done].
    destruct (digit_not_sign c d Hd) as (Hw & Hminus & Hplus).
    unfold Options.parseInt. cbn [Js.trim_start]. rewrite Hw.
    change (Js.is_white "-") with false. cbn iota.
    split.
    - destruct c as [[] [] [] [] [] [] [] []]; try done;
        rewrite Hd, Hval; cbn [Options.digits]; f_equal; try lia.
    - rewrite Hd, Hval. cbn [Options.digits]. f_equal; try lia. }
  unfold Options.toString.
  destruct (Z.ltb_spec n 0) as [Hneg|Hnn].
  - destruct (Hpos (- n)%Z ltac:(lia)) as [_ ->]. f_equal. lia.
  - destruct (Z.eqb_spec n 0) as [->|Hnz]; [done|].
    by destruct (Hpos n ltac:(lia)) as [-> _].
Qed.

(** X19.  The settings page shows stored preferences as they are and
    saving what it shows changes nothing: with a stored range from 1 to
    10,000 and a stored limit from 10 to 100,000, [loadSettings] writes
    their decimal texts in the inputs, and [handleSavePreferences] on these
    inputs succeeds and leaves the stored settings as they were. *)
Theorem settings_reload_round_trip (st : Storage) (d m : Z) (x y : string) :
  user_preferences st = Some (mkStoredPreferences (Some d) (Some m)) →
  (1 ≤ d ≤ 10000)%Z → (10 ≤ m ≤ 100000)%Z →
  let shown := Options.loadSettings st x y in
  let out := Options.handleSavePreferences true shown.1 shown.2 st in
  shown = (Options.toString d, Options.toString m)
  ∧ Options.parseInt shown.1 = Some d
  ∧ Options.parseInt shown.2 = Some m
  ∧ out.1 = st
  ∧ Options.PreferencesSaved ∈ out.2.
Proof.
  intros Hst Hd Hm shown out.
  assert (shown = (Options.toString d, Options.toString m)) as Hshown.
  { subst shown. unfold Options.loadSettings. rewrite Hst. cbn.
    unfold Worker.or_default.
    destruct (Z.eqb_spec d 0); [lia|]. destruct (Z.eqb_spec m 0); [lia|done]. }
  split; [done|].
  subst out. rewrite Hshown. cbn [fst snd].
  split; [apply parseInt_toString|]. split; [apply parseInt_toString|].
  unfold Options.handleSavePreferences. rewrite !parseInt_toString.
  destruct (Z.ltb_spec d 1); [lia|]. destruct (Z.ltb_spec 10000 d); [lia|].
  destruct (Z.ltb_spec m 10); [lia|]. destruct (Z.ltb_spec 100000 m); [lia|].
  cbn [orb fst snd]. split.
  - destruct st as [key prefs chat]. cbn in *. by rewrite Hst.
  - apply elem_of_app. right. by left.
Qed.

Lemma settings_reload_round_trip_witness :
  Options.loadSettings demoStorage "" "" = ("365", "1000")
  ∧ (Options.handleSavePreferences true "365" "1000" demoStorage).1
    = demoStorage.
Proof.
  destruct (settings_reload_round_trip demoStorage 365 1000 "" "" eq_refl
              ltac:(lia) ltac:(lia)) as (Hshown & _ & _ & Hout & _).
  split; [exact Hshown|]. exact Hout.
Defined.

(** *** Escaping *)

Lemma replaceAll_append (c : Ascii.ascii) (by_ s1 s2 : string) :
  Popup.replaceAll c by_ (s1 +:+ s2)
  = Popup.replaceAll c by_ s1 +:+ Popup.replaceAll c by_ s2.
Proof.
  induction s1 as [|x s1 IH]; [done|]. rewrite string_app_cons.
  cbn [Popup.replaceAll]. rewrite IH.
  destruct (Ascii.eqb x c); [by rewrite string_app_assoc|done].
Qed.

Lemma replaceAll_cons (c x : Ascii.ascii) (by_ s : string) :
  Popup.replaceAll c by_ (String x s)
  = Popup.replaceAll c by_ (String x "") +:+ Popup.replaceAll c by_ s.
Proof. change (String x s) with (String x "" +:+ s). apply replaceAll_append. Qed.

Lemma escapeHtml_cons (c : Ascii.ascii) (s : string) :
  Popup.escapeHtml (String c s) = escapeChar c +:+ Popup.escapeHtml s.
Proof.
  unfold Popup.escapeHtml.
  rewrite (replaceAll_cons "&"), !replaceAll_append. f_equal.
  destruct c as [[] [] [] [] [] [] [] []]; reflexivity.
Qed.

Lemma escapeHtml_each (s : string) : Popup.escapeHtml s = escapeEach s.
Proof.
  induction s as [|c s IH]; [done|].
  by rewrite escapeHtml_cons, IH.
Qed.

Lemma unescape_escapeChar (c : Ascii.ascii) (s : string) :
  unescape (escapeChar c +:+ s) = String c (unescape s).
Proof. destruct c as [[] [] [] [] [] [] [] []]; reflexivity. Qed.

Lemma unescape_escapeEach (s : string) : unescape (escapeEach s) = s.
Proof.
  induction s as [|c s IH]; [done|].
  cbn [escapeEach]. by rewrite unescape_escapeChar, IH.
Qed.

Lemma chars_append (s1 s2 : string) :
  String.list_ascii_of_string (s1 +:+ s2)
  = String.list_ascii_of_string s1 ++ String.list_ascii_of_string s2.
Proof.
  induction s1 as [|c s1 IH]; [done|]. rewrite string_app_cons. cbn.
  by rewrite IH.
Qed.

Lemma escapeChar_chars (c x : Ascii.ascii) :
  x ∈ String.list_ascii_of_string (escapeChar c) →
  x ≠ "034"%char ∧ x ≠ "'"%char ∧ x ≠ "010"%char.
Proof.
  destruct c as [[] [] [] [] [] [] [] []]; cbn;
    intros Hx; repeat (apply elem_of_cons in Hx as [->|Hx]; [done|]);
    by apply elem_of_nil in Hx.
Qed.

(** X20.  The six replacements that [appendMessage] and the fallback of
    [renderMarkdown] apply one after another amount to one pass that
    replaces each character of the text once: no replacement rewrites the
    output of an earlier one.  The result is at least as long as the text,
    holds no double quote, no single quote and no line feed, and the text
    can be read back from it. *)
Theorem escapeHtml_escapes_once (text : string) :
  Popup.escapeHtml text = escapeEach text
  ∧ String.length text ≤ String.length (Popup.escapeHtml text)
  ∧ (∀ x, x ∈ String.list_ascii_of_string (Popup.escapeHtml text) →
       x ≠ "034"%char ∧ x ≠ "'"%char ∧ x ≠ "010"%char)
  ∧ unescape (Popup.escapeHtml text) = text.
Proof.
  rewrite escapeHtml_each. split; [done|]. split; [|split].
  - induction text as [|c text IH]; [done|]. cbn [escapeEach].
    rewrite string_length_app. cbn [String.length].
    assert (1 ≤ String.length (escapeChar c)); [|lia].
    unfold escapeChar. repeat (destruct (Ascii.eqb _ _); [cbn; lia|]). cbn. lia.
  - induction text as [|c text IH]; [by intros x ?%elem_of_nil|].
    cbn [escapeEach]. intros x. rewrite chars_append.
    intros [Hx|Hx]%elem_of_app; [by eapply escapeChar_chars|by apply IH].
  - apply unescape_escapeEach.
Qed.

(** ** Direct mode *)




(** An item that is uploaded passes the filter of direct mode. *)
Lemma convertItem_valid (item : HistoryItem) (e : Entry) :
  convertItem item = Some e → Direct.valid (Direct.simplify item) = true.
Proof.
  intros (Hurl & Hne & _ & _ & Htime & (q & Hq & Hpos) & _)%convertItem_Some.
  unfold Direct.valid, Direct.simplify. cbn. rewrite Hurl, Htime, Hq. cbn.
  apply andb_true_intro. split.
  - apply negb_true_iff, Nat.eqb_neq. intros Hlen. apply Hne.
    by destruct (e_url e).
  - apply negb_true_iff, bool_decide_eq_false. intros ->.
    rewrite Qc_of_Z_0 in Hpos. by apply Qclt_not_eq in Hpos.
Qed.

(** X22.  Direct mode works with every record that backend mode would
    upload: the two modes enumerate alike, every entry that
    [chatWithOpenAI] keeps has a url that is not empty and a last visit
    time that is neither zero nor NaN, every record that [chatWithBackend]
    prepares has an entry with the same url, title and last visit time
    there, and so there are at least as many entries as records. *)
Theorem direct_history_covers_upload {St : Type}
    (search : Query → St → option (list HistoryItem) * St)
    (available : bool) (clock : Z * Z) (st : Storage)
    (maxResultsOverride : option Z) (σ : St) :
  let direct :=
    Direct.directHistory search available clock st maxResultsOverride σ in
  let uploaded :=
    Worker.backendHistory search available clock st maxResultsOverride σ in
  (∀ d, d ∈ direct →
     ∃ u t, Direct.s_url d = Some u ∧ u ≠ ""
            ∧ Direct.s_last_visit_time d = Some t
            ∧ Worker.truthy_number t = true)
  ∧ (∀ e, e ∈ uploaded →
       ∃ d, d ∈ direct
            ∧ Direct.s_url d = Some (e_url e)
            ∧ Direct.s_title d = e_title e
            ∧ Direct.s_last_visit_time d = Some (last_visit_time e))
  ∧ length uploaded ≤ length direct.
Proof.
  intros direct uploaded. subst direct uploaded.
  unfold Direct.directHistory, Worker.backendHistory. cbv zeta.
  set (raw := rawItems _). clearbody raw.
  split; [|split].
  - intros d [Hvalid _]%list_elem_of_filter.
    revert Hvalid. unfold Direct.valid.
    destruct (Direct.s_url d) as [u|]; [|done].
    destruct (Direct.s_last_visit_time d) as [t|]; [|by rewrite andb_false_r].
    intros [Hu Ht]%andb_true_iff. exists u, t. split_and!; try done.
    intros ->. done.
  - intros e (item & Hin & He)%prepareHistory_elem.
    exists (Direct.simplify item). split.
    + apply list_elem_of_filter. split.
      * by eapply convertItem_valid.
      * apply list_elem_of_fmap. by exists item.
    + apply convertItem_Some in He as (Hurl & _ & _ & Htitle & Htime & _).
      by cbn.
  - unfold prepareHistory.
    induction raw as [|item raw IH]; [done|].
    rewrite fmap_cons, filter_cons. cbn [omap list_omap].
    fold (omap convertItem raw).
    destruct (convertItem item) as [e|] eqn:He.
    + rewrite decide_True by (by eapply convertItem_valid). cbn. lia.
    + case_decide; cbn; lia.
Qed.

(** ** The key field and the conversation of the pages *)

(** A trimmed string has no white space at either end. *)
Lemma trim_clean (s : string) :
  starts_clean (Js.trim s) ∧ starts_clean (String.rev (Js.trim s)).
Proof.
  unfold Js.trim.
  set (a := Js.trim_start s).
  set (c := Js.trim_start (String.rev a)).
  split.
  - destruct (trim_start_suffix (String.rev a)) as [w Hw]. fold c in Hw.
    apply (f_equal String.rev) in Hw.
    rewrite string_rev_rev, string_rev_append in Hw.
    apply (starts_clean_prefix _ (String.rev w)). rewrite <- Hw.
    apply trim_start_clean.
  - rewrite string_rev_rev. apply trim_start_clean.
Qed.

Lemma trim_fixed (s : string) :
  starts_clean s → starts_clean (String.rev s) → Js.trim s = s.
Proof.
  intros H1 H2. unfold Js.trim.
  by rewrite (trim_start_fixed _ H1), (trim_start_fixed _ H2), string_rev_rev.
Qed.

Lemma starts_clean_app (s1 s2 : string) :
  s1 ≠ "" → starts_clean s1 → starts_clean (s1 +:+ s2).
Proof. by destruct s1. Qed.

Lemma starts_clean_app_inv (s1 s2 : string) :
  s1 ≠ "" → starts_clean (s1 +:+ s2) → starts_clean s1.
Proof. by destruct s1. Qed.

Lemma substring_all (s : string) : String.substring 0 (String.length s) s = s.
Proof. induction s as [|c s IH]; [done|]. cbn. by rewrite IH. Qed.

Lemma substring_split (s : string) : ∀ k,
  k ≤ String.length s →
  s = String.substring 0 k s +:+ String.substring k (String.length s - k) s.
Proof.
  induction s as [|c s IH]; intros k Hk.
  - by destruct k.
  - destruct k as [|k].
    + rewrite Nat.sub_0_r, substring_all. by destruct s.
    + cbn [String.length] in *. cbn [String.substring Nat.sub].
      rewrite string_app_cons. f_equal. apply IH. lia.
Qed.

Lemma string_rev_nonempty (s : string) : s ≠ "" → String.rev s ≠ "".
Proof.
  destruct s as [|c s]; [done|]. intros _. rewrite string_rev_cons.
  by destruct (String.rev s).
Qed.

Lemma length_nonempty (s : string) : 0 < String.length s → s ≠ "".
Proof. destruct s; cbn; [lia|done]. Qed.

Lemma maskApiKey_trimmed (key : string) :
  Options.validateApiKey key = true →
  starts_clean key → starts_clean (String.rev key) →
  Js.trim (Options.maskApiKey key) = Options.maskApiKey key.
Proof.
  intros Hvalid Hc1 Hc2.
  set (n := String.length key).
  assert (20 ≤ n) as Hn.
  { unfold Options.validateApiKey in Hvalid. fold n in Hvalid.
    destruct (n =? 0); [done|]. cbn [orb] in Hvalid.
    destruct (Nat.ltb_spec n 20); [done|lia]. }
  unfold Options.maskApiKey. fold n.
  assert ((n =? 0) || (n <? 8) = false) as ->.
  { apply orb_false_iff. split; [apply Nat.eqb_neq|apply Nat.ltb_ge]; lia. }
  set (first := String.substring 0 7 key).
  set (last := String.substring (n - 4) 4 key).
  assert (String.length first = 7) as Hfirst.
  { apply string_length_substring. fold n. lia. }
  assert (String.length last = 4) as Hlast.
  { apply string_length_substring. fold n. lia. }
  apply trim_fixed.
  - apply starts_clean_app; [apply length_nonempty; lia|].
    pose proof (substring_split key 7 ltac:(fold n; lia)) as Hsplit.
    fold first in Hsplit. rewrite Hsplit in Hc1.
    apply (starts_clean_app_inv _ _ (length_nonempty first ltac:(lia)) Hc1).
  - rewrite !string_rev_append.
    apply starts_clean_app.
    { apply length_nonempty. rewrite string_length_app.
      assert (0 < String.length (String.rev last)); [|lia].
      destruct (String.rev last) eqn:Hr; cbn; [|lia].
      by destruct (string_rev_nonempty last (length_nonempty last ltac:(lia))). }
    apply starts_clean_app; [apply string_rev_nonempty, length_nonempty; lia|].
    pose proof (substring_split key (n - 4) ltac:(fold n; lia)) as Hsplit.
    fold n in Hsplit. replace (n - (n - 4)) with 4 in Hsplit by lia.
    fold last in Hsplit. rewrite Hsplit, string_rev_append in Hc2.
    apply (starts_clean_app_inv _ _
             (string_rev_nonempty _ (length_nonempty last ltac:(lia))) Hc2).
Qed.

Lemma handleSaveApiKey_saved (writable : bool) (field field1 : Options.KeyField)
    (st st1 : Storage) :
  Options.handleSaveApiKey writable field st = (field1, st1, Options.KeySaved) →
  let key := Js.trim (Options.value field) in
  Options.validateApiKey key = true
  ∧ field1 = Options.mkKeyField (Options.maskApiKey key) (Some key)
  ∧ st1 = set_openai_api_key (Some key) st.
Proof.
  intros Hsave key. revert Hsave. unfold Options.handleSaveApiKey. fold key.
  destruct (String.length key =? 0); [done|].
  destruct (_ && _); [done|].
  destruct (Options.validateApiKey key); [|done].
  destruct writable; [|done]. cbn [negb]. by intros [= <- <-].
Qed.

Lemma validateApiKey_nonempty (key : string) :
  Options.validateApiKey key = true →
  String.length key ≠ 0 ∧ String.length (Options.maskApiKey key) ≠ 0.
Proof.
  intros Hvalid. split.
  - unfold Options.validateApiKey in Hvalid.
    destruct (String.length key); [done|lia].
  - unfold Options.maskApiKey.
    destruct (_ || _); [done|]. rewrite string_length_app.
    assert (0 < String.length (String.substring 0 7 key)); [|lia].
    unfold Options.validateApiKey in Hvalid.
    destruct key as [|c key]; [done|]. cbn. lia.
Qed.

(** One action on the field of a saved key. *)
Lemma keyStep_saved (key : string) (st : Storage) (a : KeyAction)
    (ui : bool * Options.KeyField * Storage) :
  Options.validateApiKey key = true → Js.trim key = key →
  Js.trim (Options.maskApiKey key) = Options.maskApiKey key →
  openai_api_key st = Some key →
  ui.2 = st → Options.actualValue ui.1.2 = Some key →
  Options.value ui.1.2 = key ∨ Options.value ui.1.2 = Options.maskApiKey key →
  let ui' := keyStep ui a in
  ui'.2 = st ∧ Options.actualValue ui'.1.2 = Some key
  ∧ (Options.value ui'.1.2 = key
     ∨ Options.value ui'.1.2 = Options.maskApiKey key).
Proof.
  intros Hvalid Htrim Hmask Hst. destruct ui as [[hidden [v actual]] st0].
  cbn [fst snd Options.value Options.actualValue]. intros -> -> Hv.
  destruct (validateApiKey_nonempty key Hvalid) as [Hlen Hlen'].
  assert (Js.truthy (Some key) = true) as Htruthy.
  { cbn. by apply negb_true_iff, Nat.eqb_neq. }
  destruct a as [writable|]; cbn [keyStep fst snd].
  - unfold Options.handleSaveApiKey.
    cbn [Options.value Options.actualValue default]. rewrite Htruthy.
    destruct Hv as [-> | ->].
    + rewrite Htrim. rewrite (proj2 (Nat.eqb_neq _ _) Hlen). cbn [andb].
      case_bool_decide as Heq; [by cbn; auto|].
      rewrite Hvalid. cbn [negb].
      destruct writable; cbn [fst snd Options.value Options.actualValue];
        [|by auto].
      split_and!; [|done|by right].
      destruct st as [k prefs chat]. cbn in *. by rewrite Hst.
    + rewrite Hmask. rewrite (proj2 (Nat.eqb_neq _ _) Hlen'). cbn [andb].
      rewrite bool_decide_eq_true_2 by done. cbn. auto.
  - unfold Options.handleToggleVisibility.
    cbn [Options.value Options.actualValue default]. rewrite Htruthy.
    destruct hidden; cbn; auto.
Qed.

(** X23.  Once a key is saved, the page keeps it: saving again from the
    field as the page left it reports that nothing changed, and whatever
    sequence of saving and of showing or hiding the key follows, the stored
    key is still the saved one, the mask is never stored in its place, and
    the field shows the key or its mask. *)
Theorem saved_key_survives_the_page (writable : bool)
    (field field1 : Options.KeyField) (st st1 : Storage) (hidden : bool)
    (actions : list KeyAction) :
  Options.handleSaveApiKey writable field st
  = (field1, st1, Options.KeySaved) →
  let key := Js.trim (Options.value field) in
  let ui := foldl keyStep (hidden, field1, st1) actions in
  (∀ w, Options.handleSaveApiKey w field1 st1
        = (field1, st1, Options.AlreadySaved))
  ∧ ui.2 = st1
  ∧ openai_api_key ui.2 = Some key
  ∧ Options.actualValue ui.1.2 = Some key
  ∧ (Options.value ui.1.2 = key
     ∨ Options.value ui.1.2 = Options.maskApiKey key).
Proof.
  intros Hsave key ui.
  destruct (handleSaveApiKey_saved _ _ _ _ _ Hsave) as (Hvalid & -> & ->).
  fold key in Hvalid |- *.
  destruct (trim_clean (Options.value field)) as [Hc1 Hc2]. fold key in Hc1, Hc2.
  pose proof (trim_fixed key Hc1 Hc2) as Htrim.
  pose proof (maskApiKey_trimmed key Hvalid Hc1 Hc2) as Hmask.
  set (st1 := set_openai_api_key (Some key) st) in *.
  assert (openai_api_key st1 = Some key) as Hst by done.
  set (field1 := Options.mkKeyField (Options.maskApiKey key) (Some key)) in *.
  split.
  { intros w. destruct (validateApiKey_nonempty key Hvalid) as [Hlen Hlen'].
    unfold Options.handleSaveApiKey.
    cbn [Options.value Options.actualValue field1 default]. rewrite Hmask.
    rewrite (proj2 (Nat.eqb_neq _ _) Hlen'). cbn [Js.truthy].
    rewrite (proj2 (Nat.eqb_neq _ _) Hlen). cbn [negb andb].
    by rewrite bool_decide_eq_true_2. }
  enough (ui.2 = st1 ∧ Options.actualValue ui.1.2 = Some key
          ∧ (Options.value ui.1.2 = key
             ∨ Options.value ui.1.2 = Options.maskApiKey key))
    as (H1 & H2 & H3) by (by rewrite H1).
  subst ui.
  assert (∀ ui0 : bool * Options.KeyField * Storage,
            ui0.2 = st1 → Options.actualValue ui0.1.2 = Some key →
            Options.value ui0.1.2 = key
            ∨ Options.value ui0.1.2 = Options.maskApiKey key →
            (foldl keyStep ui0 actions).2 = st1
            ∧ Options.actualValue (foldl keyStep ui0 actions).1.2 = Some key
            ∧ (Options.value (foldl keyStep ui0 actions).1.2 = key
               ∨ Options.value (foldl keyStep ui0 actions).1.2
                 = Options.maskApiKey key)) as Hfold.
  { induction actions as [|a actions IH]; intros ui0 H1 H2 H3; [done|].
    cbn [foldl].
    destruct (keyStep_saved key st1 a ui0 Hvalid Htrim Hmask Hst H1 H2 H3)
      as (H1' & H2' & H3').
    by apply IH. }
  apply Hfold; [done|done|by right].
Qed.

(** The key is shown, saved again, hidden, and saved with a failing
    storage. *)
Lemma saved_key_survives_the_page_witness :
  let field := Options.mkKeyField (demoKey +:+ " ") None in
  let actions :=
    [ToggleVisibility; SaveKey true; ToggleVisibility; SaveKey false] in
  let ui :=
    foldl keyStep
      (true, Options.mkKeyField (Options.maskApiKey demoKey) (Some demoKey),
       set_openai_api_key (Some demoKey) emptyStorage) actions in
  Options.handleSaveApiKey true field emptyStorage
  = (Options.mkKeyField (Options.maskApiKey demoKey) (Some demoKey),
     set_openai_api_key (Some demoKey) emptyStorage, Options.KeySaved)
  ∧ openai_api_key ui.2 = Some demoKey.
Proof.
  intros field actions ui.
  assert (Options.handleSaveApiKey true field emptyStorage
          = (Options.mkKeyField (Options.maskApiKey demoKey) (Some demoKey),
             set_openai_api_key (Some demoKey) emptyStorage, Options.KeySaved))
    as Hsave by reflexivity.
  split; [exact Hsave|].
  by destruct (saved_key_survives_the_page true field _ emptyStorage _ true
                 actions Hsave) as (_ & _ & Hkey & _).
Defined.

Lemma chatStep_settings (w : Popup.State * Storage) (a : ChatAction) :
  openai_api_key (chatStep w a).2 = openai_api_key w.2
  ∧ user_preferences (chatStep w a).2 = user_preferences w.2.
Proof.
  destruct w as [p st], a as [text|writable|writable [reply|]|writable];
    cbn [chatStep fst snd]; try done.
  - unfold Popup.handleSendMessage.
    destruct (Popup.isProcessing p); [done|].
    destruct (_ =? 0); [done|]. by destruct writable.
  - by destruct writable.
  - by destruct writable.
Qed.

Lemma chatStep_persisted (w : Popup.State * Storage) (a : ChatAction) :
  writes_succeed a = true →
  Popup.loadChatHistory w.2 = Popup.chatHistory w.1 →
  Popup.loadChatHistory (chatStep w a).2 = Popup.chatHistory (chatStep w a).1.
Proof.
  destruct w as [p st], a as [text|writable|writable [reply|]|writable];
    cbn [chatStep fst snd writes_succeed]; try done; intros -> Hinv; try done.
  unfold Popup.handleSendMessage.
  destruct (Popup.isProcessing p); [done|].
  by destruct (_ =? 0).
Qed.

(** X24.  The chat window keeps the stored conversation equal to the one
    it shows: from a window whose conversation is the stored one, after any
    sequence of typing, sending, answers (replies or failures) and new
    chats whose writes succeed, loading the stored conversation gives the
    conversation of the window.  Whether the writes succeed or not, the
    stored key and preferences are left as they were. *)
Theorem chat_history_is_persisted (actions : list ChatAction) :
  ∀ w0 : Popup.State * Storage,
  let w := foldl chatStep w0 actions in
  (openai_api_key w.2 = openai_api_key w0.2
   ∧ user_preferences w.2 = user_preferences w0.2)
  ∧ (Popup.loadChatHistory w0.2 = Popup.chatHistory w0.1 →
     Forall (λ a, writes_succeed a = true) actions →
     Popup.loadChatHistory w.2 = Popup.chatHistory w.1).
Proof.
  induction actions as [|a actions IH]; intros w0; [done|].
  cbn [foldl]. destruct (IH (chatStep w0 a)) as [[Hk Hp] Hh].
  destruct (chatStep_settings w0 a) as [Hk' Hp'].
  split; [split; congruence|].
  intros Hinv [Ha Hall]%Forall_cons. apply Hh; [|done].
  by apply chatStep_persisted.
Qed.

(** A failed exchange leaves the message of the user without a reply: the
    next request carries the two messages. *)
Lemma chat_history_is_persisted_witness :
  let actions :=
    [TypeText "a"; SendMessage true; Answer true Popup.Failed;
     TypeText "b"; SendMessage true] in
  let w := foldl chatStep (Popup.mkState [] false "", emptyStorage) actions in
  Popup.chatHistory w.1 = [mkChatMessage "user" "a"; mkChatMessage "user" "b"]
  ∧ Popup.loadChatHistory w.2 = Popup.chatHistory w.1.
Proof.
  intros actions w. split; [done|].
  destruct (chat_history_is_persisted actions
              (Popup.mkState [] false "", emptyStorage)) as [_ Hload].
  apply Hload; [done|].
  repeat (apply Forall_cons; split; [done|]). apply Forall_nil_2.
Defined.
